(** * LGenIC copy-number core: a shallow embedding of [generate_input.py]

    The development follows the four components of the program:
    the interval consolidator ([SampleCNVs.merge_overlapping_cnvs] and
    [SampleCNVs.add]), the ploidy normaliser ([SampleCNVs.adjust_ploidy]),
    the arm/chromosome classifier ([SampleCNVs.overlap_chrom]) and the
    gene overlap annotator ([get_overlap_genes]).

    Python integers are unbounded, so coordinates and copy numbers are [Z];
    list positions are [nat].  Python exceptions are values of [exn] carried
    by the [result] monad. *)

From Stdlib Require Import ZArith String Ascii QArith.
From stdpp Require Import base option list gmap strings fin_maps.

Local Open Scope Z_scope.

(** ** Exceptions and the error monad *)

Inductive exn : Type :=
| InvalidSegment     (* TypeError("Invalid CNV segment: ...") raised by add *)
| InvalidPloidy      (* TypeError("Ploidy of sample ... below 1!") *)
| InvalidCNState     (* NotImplementedError raised by get_overlap_genes *)
| NoneComparison     (* TypeError: ordering an int against None *)
| ZeroDivisionError
| IndexError
| KeyError
| StopIteration
| RecursionError.    (* the recursion budget of the model is exhausted *)

Inductive result (A : Type) : Type :=
| Ok (a : A)
| Raise (e : exn).
Arguments Ok {A} a.
Arguments Raise {A} e.

#[global] Instance result_ret : MRet result := fun A a => Ok a.
#[global] Instance result_bind : MBind result := fun A B f m =>
  match m with
  | Ok a => f a
  | Raise e => Raise e
  end.

#[global] Instance exn_eq_dec : EqDecision exn.
Proof. solve_decision. Defined.

(** ** Python list primitives *)

Module Py.

(** [l[i]] for a non-negative position. *)
Definition index {A} (l : list A) (i : nat) : result A :=
  match l !! i with
  | Some x => Ok x
  | None => Raise IndexError
  end.

(** [l.pop(i)], keeping only the remaining list. *)
Definition pop {A} (l : list A) (i : nat) : result (list A) :=
  if decide (i < length l)%nat then Ok (delete i l) else Raise IndexError.

(** [l.insert(i, x)]: a position past the end appends. *)
Definition insert {A} (l : list A) (i : nat) (x : A) : list A :=
  take i l ++ x :: drop i l.

(** [bisect.bisect_right(a, x)]: the loop of the standard library, run
    for at most [length a] iterations (the window [hi - lo] shrinks at
    every iteration). *)
Fixpoint bisect_right_loop (fuel : nat) (a : list Z) (x : Z) (lo hi : nat) : nat :=
  match fuel with
  | O => lo
  | S fuel' =>
      if (lo <? hi)%nat then
        let mid := ((lo + hi) / 2)%nat in
        if x <? nth mid a 0 then bisect_right_loop fuel' a x lo mid
        else bisect_right_loop fuel' a x (S mid) hi
      else lo
  end.

Definition bisect_right (a : list Z) (x : Z) : nat :=
  bisect_right_loop (length a) a x 0 (length a).

(** [bisect.bisect_left(a, x)]. *)
Fixpoint bisect_left_loop (fuel : nat) (a : list Z) (x : Z) (lo hi : nat) : nat :=
  match fuel with
  | O => lo
  | S fuel' =>
      if (lo <? hi)%nat then
        let mid := ((lo + hi) / 2)%nat in
        if nth mid a 0 <? x then bisect_left_loop fuel' a x (S mid) hi
        else bisect_left_loop fuel' a x lo mid
      else lo
  end.

Definition bisect_left (a : list Z) (x : Z) : nat :=
  bisect_left_loop (length a) a x 0 (length a).

(** [s.replace("chr", "")]: every occurrence, scanning left to right. *)
Fixpoint replace_chr (s : string) : string :=
  match s with
  | String "c" (String "h" (String "r" rest)) => replace_chr rest
  | String a s' => String a (replace_chr s')
  | EmptyString => EmptyString
  end.

(** [s.startswith("chr")]. *)
Definition startswith_chr (s : string) : bool := String.prefix "chr"%string s.

End Py.

(** The renaming of a contig towards the convention of a table:
    ["chr"] is prepended or stripped. *)
Definition match_prefix (is_chr_prefixed : bool) (chrom : string) : string :=
  if is_chr_prefixed && negb (Py.startswith_chr chrom) then ("chr" ++ chrom)%string
  else if negb is_chr_prefixed && Py.startswith_chr chrom then Py.replace_chr chrom
  else chrom.

(** [round(x / g)] for integers [x] and [g <> 0]: the quotient rounded to
    the nearest integer, halves going to the even neighbour.  Python forms
    the quotient in binary64 before rounding it; the two agree whenever
    [|x| < 2^52], far above any sum of base pairs weighted by a copy
    number. *)
Definition round_div (x g : Z) : Z :=
  let '(x, g) := if g <? 0 then (- x, - g) else (x, g) in
  let q := x / g in
  let r := x mod g in
  if 2 * r <? g then q
  else if g <? 2 * r then q + 1
  else if Z.even q then q else q + 1.

(** ** Interval consolidator *)

(** The three parallel lists a chromosome is stored as. *)
Abbreviation segs := (list Z * list Z * list Z)%type.

Section Merge.

(** [self.merge_overlapping_cnvs], as seen from the two nested helpers. *)
Variable merge : list Z -> list Z -> list Z -> Z -> Z -> Z -> result segs.

Definition reduce_new_event (existStarts existEnds existCNs : list Z)
    (newStart newEnd newCN oldStart oldEnd : Z) : result segs :=
  let outStart1 := newStart in
  let outEnd1 := oldStart in
  let outStart2 := oldEnd in
  let outEnd2 := newEnd in
  '(existStarts, existEnds, existCNs) ←
    (if outStart1 <? outEnd1
     then merge existStarts existEnds existCNs outStart1 outEnd1 newCN
     else Ok (existStarts, existEnds, existCNs));
  '(existStarts, existEnds, existCNs) ←
    (if outStart2 <? outEnd2
     then merge existStarts existEnds existCNs outStart2 outEnd2 newCN
     else Ok (existStarts, existEnds, existCNs));
  Ok (existStarts, existEnds, existCNs).

(** [start_bisect] is captured from the enclosing call. *)
Definition reduce_old_event (start_bisect : nat)
    (existStarts existEnds existCNs : list Z)
    (newStart newEnd newCN oldStart oldEnd oldCN : Z) : result segs :=
  let outStart1 := oldStart in
  let outEnd1 := newStart in
  let outStart2 := newEnd in
  let outEnd2 := oldEnd in
  let outCN := oldCN in
  existStarts ← Py.pop existStarts start_bisect;
  existEnds ← Py.pop existEnds start_bisect;
  existCNs ← Py.pop existCNs start_bisect;
  let '(existStarts, existEnds, existCNs) :=
    if outStart2 <? outEnd2
    then (Py.insert existStarts start_bisect outStart2,
          Py.insert existEnds start_bisect outEnd2,
          Py.insert existCNs start_bisect outCN)
    else (existStarts, existEnds, existCNs) in
  let '(existStarts, existEnds, existCNs) :=
    if outStart1 <? outEnd1
    then (Py.insert existStarts start_bisect outStart1,
          Py.insert existEnds start_bisect outEnd1,
          Py.insert existCNs start_bisect outCN)
    else (existStarts, existEnds, existCNs) in
  merge existStarts existEnds existCNs newStart newEnd newCN.

End Merge.

(** The recursion of [merge_overlapping_cnvs], with [fuel] bounding its
    depth. *)
Fixpoint merge_fuel (fuel : nat) (existStarts existEnds existCNs : list Z)
    (newStart newEnd newCN : Z) : result segs :=
  match fuel with
  | O => Raise RecursionError
  | S fuel' =>
      let start_bisect := Py.bisect_right existEnds newStart in
      let end_bisect := Py.bisect_left existStarts newEnd in
      if (start_bisect =? end_bisect)%nat then
        Ok (Py.insert existStarts start_bisect newStart,
            Py.insert existEnds start_bisect newEnd,
            Py.insert existCNs start_bisect newCN)
      else
        oldStart ← Py.index existStarts start_bisect;
        oldEnd ← Py.index existEnds start_bisect;
        oldCN ← Py.index existCNs start_bisect;
        if oldCN =? newCN then
          let outStart := if oldStart <? newStart then oldStart else newStart in
          let outEnd := if oldEnd >? newEnd then oldEnd else newEnd in
          existStarts ← Py.pop existStarts start_bisect;
          existEnds ← Py.pop existEnds start_bisect;
          existCNs ← Py.pop existCNs start_bisect;
          merge_fuel fuel' existStarts existEnds existCNs outStart outEnd newCN
        else if (newCN <=? 2) && (oldCN <=? 2) then
          if oldCN <? newCN then
            reduce_new_event (merge_fuel fuel') existStarts existEnds existCNs
              newStart newEnd newCN oldStart oldEnd
          else
            reduce_old_event (merge_fuel fuel') start_bisect
              existStarts existEnds existCNs
              newStart newEnd newCN oldStart oldEnd oldCN
        else if (newCN >=? 2) && (oldCN >=? 2) then
          if oldCN >? newCN then
            reduce_new_event (merge_fuel fuel') existStarts existEnds existCNs
              newStart newEnd newCN oldStart oldEnd
          else
            reduce_old_event (merge_fuel fuel') start_bisect
              existStarts existEnds existCNs
              newStart newEnd newCN oldStart oldEnd oldCN
        else
          if oldEnd - oldStart <? newEnd - newStart then
            reduce_new_event (merge_fuel fuel') existStarts existEnds existCNs
              newStart newEnd newCN oldStart oldEnd
          else
            reduce_old_event (merge_fuel fuel') start_bisect
              existStarts existEnds existCNs
              newStart newEnd newCN oldStart oldEnd oldCN
  end.

(** [SampleCNVs.merge_overlapping_cnvs].  Every nested call resolves one
    stored segment against the incoming one, so a depth of one more than the
    number of stored segments is granted ([merge_fuel_enough] shows it is
    never exhausted on a consolidated list, [merge_fuel_mono] that a larger
    budget changes no result). *)
Definition merge_overlapping_cnvs (existStarts existEnds existCNs : list Z)
    (newStart newEnd newCN : Z) : result segs :=
  merge_fuel (S (length existStarts)) existStarts existEnds existCNs
    newStart newEnd newCN.

(** The state of a [SampleCNVs] object. *)
Record SampleCNVs : Type := mkSampleCNVs {
  starts : gmap string (list Z);
  ends : gmap string (list Z);
  cn_states : gmap string (list Z);
  len_seg : gmap string nat;
  is_chr_prefixed : option bool;
  ploidy : option Z
}.

(** [SampleCNVs.__init__]. *)
Definition init : SampleCNVs :=
  {| starts := ∅; ends := ∅; cn_states := ∅; len_seg := ∅;
     is_chr_prefixed := None; ploidy := None |}.

(** [d[k]] on a dictionary. *)
Definition getitem {V} (d : gmap string V) (k : string) : result V :=
  match d !! k with
  | Some v => Ok v
  | None => Raise KeyError
  end.

(** [SampleCNVs.add]. *)
Definition add (self : SampleCNVs) (chrom : string) (start end_ cn : Z)
    : result SampleCNVs :=
  let chrom := Py.replace_chr chrom in
  if end_ <=? start then
    if start =? end_ then Ok self
    else Raise InvalidSegment
  else
    match len_seg self !! chrom with
    | None =>
        Ok {| starts := <[chrom := [start]]> (starts self);
              ends := <[chrom := [end_]]> (ends self);
              cn_states := <[chrom := [cn]]> (cn_states self);
              len_seg := <[chrom := 1%nat]> (len_seg self);
              is_chr_prefixed :=
                match is_chr_prefixed self with
                | None => Some (Py.startswith_chr chrom)
                | Some b => Some b
                end;
              ploidy := ploidy self |}
    | Some _ =>
        s ← getitem (starts self) chrom;
        e ← getitem (ends self) chrom;
        c ← getitem (cn_states self) chrom;
        '(s, e, c) ← merge_overlapping_cnvs s e c start end_ cn;
        let cn_states' := <[chrom := c]> (cn_states self) in
        Ok {| starts := <[chrom := s]> (starts self);
              ends := <[chrom := e]> (ends self);
              cn_states := cn_states';
              len_seg := <[chrom := size cn_states']> (len_seg self);
              is_chr_prefixed := is_chr_prefixed self;
              ploidy := ploidy self |}
    end.

(** A stream of [add] calls, stopping at the first exception. *)
Fixpoint add_all (self : SampleCNVs) (calls : list (string * Z * Z * Z))
    : result SampleCNVs :=
  match calls with
  | [] => Ok self
  | (chrom, start, end_, cn) :: rest =>
      self' ← add self chrom start end_ cn;
      add_all self' rest
  end.


(** ** Gene overlap annotator *)

(** The class [Gene]. *)
Module Gene.
Record t : Type := mk { name : string; chrom : string; start : Z; end_ : Z }.
End Gene.

(** A dictionary whose iteration order is observed: the pairs in insertion
    order, each key occurring once. *)
Abbreviation odict V := (list (string * V)).

(** [d[k]] on such a dictionary, [None] standing for [KeyError]. *)
Fixpoint odict_get {V} (d : odict V) (k : string) : option V :=
  match d with
  | [] => None
  | (k', v) :: d' => if String.eqb k' k then Some v else odict_get d' k
  end.

(** The loop of [get_overlap_genes] over [genes_on_chrom.items()]. *)
Fixpoint overlap_genes_loop (start end_ copy_num : Z)
    (items : odict Gene.t) (olap_genes : list string) : result (list string) :=
  match items with
  | [] => Ok olap_genes
  | (entrez_id, gene_info) :: items' =>
      if (start <? Gene.end_ gene_info) && (end_ >? Gene.start gene_info) then
        if copy_num <? 2 then
          overlap_genes_loop start end_ copy_num items' (olap_genes ++ [entrez_id])
        else if copy_num >? 2 then
          if (start >? Gene.start gene_info) || (end_ <? Gene.end_ gene_info) then
            overlap_genes_loop start end_ copy_num items' olap_genes
          else
            overlap_genes_loop start end_ copy_num items' (olap_genes ++ [entrez_id])
        else Raise InvalidCNState
      else overlap_genes_loop start end_ copy_num items' olap_genes
  end.

(** [get_overlap_genes]. *)
Definition get_overlap_genes (chrom : string) (start end_ copy_num : Z)
    (gene_cords : odict (odict Gene.t)) : result (list string) :=
  first_key ← match gene_cords with
              | [] => Raise StopIteration
              | (k, _) :: _ => Ok k
              end;
  let is_chr_prefixed := Py.startswith_chr first_key in
  let chrom := match_prefix is_chr_prefixed chrom in
  match odict_get gene_cords chrom with
  | None => Ok []
  | Some genes_on_chrom =>
      overlap_genes_loop start end_ copy_num genes_on_chrom []
  end.

(** ** Ploidy normaliser *)

(** The class [Chromosome].  The lengths start as [0.0] and become
    integers once an arm is assigned; they are integers here. *)
Module Chromosome.
Record t : Type := mk {
  chrom : string;
  p_start : option Z;
  p_end : option Z;
  q_start : option Z;
  q_end : option Z;
  q_length : Z;
  p_length : Z
}.
End Chromosome.

(** An integer read from a field that may still hold [None], for an
    ordering comparison. *)
Definition known (field : option Z) : result Z :=
  match field with
  | Some v => Ok v
  | None => Raise NoneComparison
  end.

(** The placeholder written into a chromosome whose arm is unset. *)
Definition fill_placeholder (chromosome : Chromosome.t) : Chromosome.t :=
  let chromosome :=
    match Chromosome.p_start chromosome with
    | None =>
        {| Chromosome.chrom := Chromosome.chrom chromosome;
           Chromosome.p_start := Some (-100000);
           Chromosome.p_end := Some (-100000);
           Chromosome.q_start := Chromosome.q_start chromosome;
           Chromosome.q_end := Chromosome.q_end chromosome;
           Chromosome.q_length := Chromosome.q_length chromosome;
           Chromosome.p_length := 1 |}
    | Some _ => chromosome
    end in
  match Chromosome.q_start chromosome with
  | None =>
      {| Chromosome.chrom := Chromosome.chrom chromosome;
         Chromosome.p_start := Chromosome.p_start chromosome;
         Chromosome.p_end := Chromosome.p_end chromosome;
         Chromosome.q_start := Some (-100000);
         Chromosome.q_end := Some (-100000);
         Chromosome.q_length := 1;
         Chromosome.p_length := Chromosome.p_length chromosome |}
  | Some _ => chromosome
  end.

(** The name under which the sample stores a chromosome of the arm table. *)
Definition sample_chrom_name (self : SampleCNVs) (chrom_name : string) : string :=
  match_prefix (default false (is_chr_prefixed self)) chrom_name.

(** [zip(a, b, c)]. *)
Fixpoint zip3 (a b c : list Z) : list (Z * Z * Z) :=
  match a, b, c with
  | x :: a', y :: b', z :: c' => (x, y, z) :: zip3 a' b' c'
  | _, _, _ => []
  end.

(** [if cn not in ploidy_cov: ploidy_cov[cn] = 0] followed by
    [ploidy_cov[cn] += bases]. *)
Definition cov_add (ploidy_cov : gmap Z Z) (cn bases : Z) : gmap Z Z :=
  let ploidy_cov :=
    match ploidy_cov !! cn with
    | None => <[cn := 0]> ploidy_cov
    | Some _ => ploidy_cov
    end in
  <[cn := default 0 (ploidy_cov !! cn) + bases]> ploidy_cov.

(** The body of the loop over the segments of one chromosome. *)
Definition ploidy_segment (chromosome : Chromosome.t) (ploidy_cov : gmap Z Z)
    (start end_ cn : Z) : result (gmap Z Z) :=
  p_start ← known (Chromosome.p_start chromosome);
  out_of_range ←
    (if end_ <? p_start then Ok true
     else q_end ← known (Chromosome.q_end chromosome); Ok (start >? q_end));
  if out_of_range : bool then Ok ploidy_cov
  else
    p_end ← known (Chromosome.p_end chromosome);
    let ploidy_cov :=
      if start <? p_end then
        let olap_start := if start >? p_start then start else p_start in
        let olap_end := if end_ <? p_end then end_ else p_end in
        cov_add ploidy_cov cn (olap_end - olap_start)
      else ploidy_cov in
    q_start ← known (Chromosome.q_start chromosome);
    if end_ >? q_start then
      q_end ← known (Chromosome.q_end chromosome);
      let olap_start := if start >? q_start then start else q_start in
      let olap_end := if end_ <? q_end then end_ else q_end in
      Ok (cov_add ploidy_cov cn (olap_end - olap_start))
    else Ok ploidy_cov.

Fixpoint ploidy_segments (chromosome : Chromosome.t) (ploidy_cov : gmap Z Z)
    (rows : list (Z * Z * Z)) : result (gmap Z Z) :=
  match rows with
  | [] => Ok ploidy_cov
  | (start, end_, cn) :: rows' =>
      ploidy_cov ← ploidy_segment chromosome ploidy_cov start end_ cn;
      ploidy_segments chromosome ploidy_cov rows'
  end.

(** The loop over [arm_coords.values()].  The objects of the table are
    updated in place, so the table is returned as the loop leaves it, also
    when an exception interrupts it. *)
Fixpoint ploidy_chromosomes (self : SampleCNVs) (arm_coords : odict Chromosome.t)
    (ploidy_cov : gmap Z Z) (genome_size : Z)
    : odict Chromosome.t * result (gmap Z Z * Z) :=
  match arm_coords with
  | [] => ([], Ok (ploidy_cov, genome_size))
  | (key, chromosome) :: rest =>
      let chromosome := fill_placeholder chromosome in
      let genome_size := genome_size + Chromosome.p_length chromosome in
      let genome_size := genome_size + Chromosome.q_length chromosome in
      let chrom_name := sample_chrom_name self (Chromosome.chrom chromosome) in
      let covered :=
        match starts self !! chrom_name with
        | None => Ok ploidy_cov
        | Some chrom_starts =>
            chrom_ends ← getitem (ends self) chrom_name;
            chrom_cn ← getitem (cn_states self) chrom_name;
            ploidy_segments chromosome ploidy_cov
              (zip3 chrom_starts chrom_ends chrom_cn)
        end in
      match covered with
      | Ok ploidy_cov =>
          let '(rest', r) := ploidy_chromosomes self rest ploidy_cov genome_size in
          ((key, chromosome) :: rest', r)
      | Raise ex => ((key, chromosome) :: rest, Raise ex)
      end
  end.

(** [SampleCNVs.adjust_ploidy]: the arm table and the sample as the call
    leaves them, and its outcome. *)
Definition adjust_ploidy (self : SampleCNVs) (arm_coords : odict Chromosome.t)
    (sample_name : string) (redo : bool)
    : odict Chromosome.t * SampleCNVs * result unit :=
  if bool_decide (is_Some (ploidy self)) && negb redo then
    (arm_coords, self, Ok tt)
  else
    let '(arm_coords, r) := ploidy_chromosomes self arm_coords ∅ 0 in
    match r with
    | Raise ex => (arm_coords, self, Raise ex)
    | Ok (ploidy_cov, genome_size) =>
        let x := map_fold (fun cn bases x => x + cn * bases) 0 ploidy_cov in
        if genome_size =? 0 then (arm_coords, self, Raise ZeroDivisionError)
        else
          let av_ploidy := round_div x genome_size in
          if av_ploidy <? 1 then (arm_coords, self, Raise InvalidPloidy)
          else
            let cn_states' :=
              if negb (av_ploidy =? 2) then
                let ploidy_dif := av_ploidy - 2 in
                (fun cn : list Z => (fun y => y - ploidy_dif) <$> cn) <$> cn_states self
              else cn_states self in
            (arm_coords,
             {| starts := starts self; ends := ends self;
                cn_states := cn_states'; len_seg := len_seg self;
                is_chr_prefixed := is_chr_prefixed self;
                ploidy := Some av_ploidy |},
             Ok tt)
    end.

(** ** Arm and chromosome event classifier *)

(** The labels written into [events]. *)
Inductive event : Type := AMP | GAIN | HOMDEL | HETLOSS.

#[global] Instance event_eq_dec : EqDecision event.
Proof. solve_decision. Defined.

(** One of the dictionaries [{"p": 0, "q": 0, "Chrom": 0}]. *)
Record arm_sums : Type := mkArmSums { at_p : Z; at_q : Z; at_Chrom : Z }.

(** The four dictionaries of overlap sums. *)
Record overlap_sums : Type := mkSums {
  homdel_sum : arm_sums;
  del_sum : arm_sums;
  gain_sum : arm_sums;
  amp_sum : arm_sums
}.

Definition no_sums : overlap_sums :=
  {| homdel_sum := mkArmSums 0 0 0; del_sum := mkArmSums 0 0 0;
     gain_sum := mkArmSums 0 0 0; amp_sum := mkArmSums 0 0 0 |}.

(** [d["p"] += bases; d["Chrom"] += bases] and the same for ["q"]. *)
Inductive arm : Type := arm_p | arm_q.

Definition bump (side : arm) (bases : Z) (d : arm_sums) : arm_sums :=
  match side with
  | arm_p => {| at_p := at_p d + bases; at_q := at_q d;
                at_Chrom := at_Chrom d + bases |}
  | arm_q => {| at_p := at_p d; at_q := at_q d + bases;
                at_Chrom := at_Chrom d + bases |}
  end.

(** The update of the four sums for an overlap of [bases] with one arm. *)
Definition tally (side : arm) (cn bases : Z) (sums : overlap_sums) : overlap_sums :=
  if cn <? 2 then
    let sums :=
      {| homdel_sum := homdel_sum sums; del_sum := bump side bases (del_sum sums);
         gain_sum := gain_sum sums; amp_sum := amp_sum sums |} in
    if cn <? 1 then
      {| homdel_sum := bump side bases (homdel_sum sums); del_sum := del_sum sums;
         gain_sum := gain_sum sums; amp_sum := amp_sum sums |}
    else sums
  else if cn >? 2 then
    let sums :=
      {| homdel_sum := homdel_sum sums; del_sum := del_sum sums;
         gain_sum := bump side bases (gain_sum sums); amp_sum := amp_sum sums |} in
    if cn >? 3 then
      {| homdel_sum := homdel_sum sums; del_sum := del_sum sums;
         gain_sum := gain_sum sums; amp_sum := bump side bases (amp_sum sums) |}
    else sums
  else sums.

(** The body of the loop of [overlap_chrom] over the segments. *)
Definition tally_segment (chromosome : Chromosome.t) (sums : overlap_sums)
    (start end_ cn : Z) : result overlap_sums :=
  if cn =? 2 then Ok sums
  else
    p_start ← known (Chromosome.p_start chromosome);
    out_of_range ←
      (if end_ <? p_start then Ok true
       else q_end ← known (Chromosome.q_end chromosome); Ok (start >? q_end));
    if out_of_range : bool then Ok sums
    else
      p_end ← known (Chromosome.p_end chromosome);
      let sums :=
        if start <? p_end then
          let olap_start := if start >? p_start then start else p_start in
          let olap_end := if end_ <? p_end then end_ else p_end in
          tally arm_p cn (olap_end - olap_start) sums
        else sums in
      q_start ← known (Chromosome.q_start chromosome);
      if end_ >? q_start then
        q_end ← known (Chromosome.q_end chromosome);
        let olap_start := if start >? q_start then start else q_start in
        let olap_end := if end_ <? q_end then end_ else q_end in
        Ok (tally arm_q cn (olap_end - olap_start) sums)
      else Ok sums.

Fixpoint tally_segments (chromosome : Chromosome.t) (sums : overlap_sums)
    (rows : list (Z * Z * Z)) : result overlap_sums :=
  match rows with
  | [] => Ok sums
  | (start, end_, cn) :: rows' =>
      sums ← tally_segment chromosome sums start end_ cn;
      tally_segments chromosome sums rows'
  end.

(** [covered / length > threshold].  The threshold is a rational and the
    comparison is exact; Python compares the binary64 quotient with the
    binary64 threshold, which for the default threshold gives the same
    answer for lengths below [2^50]. *)
Definition exceeds (covered length : Z) (threshold : Q) : result bool :=
  if length =? 0 then Raise ZeroDivisionError
  else if 0 <? length
       then Ok (Qnum threshold * length <? covered * Zpos (Qden threshold))
       else Ok (covered * Zpos (Qden threshold) <? Qnum threshold * length).

(** [key not in events and covered / length > threshold]. *)
Definition free_and_exceeds (events : gmap string event) (key : string)
    (covered length : Z) (threshold : Q) : result bool :=
  match events !! key with
  | Some _ => Ok false
  | None => exceeds covered length threshold
  end.

(** One family of [overlap_chrom]: the same statements are written once
    for amplifications and gains and once for the two kinds of deletion,
    with [high] the sums of the stronger tier and [low] those of the
    weaker one. *)
Definition family_events (chrom_name : string) (chromosome : Chromosome.t)
    (threshold : Q) (high low : arm_sums) (HIGH LOW : event)
    (events : gmap string event) : result (gmap string event) :=
  let whole := Chromosome.p_length chromosome + Chromosome.q_length chromosome in
  b ← exceeds (at_Chrom high) whole threshold;
  if b : bool then Ok (<[(chrom_name ++ "Chrom")%string := HIGH]> events)
  else
    events ←
      (b ← exceeds (at_p high) (Chromosome.p_length chromosome) threshold;
       if b : bool then Ok (<[(chrom_name ++ "p")%string := HIGH]> events)
       else
         b ← exceeds (at_q high) (Chromosome.q_length chromosome) threshold;
         if b : bool then Ok (<[(chrom_name ++ "q")%string := HIGH]> events)
         else Ok events);
    b ← free_and_exceeds events (chrom_name ++ "Chrom") (at_Chrom low) whole threshold;
    if b : bool then Ok (<[(chrom_name ++ "Chrom")%string := LOW]> events)
    else
      b ← free_and_exceeds events (chrom_name ++ "p") (at_p low)
            (Chromosome.p_length chromosome) threshold;
      let events :=
        if b : bool then <[(chrom_name ++ "p")%string := LOW]> events else events in
      b ← free_and_exceeds events (chrom_name ++ "q") (at_q low)
            (Chromosome.q_length chromosome) threshold;
      Ok (if b : bool then <[(chrom_name ++ "q")%string := LOW]> events else events).

(** The second half of [overlap_chrom]: from the sums to the events. *)
Definition classify_events (chrom_name : string) (chromosome : Chromosome.t)
    (threshold : Q) (sums : overlap_sums) : result (gmap string event) :=
  events ← family_events chrom_name chromosome threshold
             (amp_sum sums) (gain_sum sums) AMP GAIN ∅;
  family_events chrom_name chromosome threshold
    (homdel_sum sums) (del_sum sums) HOMDEL HETLOSS events.

(** [SampleCNVs.overlap_chrom]; [alter] is the identity, and lets the
    classification be replayed on modified sums. *)
Definition overlap_chrom_with (alter : overlap_sums -> overlap_sums)
    (self : SampleCNVs) (chromosome : Chromosome.t) (threshold : Q)
    : result (gmap string event) :=
  let chrom_name := sample_chrom_name self (Chromosome.chrom chromosome) in
  match starts self !! chrom_name with
  | None => Ok ∅
  | Some chrom_starts =>
      chrom_ends ← getitem (ends self) chrom_name;
      chrom_cn ← getitem (cn_states self) chrom_name;
      sums ← tally_segments chromosome no_sums
               (zip3 chrom_starts chrom_ends chrom_cn);
      classify_events chrom_name chromosome threshold (alter sums)
  end.

Definition overlap_chrom (self : SampleCNVs) (chromosome : Chromosome.t)
    (threshold : Q) : result (gmap string event) :=
  overlap_chrom_with (fun sums => sums) self chromosome threshold.

(** The default threshold, [0.8]. *)
Definition default_threshold : Q := Qmake 4 5.
(** * The loaders and the driver

    The rest of [generate_input.py] reads tab-delimited text and drives the
    core.  A file is the list of the lines its iteration yields, each with
    its line ending; a Python string is a [string], a character being one
    of its code points. *)

(** ** Exceptions outside the core *)

(** One constructor for each [raise] statement of [Chromosome.add], of the
    loaders and of the driver, and for each built-in exception their code
    lets escape; [Escaped] carries an exception of the core that nothing
    catches. *)
Inductive failure : Type :=
| ArmAssigned            (* AttributeError("Coordinates already assigned ...") *)
| ArmsOverlap            (* AttributeError("... The q arm starts before the end of the p arm") *)
| UnknownArm             (* AttributeError("Unknown arm specified ...") *)
| MissingColumn (col : string)   (* AttributeError("Unable to locate column ...") *)
| TruncatedLine (i : nat)        (* AttributeError("... line appears truncated") *)
| NotAnInteger (i : nat)         (* TypeError("... start and end must be integers") *)
| TruncatedBed (i : nat)         (* AttributeError("... contains less than four columns") *)
| BadStart (i : nat)             (* TypeError("... the start position ... is not a valid genomic coordinate") *)
| BadEnd (i : nat)               (* TypeError("... the end position ... is not a valid genomic coordinate") *)
| GeneOnTwoChromosomes           (* AttributeError("We found two entries for gene ...") *)
| NoGeneFound                    (* AttributeError("No Hugo Symbols from the --genes file ...") *)
| NotTabDelimited                (* TypeError("... does not appear to be a tab-delimited file") *)
| BadEntrezId (i : nat)          (* TypeError("... does not appear to be a valid Entrez Gene ID") *)
| DuplicatedGene (hugo_name : string)   (* AttributeError("Gene ... appears duplicated") *)
| DuplicatedEntrezId             (* AttributeError("Entrez gene ID ... appears ... times") *)
| InvalidState                   (* TypeError("Invalid copy number state ...") *)
| ValueError                     (* a conversion by int that nothing catches *)
| NoneIndex                      (* TypeError: a list indexed by None *)
| NoneMembership                 (* TypeError: membership tested in None *)
| NoneConcat                     (* TypeError: None + str *)
| UnsupportedBuild               (* NotImplementedError("Only GRCh37 is currently supported ...") *)
| NoSampleBarcode (i : nat)      (* AttributeError("No tumor_sample_barcode was found ...") *)
| Escaped (ex : exn).

Inductive outcome (A : Type) : Type :=
| Returns (a : A)
| Raises (f : failure).
Arguments Returns {A} a.
Arguments Raises {A} f.

#[global] Instance outcome_ret : MRet outcome := fun A a => Returns a.
#[global] Instance outcome_bind : MBind outcome := fun A B f m =>
  match m with
  | Returns a => f a
  | Raises e => Raises e
  end.

#[global] Instance failure_eq_dec : EqDecision failure.
Proof. solve_decision. Defined.

(** A call of the core made where nothing catches its exceptions. *)
Definition uncaught {A} (r : result A) : outcome A :=
  match r with
  | Ok a => Returns a
  | Raise ex => Raises (Escaped ex)
  end.

(** ** Python string and dictionary primitives of the loaders *)

Module Str.

(** [s.rstrip(c)] for a single character [c]: every trailing [c] goes. *)
Fixpoint rstrip (c : ascii) (s : string) : string :=
  match s with
  | EmptyString => EmptyString
  | String a s' =>
      match rstrip c s' with
      | EmptyString => if Ascii.eqb a c then EmptyString else String a EmptyString
      | r => String a r
      end
  end.

(** [line.rstrip("\n").rstrip("\r")]. *)
Definition strip_line_ending (line : string) : string :=
  rstrip "013"%char (rstrip "010"%char line).

(** [s.split(sep)] for a single character [sep]. *)
Fixpoint split (sep : ascii) (s : string) : list string :=
  match s with
  | EmptyString => [EmptyString]
  | String a s' =>
      if Ascii.eqb a sep then EmptyString :: split sep s'
      else
        match split sep s' with
        | w :: ws => String a w :: ws
        | [] => [String a EmptyString]
        end
  end.

(** [s.replace(" ", "")]. *)
Fixpoint remove_spaces (s : string) : string :=
  match s with
  | EmptyString => EmptyString
  | String a s' =>
      if Ascii.eqb a " "%char then remove_spaces s' else String a (remove_spaces s')
  end.

(** [not s]. *)
Definition is_empty (s : string) : bool :=
  match s with EmptyString => true | _ => false end.

End Str.

(** [d[k] = v] on a dictionary whose order is observed: the value of an
    existing key is replaced in place, a new key goes last. *)
Fixpoint odict_set {V} (d : odict V) (k : string) (v : V) : odict V :=
  match d with
  | [] => [(k, v)]
  | (k', v') :: d' =>
      if String.eqb k' k then (k', v) :: d' else (k', v') :: odict_set d' k v
  end.

(** The header of a table: [for col in cols: if col in wanted:
    header_cols[col] = j], with [j] counting the columns. *)
Fixpoint read_header (wanted cols : list string) (j : nat)
    (header_cols : gmap string nat) : gmap string nat :=
  match cols with
  | [] => header_cols
  | col :: cols' =>
      read_header wanted cols' (S j)
        (if bool_decide (col ∈ wanted) then <[col := j]> header_cols
         else header_cols)
  end.

(** [for col in required_cols: if col not in header_cols: raise ...]: the
    first required column that is missing. *)
Definition missing_column (required_cols : list string)
    (header_cols : gmap string nat) : option string :=
  List.find (fun col => bool_decide (header_cols !! col = None)) required_cols.

(** [{x: cols[y] for x, y in header_cols.items()}]: [None] stands for the
    [IndexError] of a line with too few columns. *)
Definition attributes (header_cols : gmap string nat) (cols : list string)
    : option (gmap string string) :=
  if bool_decide (map_Forall (fun _ y => is_Some (cols !! y)) header_cols)
  then Some (omap (fun y => cols !! y) header_cols)
  else None.
(** ** The arm table *)

(** [Chromosome.__init__]. *)
Definition Chromosome_init (chrom : string) : Chromosome.t :=
  {| Chromosome.chrom := chrom;
     Chromosome.p_start := None; Chromosome.p_end := None;
     Chromosome.q_start := None; Chromosome.q_end := None;
     Chromosome.q_length := 0; Chromosome.p_length := 0 |}.

(** [Chromosome.add]: the object as the call leaves it, and its outcome.
    The coordinates are stored before the two arms are compared, so a call
    that raises [ArmsOverlap] has changed the object. *)
Definition Chromosome_add (self : Chromosome.t) (start end_ : Z) (arm : string)
    : Chromosome.t * outcome unit :=
  if String.eqb arm "p" then
    if bool_decide (is_Some (Chromosome.p_start self)) ||
       bool_decide (is_Some (Chromosome.p_end self))
    then (self, Raises ArmAssigned)
    else
      let self :=
        {| Chromosome.chrom := Chromosome.chrom self;
           Chromosome.p_start := Some start; Chromosome.p_end := Some end_;
           Chromosome.q_start := Chromosome.q_start self;
           Chromosome.q_end := Chromosome.q_end self;
           Chromosome.q_length := Chromosome.q_length self;
           Chromosome.p_length := end_ - start |} in
      match Chromosome.q_start self with
      | Some q_start =>
          if end_ >? q_start then (self, Raises ArmsOverlap) else (self, Returns tt)
      | None => (self, Returns tt)
      end
  else if String.eqb arm "q" then
    if bool_decide (is_Some (Chromosome.q_start self)) ||
       bool_decide (is_Some (Chromosome.q_end self))
    then (self, Raises ArmAssigned)
    else
      let self :=
        {| Chromosome.chrom := Chromosome.chrom self;
           Chromosome.p_start := Chromosome.p_start self;
           Chromosome.p_end := Chromosome.p_end self;
           Chromosome.q_start := Some start; Chromosome.q_end := Some end_;
           Chromosome.q_length := end_ - start;
           Chromosome.p_length := Chromosome.p_length self |} in
      match Chromosome.p_end self with
      | Some p_end =>
          if start <? p_end then (self, Raises ArmsOverlap) else (self, Returns tt)
      | None => (self, Returns tt)
      end
  else (self, Raises UnknownArm).

(** Calls of [Chromosome.add] in a row on one object, stopping at the first
    exception. *)
Fixpoint Chromosome_add_all (self : Chromosome.t) (calls : list (Z * Z * string))
    : Chromosome.t * outcome unit :=
  match calls with
  | [] => (self, Returns tt)
  | (start, end_, arm) :: calls' =>
      match Chromosome_add self start end_ arm with
      | (self, Returns _) => Chromosome_add_all self calls'
      | (self, Raises f) => (self, Raises f)
      end
  end.

Section Loaders.

(** [int(s)] for a string [s], [None] standing for its [ValueError], and
    [s.isdigit()].  Both are taken as they are: what is proved below holds
    whatever strings they accept. *)
Variable int : string -> option Z.
Variable isdigit : string -> bool.

Definition arm_required_cols : list string :=
  ["chromosome"; "start"; "end"; "arm"]%string.

(** The body of the loop of [load_chrom_arm] for a line of arm
    coordinates. *)
Definition load_arm_line (i : nat) (header_cols : gmap string nat)
    (cols : list string) (arm_chrom : odict Chromosome.t)
    : outcome (odict Chromosome.t) :=
  match attributes header_cols cols with
  | None => Raises (TruncatedLine i)
  | Some arm_attributes =>
      chrom ← uncaught (getitem arm_attributes "chromosome");
      let chrom := Py.replace_chr chrom in
      let arm_chrom :=
        match odict_get arm_chrom chrom with
        | None => odict_set arm_chrom chrom (Chromosome_init chrom)
        | Some _ => arm_chrom
        end in
      chromosome ← uncaught (match odict_get arm_chrom chrom with
                             | Some c => Ok c
                             | None => Raise KeyError
                             end);
      start ← uncaught (getitem arm_attributes "start");
      match int start with
      | None => Raises (NotAnInteger i)
      | Some start =>
          end_ ← uncaught (getitem arm_attributes "end");
          match int end_ with
          | None => Raises (NotAnInteger i)
          | Some end_ =>
              arm ← uncaught (getitem arm_attributes "arm");
              let '(chromosome, r) := Chromosome_add chromosome start end_ arm in
              _ ← r;
              Returns (odict_set arm_chrom chrom chromosome)
          end
      end
  end.

(** The loop of [load_chrom_arm] over the lines of the file. *)
Fixpoint load_arm_lines (lines : list string) (i : nat)
    (header_cols : gmap string nat) (arm_chrom : odict Chromosome.t)
    : outcome (odict Chromosome.t) :=
  match lines with
  | [] => Returns arm_chrom
  | line :: lines' =>
      let i := S i in
      let line := Str.strip_line_ending line in
      let cols := Str.split "009"%char line in
      if Str.is_empty line then load_arm_lines lines' i header_cols arm_chrom
      else if bool_decide (header_cols = ∅) then
        let header_cols := read_header arm_required_cols cols 0 header_cols in
        match missing_column arm_required_cols header_cols with
        | Some col => Raises (MissingColumn col)
        | None => load_arm_lines lines' i header_cols arm_chrom
        end
      else
        arm_chrom ← load_arm_line i header_cols cols arm_chrom;
        load_arm_lines lines' i header_cols arm_chrom
  end.

(** [load_chrom_arm], on the lines of [arm_file]. *)
Definition load_chrom_arm (arm_file : list string) : outcome (odict Chromosome.t) :=
  load_arm_lines arm_file 0 ∅ [].

End Loaders.
(** ** The gene table *)

Section GeneLoader.

Variable int : string -> option Z.
Variable isdigit : string -> bool.

(** [gene_ids], and [alt_gene_ids] as the caller passes it. *)
Variable gene_ids : gmap string string.
Variable alt_gene_ids : option (gmap string string).

(** What one line of the BED file asks to store: nothing for an empty line
    or a gene without Entrez id (whose name is then kept in
    [skipped_genes]), and else the chromosome, the coordinates and the
    Entrez id. *)
Inductive bed_entry : Type :=
| BedEmpty
| BedSkipped (gene : string)
| BedGene (chrom : string) (start end_ : Z) (entrez_id : string).

(** The first part of the body of the loop of [load_gene_coords_bed]. *)
Definition read_bed_line (i : nat) (line : string) : outcome bed_entry :=
  let line := Str.strip_line_ending line in
  let cols := Str.split "009"%char line in
  if Str.is_empty line then Returns BedEmpty
  else
    match cols with
    | chrom :: start :: end_ :: gene :: _ =>
        if negb (isdigit start) then Raises (BadStart i)
        else if negb (isdigit end_) then Raises (BadEnd i)
        else
          match int start with
          | None => Raises ValueError
          | Some start =>
              match int end_ with
              | None => Raises ValueError
              | Some end_ =>
                  let chrom := Py.replace_chr chrom in
                  if negb (isdigit gene) then
                    match gene_ids !! gene with
                    | Some entrez_id => Returns (BedGene chrom start end_ entrez_id)
                    | None =>
                        match default ∅ alt_gene_ids !! gene with
                        | Some entrez_id =>
                            Returns (BedGene chrom start end_ entrez_id)
                        | None => Returns (BedSkipped gene)
                        end
                    end
                  else Returns (BedGene chrom start end_ gene)
              end
          end
    | _ => Raises (TruncatedBed i)
    end.

(** The second part: the entry goes into [gene_coords]. *)
Definition store_gene (gene_coords : odict (odict Gene.t))
    (chrom : string) (start end_ : Z) (entrez_id : string)
    : outcome (odict (odict Gene.t)) :=
  let gene_coords :=
    match odict_get gene_coords chrom with
    | None => odict_set gene_coords chrom []
    | Some _ => gene_coords
    end in
  genes ← uncaught (match odict_get gene_coords chrom with
                    | Some genes => Ok genes
                    | None => Raise KeyError
                    end);
  match odict_get genes entrez_id with
  | Some existing_gene_entry =>
      if negb (String.eqb chrom (Gene.chrom existing_gene_entry))
      then Raises GeneOnTwoChromosomes
      else
        let existing_gene_entry :=
          if start <? Gene.start existing_gene_entry
          then {| Gene.name := Gene.name existing_gene_entry;
                  Gene.chrom := Gene.chrom existing_gene_entry;
                  Gene.start := start;
                  Gene.end_ := Gene.end_ existing_gene_entry |}
          else existing_gene_entry in
        let existing_gene_entry :=
          if end_ >? Gene.end_ existing_gene_entry
          then {| Gene.name := Gene.name existing_gene_entry;
                  Gene.chrom := Gene.chrom existing_gene_entry;
                  Gene.start := Gene.start existing_gene_entry;
                  Gene.end_ := end_ |}
          else existing_gene_entry in
        Returns (odict_set gene_coords chrom
                   (odict_set genes entrez_id existing_gene_entry))
  | None =>
      Returns (odict_set gene_coords chrom
                 (odict_set genes entrez_id
                    {| Gene.name := entrez_id; Gene.chrom := chrom;
                       Gene.start := start; Gene.end_ := end_ |}))
  end.

(** The loop of [load_gene_coords_bed]. *)
Fixpoint load_bed_lines (lines : list string) (i : nat)
    (gene_coords : odict (odict Gene.t)) (skipped_genes : list string)
    : outcome (odict (odict Gene.t) * list string) :=
  match lines with
  | [] => Returns (gene_coords, skipped_genes)
  | line :: lines' =>
      let i := S i in
      entry ← read_bed_line i line;
      match entry with
      | BedEmpty => load_bed_lines lines' i gene_coords skipped_genes
      | BedSkipped gene =>
          load_bed_lines lines' i gene_coords (skipped_genes ++ [gene])
      | BedGene chrom start end_ entrez_id =>
          gene_coords ← store_gene gene_coords chrom start end_ entrez_id;
          load_bed_lines lines' i gene_coords skipped_genes
      end
  end.

(** [load_gene_coords_bed], on the lines of [bed_file]. *)
Definition load_gene_coords_bed (bed_file : list string)
    : outcome (odict (odict Gene.t)) :=
  '(gene_coords, skipped_genes) ← load_bed_lines bed_file 0 [] [];
  if bool_decide (gene_coords = []) then
    match skipped_genes with
    | [] => Raises (Escaped IndexError)
    | _ :: _ => Raises NoGeneFound
    end
  else Returns gene_coords.

End GeneLoader.
(** ** The Entrez ids *)

Section EntrezLoader.

Variable isdigit : string -> bool.

(** The names of the columns, the last two being optional. *)
Variable hugo_column entrez_column : string.
Variable status_column prev_name_column : option string.

(** The variables of [load_entrez_ids] that live across the lines of the
    file ([skipped_genes] is written and never read, and is left out). *)
Record entrez_state : Type := mkEntrez {
  hugo_name_to_id : gmap string string;
  alt_hugo_name_to_id : gmap string string;
  hugo_col_num : option nat;
  entrez_col_num : option nat;
  status_col_num : option nat;
  prev_name_col_num : option nat
}.

Definition entrez_init : entrez_state :=
  {| hugo_name_to_id := ∅; alt_hugo_name_to_id := ∅;
     hugo_col_num := None; entrez_col_num := None;
     status_col_num := None; prev_name_col_num := None |}.

(** The loop over the columns of the header. *)
Fixpoint entrez_header (cols : list string) (j : nat) (st : entrez_state)
    : entrez_state :=
  match cols with
  | [] => st
  | col :: cols' =>
      let st :=
        if String.eqb col hugo_column
        then {| hugo_name_to_id := hugo_name_to_id st;
                alt_hugo_name_to_id := alt_hugo_name_to_id st;
                hugo_col_num := Some j; entrez_col_num := entrez_col_num st;
                status_col_num := status_col_num st;
                prev_name_col_num := prev_name_col_num st |}
        else st in
      let st :=
        if String.eqb col entrez_column
        then {| hugo_name_to_id := hugo_name_to_id st;
                alt_hugo_name_to_id := alt_hugo_name_to_id st;
                hugo_col_num := hugo_col_num st; entrez_col_num := Some j;
                status_col_num := status_col_num st;
                prev_name_col_num := prev_name_col_num st |}
        else st in
      let st :=
        if bool_decide (status_column = Some col)
        then {| hugo_name_to_id := hugo_name_to_id st;
                alt_hugo_name_to_id := alt_hugo_name_to_id st;
                hugo_col_num := hugo_col_num st;
                entrez_col_num := entrez_col_num st;
                status_col_num := Some j;
                prev_name_col_num := prev_name_col_num st |}
        else st in
      let st :=
        if bool_decide (prev_name_column = Some col)
        then {| hugo_name_to_id := hugo_name_to_id st;
                alt_hugo_name_to_id := alt_hugo_name_to_id st;
                hugo_col_num := hugo_col_num st;
                entrez_col_num := entrez_col_num st;
                status_col_num := status_col_num st;
                prev_name_col_num := Some j |}
        else st in
      entrez_header cols' (S j) st
  end.

(** [cols[k]] where no handler is in reach, for [k] an integer or [None]. *)
Definition column (cols : list string) (k : option nat) : outcome string :=
  match k with
  | None => Raises NoneIndex
  | Some k => uncaught (Py.index cols k)
  end.

(** The loop over [previous_names]. *)
Fixpoint add_previous (previous_names : list string) (entrez_id : string)
    (alt : gmap string string) : gmap string string :=
  match previous_names with
  | [] => alt
  | hugo_name :: previous_names' =>
      add_previous previous_names' entrez_id
        (match alt !! hugo_name with
         | Some _ => alt
         | None => <[hugo_name := entrez_id]> alt
         end)
  end.

(** The body of the loop for a line below the header. *)
Definition entrez_line (i : nat) (cols : list string) (st : entrez_state)
    : outcome entrez_state :=
  withdrawn ←
    match status_col_num st with
    | Some k =>
        status ← uncaught (Py.index cols k);
        Returns (negb (String.eqb status "Approved"))
    | None => Returns false
    end;
  if withdrawn : bool then Returns st
  else
    match hugo_col_num st, entrez_col_num st with
    | Some h, Some e =>
        match cols !! h, cols !! e with
        | Some hugo_name, Some entrez_id =>
            if negb (isdigit entrez_id) then
              if String.eqb entrez_id "" then Returns st
              else Raises (BadEntrezId i)
            else
              match hugo_name_to_id st !! hugo_name with
              | Some _ => Raises (DuplicatedGene hugo_name)
              | None =>
                  let hugo := <[hugo_name := entrez_id]> (hugo_name_to_id st) in
                  previous ← column cols (prev_name_col_num st);
                  let previous_names := Str.split ","%char previous in
                  let alt :=
                    match previous_names with
                    | first :: _ =>
                        if String.eqb first "" then alt_hugo_name_to_id st
                        else add_previous (Str.remove_spaces <$> previous_names)
                               entrez_id (alt_hugo_name_to_id st)
                    | [] => alt_hugo_name_to_id st
                    end in
                  Returns {| hugo_name_to_id := hugo;
                             alt_hugo_name_to_id := alt;
                             hugo_col_num := hugo_col_num st;
                             entrez_col_num := entrez_col_num st;
                             status_col_num := status_col_num st;
                             prev_name_col_num := prev_name_col_num st |}
              end
        | _, _ => Raises (TruncatedLine i)
        end
    | _, _ => Raises NoneIndex
    end.

(** The loop of [load_entrez_ids] over the lines of the file. *)
Fixpoint entrez_lines (lines : list string) (i : nat) (st : entrez_state)
    : outcome entrez_state :=
  match lines with
  | [] => Returns st
  | line :: lines' =>
      let i := S i in
      let line := Str.strip_line_ending line in
      let cols := Str.split "009"%char line in
      if (length cols <? 2)%nat then Raises NotTabDelimited
      else if bool_decide (hugo_col_num st = None) ||
              bool_decide (entrez_col_num st = None) then
        let st := entrez_header cols 0 st in
        match hugo_col_num st, entrez_col_num st with
        | None, _ => Raises (MissingColumn hugo_column)
        | Some _, None => Raises (MissingColumn entrez_column)
        | Some _, Some _ => entrez_lines lines' i st
        end
      else
        st ← entrez_line i cols st;
        entrez_lines lines' i st
  end.

(** [load_entrez_ids], on the lines of [entrez_file]. *)
Definition load_entrez_ids (entrez_file : list string)
    : outcome (gmap string string * gmap string string) :=
  st ← entrez_lines entrez_file 0 entrez_init;
  if bool_decide (size (hugo_name_to_id st)
                  = size (map_img (hugo_name_to_id st) : gset string))
  then Returns (hugo_name_to_id st, alt_hugo_name_to_id st)
  else Raises DuplicatedEntrezId.

End EntrezLoader.
(** ** The two passes of [generate_cnv_files] over the samples *)

(** A line of an output file, by its fields: sample, gene or arm, type. *)
Abbreviation line := (string * string * event)%type.

(** The choice of [event_type] for a focal segment. *)
Definition focal_event_type (cn_state : Z) : outcome event :=
  if cn_state >? 3 then Returns AMP
  else if cn_state >? 2 then Returns GAIN
  else if cn_state <? 1 then Returns HOMDEL
  else if cn_state <? 2 then Returns HETLOSS
  else Raises InvalidState.

(** [for gene in olap_genes]: the lines written for one segment. *)
Fixpoint gene_lines (sample : string) (event_type : event)
    (subset_ids : option (gset string)) (olap_genes : list string) : list line :=
  match olap_genes with
  | [] => []
  | gene :: olap_genes' =>
      if match subset_ids with
         | Some ids => negb (bool_decide (gene ∈ ids))
         | None => false
         end
      then gene_lines sample event_type subset_ids olap_genes'
      else (sample, gene, event_type)
           :: gene_lines sample event_type subset_ids olap_genes'
  end.

(** The loop over the segments of one chromosome of one sample: the lines
    written, in order, when it completes. *)
Fixpoint focal_segments (sample chrom : string) (rows : list (Z * Z * Z))
    (gene_coords : odict (odict Gene.t)) (subset_ids : option (gset string))
    (focal_cn_thresh : Z) : outcome (list line) :=
  match rows with
  | [] => Returns []
  | (start, end_, cn_state) :: rows' =>
      written ←
        (if cn_state =? 2 then Returns []
         else if end_ - start <? focal_cn_thresh then
           event_type ← focal_event_type cn_state;
           olap_genes ← uncaught (get_overlap_genes chrom start end_ cn_state
                                    gene_coords);
           Returns (gene_lines sample event_type subset_ids olap_genes)
         else Returns []);
      rest ← focal_segments sample chrom rows' gene_coords subset_ids
               focal_cn_thresh;
      Returns (written ++ rest)
  end.

(** The loop over [cnvs.cn_states.keys()], which [keys] lists in the order
    of the dictionary. *)
Fixpoint focal_chroms (sample : string) (cnvs : SampleCNVs) (keys : list string)
    (gene_coords : odict (odict Gene.t)) (subset_ids : option (gset string))
    (focal_cn_thresh : Z) : outcome (list line) :=
  match keys with
  | [] => Returns []
  | chrom :: keys' =>
      chrom_starts ← uncaught (getitem (starts cnvs) chrom);
      chrom_ends ← uncaught (getitem (ends cnvs) chrom);
      chrom_cn ← uncaught (getitem (cn_states cnvs) chrom);
      written ← focal_segments sample chrom (zip3 chrom_starts chrom_ends chrom_cn)
                  gene_coords subset_ids focal_cn_thresh;
      rest ← focal_chroms sample cnvs keys' gene_coords subset_ids focal_cn_thresh;
      Returns (written ++ rest)
  end.

Section Passes.

(** The order in which a sample's dictionary [cn_states] yields its keys. *)
Variable keys_of : SampleCNVs -> list string.

(** The gene pass: the body of the file [out_cnv_gene] below its header. *)
Fixpoint gene_pass (sample_cnvs : odict SampleCNVs)
    (gene_coords : odict (odict Gene.t)) (subset_ids : option (gset string))
    (focal_cn_thresh : Z) : outcome (list line) :=
  match sample_cnvs with
  | [] => Returns []
  | (sample, cnvs) :: sample_cnvs' =>
      written ← focal_chroms sample cnvs (keys_of cnvs) gene_coords subset_ids
                  focal_cn_thresh;
      rest ← gene_pass sample_cnvs' gene_coords subset_ids focal_cn_thresh;
      Returns (written ++ rest)
  end.

End Passes.

(** The default of [focal_cn_thresh]. *)
Definition default_focal_cn_thresh : Z := 30000000.

(** The chromosomes the arm pass leaves out. *)
Definition sex_chromosome (chrom : string) : bool :=
  String.eqb chrom "X" || String.eqb chrom "chrX" ||
  String.eqb chrom "Y" || String.eqb chrom "chrY".

(** The loop of the arm pass over [arm_coods.items()] for one sample: for
    each chromosome classified, the dictionary [events] whose items are
    written. *)
Fixpoint arm_chroms (cnvs : SampleCNVs) (arm_coods : odict Chromosome.t)
    : outcome (list (gmap string event)) :=
  match arm_coods with
  | [] => Returns []
  | (chrom, chrom_info) :: arm_coods' =>
      if sex_chromosome chrom then arm_chroms cnvs arm_coods'
      else
        events ← uncaught (overlap_chrom cnvs chrom_info default_threshold);
        rest ← arm_chroms cnvs arm_coods';
        Returns (events :: rest)
  end.

(** The arm pass: for each sample written, the dictionaries of its
    chromosomes. *)
Fixpoint arm_pass (sample_cnvs : odict SampleCNVs) (sample_ids : list string)
    (arm_coods : odict Chromosome.t)
    : outcome (list (string * list (gmap string event))) :=
  match sample_cnvs with
  | [] => Returns []
  | (sample, cnvs) :: sample_cnvs' =>
      if bool_decide (sample ∈ sample_ids) then
        written ← arm_chroms cnvs arm_coods;
        rest ← arm_pass sample_cnvs' sample_ids arm_coods;
        Returns ((sample, written) :: rest)
      else arm_pass sample_cnvs' sample_ids arm_coods
  end.

(** [for sample, cnvs in sample_cnvs.items(): cnvs.adjust_ploidy(arm_coods,
    sample)]: the arm table and the samples as the loop leaves them. *)
Fixpoint adjust_all (sample_cnvs : odict SampleCNVs) (arm_coods : odict Chromosome.t)
    : odict Chromosome.t * odict SampleCNVs * result unit :=
  match sample_cnvs with
  | [] => (arm_coods, [], Ok tt)
  | (sample, cnvs) :: sample_cnvs' =>
      let '(arm_coods, cnvs, r) := adjust_ploidy cnvs arm_coods sample false in
      match r with
      | Raise ex => (arm_coods, (sample, cnvs) :: sample_cnvs', Raise ex)
      | Ok _ =>
          let '(arm_coods, sample_cnvs', r) := adjust_all sample_cnvs' arm_coods in
          (arm_coods, (sample, cnvs) :: sample_cnvs', r)
      end
  end.
(** ** The gene subset and the mutation file *)

From Stdlib Require Sorted OrderedTypeEx.

(** What a function writes to its output file: the arguments of its calls
    of [o.write], in their order.  The file holds their concatenation, also
    when an exception ends the call. *)
Abbreviation writes := (list string).

(** ["\t".join(cols)]. *)
Definition tab_join (cols : list string) : string :=
  String.concat (String "009" "") cols.

(** [SortedSet.add]: the samples are kept in the order of [<] on [str],
    which compares code points. *)
Fixpoint sorted_add (x : string) (l : list string) : list string :=
  match l with
  | [] => [x]
  | y :: l' =>
      match String.compare x y with
      | Lt => x :: l
      | Eq => l
      | Gt => y :: sorted_add x l'
      end
  end.

Section Mutations.

Variable isdigit : string -> bool.

(** [os.linesep]. *)
Variable linesep : string.

Variable gene_ids : gmap string string.

(** *** load_subset_ids *)

(** The header of the gene list, with its quotation marks. *)
Definition quoted_entrez_id : string :=
  String "034" ("ENTREZ.ID" ++ String "034" "").

(** The loop of [load_subset_ids] over the lines of [id_file]. *)
Fixpoint subset_lines (alt_gene_ids : option (gmap string string))
    (lines : list string) (subset_ids : list string) (header_written : bool)
    (o : writes) : writes * outcome (list string) :=
  match lines with
  | [] => (o, Returns subset_ids)
  | line :: lines' =>
      let line := Str.strip_line_ending line in
      let found : outcome (option string) :=
        if isdigit line then Returns (Some line)
        else
          let hugo_name := line in
          match gene_ids !! hugo_name with
          | Some entrez_id => Returns (Some entrez_id)
          | None =>
              match alt_gene_ids with
              | None => Raises NoneMembership
              | Some alt_gene_ids => Returns (alt_gene_ids !! hugo_name)
              end
          end in
      match found with
      | Raises f => (o, Raises f)
      | Returns None => subset_lines alt_gene_ids lines' subset_ids header_written o
      | Returns (Some entrez_id) =>
          let subset_ids := subset_ids ++ [entrez_id] in
          let o :=
            if header_written then o
            else o ++ [(quoted_entrez_id ++ linesep)%string] in
          let o := o ++ [entrez_id; linesep] in
          subset_lines alt_gene_ids lines' subset_ids true o
      end
  end.

(** [load_subset_ids], on the lines of [id_file]: what it writes to
    [out_gene_list], and its outcome. *)
Definition load_subset_ids (id_file : list string)
    (alt_gene_ids : option (gmap string string))
    : writes * outcome (gset string) :=
  let '(o, r) := subset_lines alt_gene_ids id_file [] false [] in
  (o, subset_ids ← r; Returns (list_to_set subset_ids)).

(** *** generate_mut_flat *)

Definition non_syn : list string :=
  ["In_Frame_Del"; "In_Frame_Ins"; "Missense_Mutation"]%string.
Definition trunc_mut : list string :=
  ["Frame_Shift_Del"; "Frame_Shift_Ins"; "Nonsense_Mutation"; "Nonstop_Mutation";
   "Splice_Site"; "Translation_Start_Site"]%string.
Definition synon_mut : list string :=
  ["Silent"; "5'UTR"; "5'Flank"; "Intron"; "3'UTR"]%string.

Definition maf_required_cols : list string :=
  ["Hugo_Symbol"; "Variant_Classification"; "Tumor_Sample_Barcode"]%string.
Definition maf_optional_cols : list string :=
  ["NCBI_Build"; "Start_Position"; "Tumor_Seq_Allele2"]%string.

(** The variables of [generate_mut_flat] that live across the lines of the
    file ([genes_seen] and [skipped_mut] only choose the warnings logged at
    the end, and are left out). *)
Record maf_state : Type := mkMaf {
  header_cols : gmap string nat;
  out_header_cols : list string;
  out_header_written : bool;
  sample_list : list string
}.

Definition maf_init : maf_state :=
  {| header_cols := ∅;
     out_header_cols := ["Sample"; "ENTREZ.ID"; "Type"]%string;
     out_header_written := false;
     sample_list := [] |}.

(** The loop over the columns of the header. *)
Fixpoint maf_header_cols (cols : list string) (j : nat)
    (header_cols : gmap string nat) : gmap string nat :=
  match cols with
  | [] => header_cols
  | col :: cols' =>
      maf_header_cols cols' (S j)
        (if bool_decide (col ∈ maf_required_cols) then <[col := j]> header_cols
         else if bool_decide (col ∈ maf_optional_cols) then <[col := j]> header_cols
         else header_cols)
  end.

(** The header line. *)
Definition maf_header (cols : list string) (st : maf_state) : outcome maf_state :=
  let header_cols := maf_header_cols cols 0 (header_cols st) in
  match missing_column maf_required_cols header_cols with
  | Some col => Raises (MissingColumn col)
  | None =>
      Returns
        {| header_cols := header_cols;
           out_header_cols :=
             if bool_decide (is_Some (header_cols !! "Start_Position"%string))
             then out_header_cols st ++ ["Location"%string]
             else out_header_cols st;
           out_header_written := out_header_written st;
           sample_list := sample_list st |}
  end.

(** The type of a variant, or [None] for a classification that is
    ignored. *)
Definition variant_type (classification : string) : option string :=
  if bool_decide (classification ∈ trunc_mut) then Some "TRUNC"%string
  else if bool_decide (classification ∈ non_syn) then Some "MUTATION"%string
  else if bool_decide (classification ∈ synon_mut) then Some "Synon"%string
  else None.

(** A line of mutation, up to the choice of its type: the sample, the
    Entrez id, the type and the position of the variant, or [None] where
    the line is skipped. *)
Definition maf_variant (alt_gene_ids : gmap string string) (i : nat)
    (cols : list string) (st : maf_state)
    : outcome (option (string * string * string * option string)) :=
  mut_attributes ←
    match attributes (header_cols st) cols with
    | Some mut_attributes => Returns mut_attributes
    | None => Raises (Escaped IndexError)
    end;
  let unsupported :=
    match mut_attributes !! "NCBI_Build"%string,
          mut_attributes !! "Start_Position"%string with
    | Some build, Some _ => negb (String.eqb build "GRCh37")
    | _, _ => false
    end in
  if unsupported then Raises UnsupportedBuild
  else
    sample_name ← uncaught (getitem mut_attributes "Tumor_Sample_Barcode");
    if String.eqb sample_name "" || String.eqb sample_name "."
    then Raises (NoSampleBarcode i)
    else
      hugo_name ← uncaught (getitem mut_attributes "Hugo_Symbol");
      if String.eqb hugo_name "Unknown" then Returns None
      else
        let found :=
          match gene_ids !! hugo_name with
          | Some entrez_id => Some entrez_id
          | None => alt_gene_ids !! hugo_name
          end in
        match found with
        | None => Returns None
        | Some entrez_id =>
            let position := mut_attributes !! "Start_Position"%string in
            classification ←
              uncaught (getitem mut_attributes "Variant_Classification");
            match variant_type classification with
            | None => Returns None
            | Some type =>
                type ←
                  (if String.eqb hugo_name "MYD88" &&
                      bool_decide
                        (is_Some (mut_attributes !! "Tumor_Seq_Allele2"%string))
                   then
                     start ← uncaught (getitem mut_attributes "Start_Position");
                     if String.eqb start "38182641" then
                       allele ←
                         uncaught (getitem mut_attributes "Tumor_Seq_Allele2");
                       Returns (if String.eqb allele "C" then "L265P"%string
                                else type)
                     else Returns type
                   else Returns type);
                Returns (Some (sample_name, entrez_id, type, position))
            end
        end.

(** The end of the body of the loop, from [if sample_name not in
    sample_list]. *)
Definition maf_write (subset_ids : option (gset string))
    (variant : string * string * string * option string)
    (st : maf_state) (o : writes) : writes * outcome maf_state :=
  let '(sample_name, entrez_id, type, position) := variant in
  let st :=
    if bool_decide (sample_name ∈ sample_list st) then st
    else {| header_cols := header_cols st;
            out_header_cols := out_header_cols st;
            out_header_written := out_header_written st;
            sample_list := sorted_add sample_name (sample_list st) |} in
  let skipped :=
    match subset_ids with
    | Some subset_ids => negb (bool_decide (entrez_id ∈ subset_ids))
    | None => false
    end in
  if skipped then (o, Returns st)
  else
    let '(st, o) :=
      if out_header_written st then (st, o)
      else ({| header_cols := header_cols st;
               out_header_cols := out_header_cols st;
               out_header_written := true;
               sample_list := sample_list st |},
            o ++ [tab_join (out_header_cols st); linesep]) in
    match position with
    | None => (o, Raises NoneConcat)
    | Some position =>
        let out_line :=
          [sample_name; entrez_id; type; (position ++ linesep)%string] in
        (o ++ [tab_join out_line], Returns st)
    end.

(** The body of the loop of [generate_mut_flat]. *)
Definition maf_line (alt_gene_ids : gmap string string)
    (subset_ids : option (gset string)) (i : nat) (line : string)
    (st : maf_state) (o : writes) : writes * outcome maf_state :=
  match line with
  | EmptyString => (o, Raises (Escaped IndexError))
  | String first _ =>
      if Ascii.eqb first "#" then (o, Returns st)
      else
        let line := Str.strip_line_ending line in
        let cols := Str.split "009" line in
        if Str.is_empty line then (o, Returns st)
        else if bool_decide (header_cols st = ∅) then (o, maf_header cols st)
        else
          match maf_variant alt_gene_ids i cols st with
          | Raises f => (o, Raises f)
          | Returns None => (o, Returns st)
          | Returns (Some variant) => maf_write subset_ids variant st o
          end
  end.

Fixpoint maf_lines (alt_gene_ids : gmap string string)
    (subset_ids : option (gset string)) (lines : list string) (i : nat)
    (st : maf_state) (o : writes) : writes * outcome maf_state :=
  match lines with
  | [] => (o, Returns st)
  | line :: lines' =>
      let i := S i in
      match maf_line alt_gene_ids subset_ids i line st o with
      | (o, Returns st) => maf_lines alt_gene_ids subset_ids lines' i st o
      | (o, Raises f) => (o, Raises f)
      end
  end.

(** [generate_mut_flat], on the lines of [in_maf]: what it writes to
    [out_mut_flat], and its outcome. *)
Definition generate_mut_flat (in_maf : list string)
    (alt_gene_ids : option (gmap string string))
    (subset_ids : option (gset string)) : writes * outcome (list string) :=
  let alt_gene_ids := default ∅ alt_gene_ids in
  let '(o, r) := maf_lines alt_gene_ids subset_ids in_maf 0 maf_init [] in
  (o, st ← r; Returns (sample_list st)).

End Mutations.
(** ** Consolidated partitions *)

(** One row of the three parallel lists. *)
Record Seg : Type := mkSeg { seg_start : Z; seg_end : Z; seg_cn : Z }.

Definition unzip (L : list Seg) : segs :=
  (seg_start <$> L, seg_end <$> L, seg_cn <$> L).

(** [partition_from lo L]: the rows of [L] are non-empty intervals, in
    ascending order, none starting before [lo] nor before the end of its
    predecessor. *)
Fixpoint partition_from (lo : Z) (L : list Seg) : Prop :=
  match L with
  | [] => True
  | x :: L' =>
      lo <= seg_start x /\ seg_start x < seg_end x /\ partition_from (seg_end x) L'
  end.

Definition last_end (lo : Z) (L : list Seg) : Z :=
  foldl (fun _ x => seg_end x) lo L.

Definition before (s : Z) (x : Seg) : Prop := seg_end x <= s.
Definition after (e : Z) (x : Seg) : Prop := e <= seg_start x.
Definition across (s e : Z) (x : Seg) : Prop := s < seg_end x /\ seg_start x < e.
Definition proper (x : Seg) : Prop := seg_start x < seg_end x.

(** ** The consolidator on partitions *)

(** The call of [merge_fuel] on the three columns of [L]. *)
Definition merge_on (fuel : nat) (L : list Seg) (s e c : Z) : result segs :=
  merge_fuel fuel (seg_start <$> L) (seg_end <$> L) (seg_cn <$> L) s e c.

(** The piece of [x] lying before [s], when it is non-empty. *)
Definition cut_left (x : Seg) (s : Z) : list Seg :=
  if seg_start x <? s then [mkSeg (seg_start x) s (seg_cn x)] else [].

(** The piece of [x] lying from [e] on, when it is non-empty. *)
Definition cut_right (x : Seg) (e : Z) : list Seg :=
  if e <? seg_end x then [mkSeg e (seg_end x) (seg_cn x)] else [].

(** What is left of [x] outside the window [s, e). *)
Definition truncate (x : Seg) (s e : Z) : list Seg :=
  cut_left x s ++ cut_right x e.

Ltac split_Forall :=
  repeat match goal with
    | H : Forall _ (_ ++ _) |- _ => apply Forall_app in H; destruct H
    | H : Forall _ (_ :: _) |- _ => apply Forall_cons in H; destruct H
    | H : Forall _ [] |- _ => clear H
    end.

Ltac pointwise :=
  split_Forall;
  repeat first
    [ apply Forall_nil_2
    | apply Forall_app; split
    | apply Forall_cons; split ];
  try (apply Forall_forall; intros ? ?;
       repeat match goal with
         | H : Forall _ ?l, Hx : _ ∈ ?l |- _ =>
             apply (proj1 (Forall_forall _ _) H _) in Hx as ?; clear H
         end);
  unfold before, after, across, proper in *;
  cbn [seg_start seg_end seg_cn] in *; try lia.


(** ** The invariant of a stored chromosome *)

Definition sorted_by_start (ss : list Z) : Prop :=
  forall (i j : nat) (a b : Z),
    (i < j)%nat -> ss !! i = Some a -> ss !! j = Some b -> a <= b.

Definition non_overlapping (ss es : list Z) : Prop :=
  forall (i : nat) (e s' : Z),
    es !! i = Some e -> ss !! (S i) = Some s' -> e <= s'.

Definition non_empty_segments (ss es : list Z) : Prop :=
  forall (i : nat) (s e : Z), ss !! i = Some s -> es !! i = Some e -> s < e.

Definition consolidated (ss es cs : list Z) : Prop :=
  length es = length ss /\ length cs = length ss /\
  sorted_by_start ss /\ non_overlapping ss es /\ non_empty_segments ss es.

(** The invariant of a [SampleCNVs] object: the four dictionaries have the
    same keys and every chromosome stores the columns of a partition. *)
Definition wf_chrom (self : SampleCNVs) (chrom : string) : Prop :=
  match len_seg self !! chrom with
  | None =>
      starts self !! chrom = None /\ ends self !! chrom = None /\
      cn_states self !! chrom = None
  | Some _ =>
      exists L lo,
        starts self !! chrom = Some (seg_start <$> L) /\
        ends self !! chrom = Some (seg_end <$> L) /\
        cn_states self !! chrom = Some (seg_cn <$> L) /\
        partition_from lo L
  end.

Definition wf_sample (self : SampleCNVs) : Prop :=
  forall chrom, wf_chrom self chrom.

(** A call of [add] with a non-empty interval. *)
Definition call_valid (call : string * Z * Z * Z) : Prop :=
  let '(_, start, end_, _) := call in start < end_.






(** The three columns stored for one chromosome. *)
Definition columns (self : SampleCNVs) (chrom : string)
    : option (list Z) * option (list Z) * option (list Z) :=
  (starts self !! chrom, ends self !! chrom, cn_states self !! chrom).

(** ** Vocabulary of the gene overlap annotator *)

(** The genes the annotator scans for a segment on [chrom]. *)
Definition genes_scanned (chrom : string) (gene_cords : odict (odict Gene.t))
    : odict Gene.t :=
  match gene_cords with
  | [] => []
  | (first_key, _) :: _ =>
      default [] (odict_get gene_cords
                    (match_prefix (Py.startswith_chr first_key) chrom))
  end.

Definition intersects (start end_ : Z) (g : Gene.t) : Prop :=
  start < Gene.end_ g /\ Gene.start g < end_.

Definition contained (start end_ : Z) (g : Gene.t) : Prop :=
  start <= Gene.start g /\ Gene.end_ g <= end_.

(** The policy: any intersection under a loss, full containment under a
    gain. *)
Definition disrupted (start end_ cn : Z) (g : Gene.t) : Prop :=
  intersects start end_ g /\ (cn < 2 \/ (2 < cn /\ contained start end_ g)).

Definition disruptedb (start end_ cn : Z) (g : Gene.t) : bool :=
  (start <? Gene.end_ g) && (Gene.start g <? end_) &&
  ((cn <? 2) || ((2 <? cn) && (start <=? Gene.start g) && (Gene.end_ g <=? end_))).

(** The call returns a list holding [id]. *)
Definition reports (r : result (list string)) (id : string) : Prop :=
  exists l, r = Ok l /\ id ∈ l.

(** The reading of the neutral-state failure that ignores the scan: every
    call on a neutral segment is rejected. *)
Definition neutral_always_rejected : Prop :=
  forall chrom start end_ gene_cords,
    get_overlap_genes chrom start end_ 2 gene_cords = Raise InvalidCNState.

(** ** Vocabulary of the ploidy normaliser *)

(** The length of the intersection of the segment [start, end) with the
    window [lo, hi). *)
Definition overlap (start end_ lo hi : Z) : Z :=
  Z.max 0 (Z.min end_ hi - Z.max start lo).

(** Both windows of a chromosome are known, each is well oriented, and
    neither reaches past the end of the q window nor starts before the p
    window. *)
Definition arm_ordered (c : Chromosome.t) : Prop :=
  exists ps pe qs qe,
    Chromosome.p_start c = Some ps /\ Chromosome.p_end c = Some pe /\
    Chromosome.q_start c = Some qs /\ Chromosome.q_end c = Some qe /\
    ps <= pe /\ pe <= qe /\ ps <= qs /\ qs <= qe.

(** The overlap of a segment with the p window plus its overlap with the
    q window. *)
Definition arm_overlap (c : Chromosome.t) (start end_ : Z) : Z :=
  overlap start end_
    (default 0 (Chromosome.p_start c)) (default 0 (Chromosome.p_end c)) +
  overlap start end_
    (default 0 (Chromosome.q_start c)) (default 0 (Chromosome.q_end c)).

(** The segments the sample stores under a name. *)
Definition rows_of (self : SampleCNVs) (chrom_name : string) : list (Z * Z * Z) :=
  match starts self !! chrom_name, ends self !! chrom_name,
        cn_states self !! chrom_name with
  | Some ss, Some es, Some cs => zip3 ss es cs
  | _, _, _ => []
  end.

(** What the normaliser reads of a chromosome of the arm table.  With a q
    arm, the two windows are ordered, an unset p arm standing as its
    placeholder.  Without a q arm, the placeholder of that arm ends the
    chromosome at -100000, and the segments stored for the chromosome start
    after that position. *)
Definition arm_counted (self : SampleCNVs) (c : Chromosome.t) : Prop :=
  match Chromosome.q_start c with
  | Some _ => arm_ordered (fill_placeholder c)
  | None =>
      Forall (fun row : Z * Z * Z => -100000 < row.1.1)
        (rows_of self (sample_chrom_name self (Chromosome.chrom c)))
  end.

(** The sum, over the chromosomes of the arm table that have a q arm and
    the segments stored for them, of [weight cn * overlap length], an unset
    p arm standing as its placeholder.  A chromosome without q arm counts
    nothing: the placeholder of that arm puts its segments out of range. *)
Definition weighted_overlap (weight : Z -> Z) (self : SampleCNVs)
    (arm_coords : odict Chromosome.t) : Z :=
  foldr (fun kc acc =>
           let c := fill_placeholder kc.2 in
           match Chromosome.q_start kc.2 with
           | Some _ =>
               foldr (fun row acc' =>
                        let '(start, end_, cn) := row in
                        weight cn * arm_overlap c start end_ + acc')
                 0 (rows_of self (sample_chrom_name self (Chromosome.chrom c)))
           | None => 0
           end + acc)
    0 arm_coords.

(** The sum of the arm lengths of the table, an unset arm counting 1. *)
Definition genome_length (arm_coords : odict Chromosome.t) : Z :=
  foldr (fun kc acc =>
           let c := fill_placeholder kc.2 in
           Chromosome.p_length c + Chromosome.q_length c + acc)
    0 arm_coords.

(** The ploidy rule for a given denominator: on a consolidated sample whose
    ploidy is still to be computed, and an arm table the normaliser can
    read, the call caches the rounded quotient of the
    copy-number-weighted overlap by the denominator, or raises when that
    value is below 1.  The weighted overlap stays below [2^52], where the
    binary64 quotient that the code rounds and the exact quotient round
    alike. *)
Definition ploidy_rule
    (denominator : SampleCNVs -> odict Chromosome.t -> Z) : Prop :=
  forall self arm_coords sample_name redo,
    wf_sample self ->
    Forall (fun kc => arm_counted self kc.2) arm_coords ->
    ploidy self = None \/ redo = true ->
    denominator self arm_coords <> 0 ->
    Z.abs (weighted_overlap id self arm_coords) < 2 ^ 52 ->
    let av := round_div (weighted_overlap id self arm_coords)
                (denominator self arm_coords) in
    let '(_, self', outcome) := adjust_ploidy self arm_coords sample_name redo in
    if av <? 1 then outcome = Raise InvalidPloidy
    else outcome = Ok tt /\ ploidy self' = Some av.

(** A genome of size 100 on one chromosome: p arm [0, 50), q arm [50, 100). *)
Definition chromosome100 : Chromosome.t :=
  {| Chromosome.chrom := "1"; Chromosome.p_start := Some 0;
     Chromosome.p_end := Some 50; Chromosome.q_start := Some 50;
     Chromosome.q_end := Some 100; Chromosome.q_length := 50;
     Chromosome.p_length := 50 |}.

Definition genome100 : odict Chromosome.t := [("1"%string, chromosome100)].

(** The same genome with a second chromosome, known by its p arm [0, 50)
    only. *)
Definition genome100_p : odict Chromosome.t :=
  [("1"%string, chromosome100);
   ("2"%string,
    {| Chromosome.chrom := "2"; Chromosome.p_start := Some 0;
       Chromosome.p_end := Some 50; Chromosome.q_start := None;
       Chromosome.q_end := None; Chromosome.q_length := 0;
       Chromosome.p_length := 50 |})].

(** ** The core and its tables *)

(** What the operations of the core can reach when the driver
    [generate_cnv_files] invokes them: the arm table and the gene table it
    loaded, and the sample at hand. *)
Record Core : Type := mkCore {
  arm_table : odict Chromosome.t;
  gene_table : odict (odict Gene.t);
  profile : SampleCNVs
}.

(** The three calls of the driver: [cnvs.adjust_ploidy(arm_coods, sample)],
    [cnvs.overlap_chrom(chrom_info)] for the entry of the arm table at a
    position, and [get_overlap_genes(chrom, start, end, cn, gene_coords)]. *)
Inductive call : Type :=
| Normalize (sample_name : string) (redo : bool)
| Classify (position : nat) (threshold : Q)
| FocalGenes (chrom : string) (start end_ cn : Z).

Inductive output : Type :=
| Done
| Events (events : gmap string event)
| Genes (ids : list string)
| Failed (ex : exn).

Definition run (c : call) (w : Core) : Core * output :=
  match c with
  | Normalize sample_name redo =>
      let '(arm_coords, self, outcome) :=
        adjust_ploidy (profile w) (arm_table w) sample_name redo in
      ({| arm_table := arm_coords; gene_table := gene_table w; profile := self |},
       match outcome with Ok _ => Done | Raise ex => Failed ex end)
  | Classify position threshold =>
      (w,
       match arm_table w !! position with
       | None => Failed KeyError
       | Some (_, chromosome) =>
           match overlap_chrom (profile w) chromosome threshold with
           | Ok events => Events events
           | Raise ex => Failed ex
           end
       end)
  | FocalGenes chrom start end_ cn =>
      (w,
       match get_overlap_genes chrom start end_ cn (gene_table w) with
       | Ok ids => Genes ids
       | Raise ex => Failed ex
       end)
  end.



(** ** Vocabulary of the classifier *)

Definition is_gain_label (e : event) : bool :=
  match e with AMP | GAIN => true | _ => false end.

Definition is_loss_label (e : event) : bool :=
  match e with HOMDEL | HETLOSS => true | _ => false end.

(** The entries of [events] written by one family. *)
Definition gain_labels (events : gmap string event) : gmap string event :=
  filter (fun kv => is_gain_label kv.2 = true) events.

Definition loss_labels (events : gmap string event) : gmap string event :=
  filter (fun kv => is_loss_label kv.2 = true) events.

(** The sums with those of one family set to zero. *)
Definition no_gain (sums : overlap_sums) : overlap_sums :=
  {| homdel_sum := homdel_sum sums; del_sum := del_sum sums;
     gain_sum := mkArmSums 0 0 0; amp_sum := mkArmSums 0 0 0 |}.

Definition no_loss (sums : overlap_sums) : overlap_sums :=
  {| homdel_sum := mkArmSums 0 0 0; del_sum := mkArmSums 0 0 0;
     gain_sum := gain_sum sums; amp_sum := amp_sum sums |}.

#[global] Instance result_fmap : FMap result := fun A B f r =>
  match r with
  | Ok a => Ok (f a)
  | Raise ex => Raise ex
  end.

(** The arm lengths are positive and no shorter than the windows. *)
Definition arm_sized (c : Chromosome.t) : Prop :=
  0 < Chromosome.p_length c /\ 0 < Chromosome.q_length c /\
  (forall ps pe, Chromosome.p_start c = Some ps -> Chromosome.p_end c = Some pe ->
                 pe - ps <= Chromosome.p_length c) /\
  (forall qs qe, Chromosome.q_start c = Some qs -> Chromosome.q_end c = Some qe ->
                 qe - qs <= Chromosome.q_length c).

(** Independence of the two families for the thresholds that are
    [admissible]: the labels of each family are those obtained when the
    sums of the other family are zero. *)
Definition families_independent (admissible : Q -> Prop) : Prop :=
  forall self chromosome threshold,
    wf_sample self -> arm_ordered chromosome -> arm_sized chromosome ->
    admissible threshold ->
    loss_labels <$> overlap_chrom self chromosome threshold
    = loss_labels <$> overlap_chrom_with no_gain self chromosome threshold /\
    gain_labels <$> overlap_chrom self chromosome threshold
    = gain_labels <$> overlap_chrom_with no_loss self chromosome threshold.

(** ** Inputs of the worked examples *)

(** A chromosome with two arms of 1000 bases. *)
Definition two_arms : Chromosome.t :=
  {| Chromosome.chrom := "1"; Chromosome.p_start := Some 0;
     Chromosome.p_end := Some 1000; Chromosome.q_start := Some 1000;
     Chromosome.q_end := Some 2000; Chromosome.q_length := 1000;
     Chromosome.p_length := 1000 |}.

(** A gene table with one gene at [1000, 2000) on chromosome 1. *)
Definition one_gene : odict (odict Gene.t) :=
  [("1"%string, [("7157"%string, Gene.mk "7157" "1" 1000 2000)])].

(** An arm table knowing chromosome 13 by its q arm only, and a sample
    with one neutral segment over that arm. *)
Definition acrocentric : odict Chromosome.t :=
  [("13"%string,
    {| Chromosome.chrom := "13"; Chromosome.p_start := None;
       Chromosome.p_end := None; Chromosome.q_start := Some 17900000;
       Chromosome.q_end := Some 115169878; Chromosome.q_length := 97269878;
       Chromosome.p_length := 0 |})].

Definition neutral_13 : SampleCNVs :=
  {| starts := {[ "13"%string := [17900000] ]};
     ends := {[ "13"%string := [115169878] ]};
     cn_states := {[ "13"%string := [2] ]};
     len_seg := {[ "13"%string := 1%nat ]};
     is_chr_prefixed := Some false;
     ploidy := None |}.

(** ** Auxiliary notions of the proofs *)

(** The statement proved for every run [mid] of stored segments met by
    the incoming one: the call returns, rewrites only that run, and the
    outcome is again a partition. *)
Definition merge_ok (mid : list Seg) : Prop :=
  forall fuel pre post lo s e c,
    (length mid < fuel)%nat ->
    partition_from lo (pre ++ mid ++ post) ->
    Forall (before s) pre -> Forall (across s e) mid -> Forall (after e) post ->
    lo <= s -> s < e ->
    exists mid',
      merge_on fuel (pre ++ mid ++ post) s e c = Ok (unzip (pre ++ mid' ++ post)) /\
      partition_from lo (pre ++ mid' ++ post).

(** The sum [x] computed from the dictionary of covered bases. *)
Definition weigh (ploidy_cov : gmap Z Z) : Z :=
  map_fold (fun cn bases x => x + cn * bases) 0 ploidy_cov.

Definition row_proper (row : Z * Z * Z) : Prop :=
  let '(start, end_, _) := row in start < end_.

(** The part of the window [ws, we) lying before [lo]. *)
Definition covered (ws we lo : Z) : Z := Z.max 0 (Z.min lo we - ws).

(** The invariant of the loop: tiers are nested and non-negative, and on
    each key the gain and loss sums together fit in the part of the window
    already passed. *)
Definition fits (gain amp del homdel room : Z) : Prop :=
  0 <= amp <= gain /\ 0 <= homdel <= del /\ gain + del <= room.

Definition tally_inv (roomp roomq : Z) (sums : overlap_sums) : Prop :=
  fits (at_p (gain_sum sums)) (at_p (amp_sum sums))
       (at_p (del_sum sums)) (at_p (homdel_sum sums)) roomp /\
  fits (at_q (gain_sum sums)) (at_q (amp_sum sums))
       (at_q (del_sum sums)) (at_q (homdel_sum sums)) roomq /\
  fits (at_Chrom (gain_sum sums)) (at_Chrom (amp_sum sums))
       (at_Chrom (del_sum sums)) (at_Chrom (homdel_sum sums)) (roomp + roomq).

(** The content of [events] at the keys of one chromosome. *)
Record slots : Type := mkSlots {
  slot_Chrom : option event;
  slot_p : option event;
  slot_q : option event
}.

Definition put (key : string) (o : option event) (m : gmap string event)
    : gmap string event :=
  match o with
  | Some v => <[key := v]> m
  | None => m
  end.

Definition to_events (name : string) (s : slots) : gmap string event :=
  put (name ++ "q") (slot_q s)
    (put (name ++ "p") (slot_p s) (put (name ++ "Chrom") (slot_Chrom s) ∅)).

Definition keep (f : event -> bool) (o : option event) : option event :=
  match o with
  | Some v => if f v then Some v else None
  | None => None
  end.

Definition free (o : option event) : bool :=
  match o with None => true | Some _ => false end.

(** One family, on the three keys: [hC hp hq] tell where the stronger tier
    crosses the threshold, [lC lp lq] where the weaker one does. *)
Definition family_slots (hC hp hq lC lp lq : bool) (HIGH LOW : event)
    (s : slots) : slots :=
  if hC then mkSlots (Some HIGH) (slot_p s) (slot_q s)
  else
    let s :=
      if hp then mkSlots (slot_Chrom s) (Some HIGH) (slot_q s)
      else if hq then mkSlots (slot_Chrom s) (slot_p s) (Some HIGH)
      else s in
    if free (slot_Chrom s) && lC then mkSlots (Some LOW) (slot_p s) (slot_q s)
    else
      let s :=
        if free (slot_p s) && lp then mkSlots (slot_Chrom s) (Some LOW) (slot_q s)
        else s in
      if free (slot_q s) && lq then mkSlots (slot_Chrom s) (slot_p s) (Some LOW)
      else s.

Definition crosses (t : Q) (covered length : Z) : bool :=
  Qnum t * length <? covered * Zpos (Qden t).

Definition classify_slots (gC gp gq aC ap aq dC dp dq hC hp hq : bool) : slots :=
  family_slots hC hp hq dC dp dq HOMDEL HETLOSS
    (family_slots aC ap aq gC gp gq AMP GAIN (mkSlots None None None)).

Definition keep_all (f : event -> bool) (s : slots) : slots :=
  mkSlots (keep f (slot_Chrom s)) (keep f (slot_p s)) (keep f (slot_q s)).

(** No key on which a tier of each family crosses the threshold. *)
Definition apart (gC gp gq aC ap aq dC dp dq hC hp hq : bool) : bool :=
  negb ((gC || aC) && (dC || hC)) && negb ((gp || ap) && (dp || hp)) &&
  negb ((gq || aq) && (dq || hq)).
(** ** The footprint of a chromosome *)

(** The state stored at position [x] of a chromosome: that of the first
    stored segment [start, end) holding [x]. *)
Definition cn_at (self : SampleCNVs) (chrom : string) (x : Z) : option Z :=
  snd <$> List.find (fun row : Z * Z * Z => (row.1.1 <=? x) && (x <? row.1.2))
            (rows_of self chrom).

(** The same on a list of rows. *)
Definition state_at (L : list Seg) (x : Z) : option Z :=
  seg_cn <$> List.find (fun g => (seg_start g <=? x) && (x <? seg_end g)) L.

(** Position [x] lies in a segment of [L] with state [v]. *)
Definition covers (L : list Seg) (x v : Z) : Prop :=
  exists g, g ∈ L /\ seg_start g <= x < seg_end g /\ seg_cn g = v.

(** Two states of one family: both on the loss side of the neutral state
    2, or both on the gain side; the neutral state belongs to both. *)
Definition same_family (c oc : Z) : Prop :=
  (c <= 2 /\ oc <= 2) \/ (2 <= c /\ 2 <= oc).

(** The state [oc] lies further from the neutral state than [c]. *)
Definition outranks (oc c : Z) : bool := Z.abs (c - 2) <? Z.abs (oc - 2).

(** How an insertion of [s, e) with state [c] may change a list: nothing
    changes outside the window; inside it every position is covered, by
    the incoming state or by the state it had, and where the two states
    are of one family the one further from the neutral state is kept. *)
Definition traced (L L' : list Seg) (s e c : Z) : Prop :=
  forall x,
    (forall v, covers L' x v -> covers L x v \/ (s <= x < e /\ v = c)) /\
    (forall v, covers L x v -> ~ (s <= x < e) -> covers L' x v) /\
    (s <= x < e -> exists v, covers L' x v) /\
    (forall v, covers L x v -> s <= x < e -> same_family c v ->
       covers L' x (if outranks v c then v else c)).

Definition merge_traced (mid : list Seg) : Prop :=
  forall fuel pre post lo s e c,
    (length mid < fuel)%nat ->
    partition_from lo (pre ++ mid ++ post) ->
    Forall (before s) pre -> Forall (across s e) mid -> Forall (after e) post ->
    lo <= s -> s < e ->
    exists mid',
      merge_on fuel (pre ++ mid ++ post) s e c = Ok (unzip (pre ++ mid' ++ post)) /\
      partition_from lo (pre ++ mid' ++ post) /\
      traced mid mid' s e c.

(** The calls of a stream that reach position [x] of chromosome [k]. *)
Definition reaches (k : string) (x : Z) (call : string * Z * Z * Z) : Prop :=
  let '(chrom, start, end_, _) := call in
  Py.replace_chr chrom = k /\ start <= x < end_.

(** ** Vocabulary of the arm table *)

(** An arm has both of its ends or none, and the length that goes with
    them. *)
Definition arm_paired (start end_ : option Z) (length : Z) : Prop :=
  match start, end_ with
  | Some s, Some e => length = e - s
  | None, None => length = 0
  | _, _ => False
  end.

Definition arms_paired (c : Chromosome.t) : Prop :=
  arm_paired (Chromosome.p_start c) (Chromosome.p_end c) (Chromosome.p_length c) /\
  arm_paired (Chromosome.q_start c) (Chromosome.q_end c) (Chromosome.q_length c).

(** The q arm does not start before the end of the p arm. *)
Definition arms_apart (c : Chromosome.t) : Prop :=
  forall pe qs,
    Chromosome.p_end c = Some pe -> Chromosome.q_start c = Some qs -> pe <= qs.

(** The number of arms assigned. *)
Definition arms_count (c : Chromosome.t) : nat :=
  (match Chromosome.p_start c with Some _ => 1 | None => 0 end +
   match Chromosome.q_start c with Some _ => 1 | None => 0 end)%nat.

(** An entry of a loaded arm table. *)
Definition arm_entry_ok (kc : string * Chromosome.t) : Prop :=
  Chromosome.chrom kc.2 = kc.1 /\ arms_paired kc.2 /\ arms_apart kc.2 /\
  (0 < arms_count kc.2)%nat.

(** The four coordinates of the two windows are set. *)
Definition windows_known (c : Chromosome.t) : Prop :=
  is_Some (Chromosome.p_start c) /\ is_Some (Chromosome.p_end c) /\
  is_Some (Chromosome.q_start c) /\ is_Some (Chromosome.q_end c).

(** ** Vocabulary of the labels *)

(** The copy-number states a label stands for. *)
Definition tier (label : event) (cn : Z) : bool :=
  match label with
  | AMP => 3 <? cn
  | GAIN => 2 <? cn
  | HOMDEL => cn <? 1
  | HETLOSS => cn <? 2
  end.

(** The number of bases of the window [lo, hi) lying in segments of the
    tier of [label]. *)
Definition tier_overlap (label : event) (rows : list (Z * Z * Z)) (lo hi : Z) : Z :=
  foldr (fun row acc =>
           (if tier label row.2 then overlap row.1.1 row.1.2 lo hi else 0) + acc)
    0 rows.

(** The sums kept for a label. *)
Definition pick (label : event) (sums : overlap_sums) : arm_sums :=
  match label with
  | AMP => amp_sum sums
  | GAIN => gain_sum sums
  | HOMDEL => homdel_sum sums
  | HETLOSS => del_sum sums
  end.

(** Among the four answers for one key, the one of a label. *)
Definition crossed (label : event) (g a d h : bool) : bool :=
  match label with AMP => a | GAIN => g | HOMDEL => h | HETLOSS => d end.

(** ** Vocabulary of the driver *)

(** The label of a state that is not neutral: the strongest tier it
    belongs to. *)
Definition strongest (cn : Z) : event :=
  if 3 <? cn then AMP else if 2 <? cn then GAIN
  else if cn <? 1 then HOMDEL else HETLOSS.

(** A segment the gene pass looks at: not neutral and shorter than the
    focal threshold. *)
Definition focal (focal_cn_thresh : Z) (row : Z * Z * Z) : Prop :=
  row.2 <> 2 /\ row.1.2 - row.1.1 < focal_cn_thresh.

(** The gene [id] is within the subset asked for. *)
Definition in_subset (subset_ids : option (gset string)) (id : string) : Prop :=
  match subset_ids with
  | Some ids => id ∈ ids
  | None => True
  end.

(** ** Inputs of the worked examples of the loaders and the driver *)

(** A line of a tab-delimited file, from its columns. *)
Definition line_of (cols : list string) : string :=
  (String.concat (String "009" "") cols ++ String "010" "")%string.

(** An instance of [int]: the plain decimal numerals, on which it agrees
    with Python. *)
Fixpoint decimal_digits (s : string) (acc : Z) : option Z :=
  match s with
  | EmptyString => Some acc
  | String a s' =>
      let d := Z.of_nat (nat_of_ascii a) - 48 in
      if (0 <=? d) && (d <=? 9) then decimal_digits s' (10 * acc + d) else None
  end.

Definition decimal (s : string) : option Z :=
  match s with
  | EmptyString => None
  | _ => decimal_digits s 0
  end.

(** An instance of [isdigit], for the same strings. *)
Definition all_digits (s : string) : bool :=
  bool_decide (is_Some (decimal s)).

(** An arm file giving chromosome 13 its q arm only. *)
Definition arm_file_13 : list string :=
  [line_of ["chromosome"; "start"; "end"; "arm"]%string;
   line_of ["chr13"; "17900000"; "115169878"; "q"]%string].

(** An arm file giving chromosome 1 two arms of 1000 bases. *)
Definition arm_file_1 : list string :=
  [line_of ["chromosome"; "start"; "end"; "arm"]%string;
   line_of ["chr1"; "0"; "1000"; "p"]%string;
   line_of ["chr1"; "1000"; "2000"; "q"]%string].

(** Chromosome 1 known by its p arm [0, 1000) only. *)
Definition p_arm_only : Chromosome.t :=
  {| Chromosome.chrom := "1"; Chromosome.p_start := Some 0;
     Chromosome.p_end := Some 1000; Chromosome.q_start := None;
     Chromosome.q_end := None; Chromosome.q_length := 0;
     Chromosome.p_length := 1000 |}.

(** A sample with an amplification over [1000, 1850) of chromosome 1. *)
Definition amplified_1 : SampleCNVs :=
  {| starts := {[ "1"%string := [1000] ]};
     ends := {[ "1"%string := [1850] ]};
     cn_states := {[ "1"%string := [5] ]};
     len_seg := {[ "1"%string := 1%nat ]};
     is_chr_prefixed := Some false;
     ploidy := None |}.

(** The arm table [arm_file_1] stands for. *)
Definition two_arms_table : odict Chromosome.t := [("1"%string, two_arms)].

(** A sample with four copies of the whole of chromosome 1. *)
Definition tetraploid_1 : SampleCNVs :=
  {| starts := {[ "1"%string := [0] ]};
     ends := {[ "1"%string := [2000] ]};
     cn_states := {[ "1"%string := [4] ]};
     len_seg := {[ "1"%string := 1%nat ]};
     is_chr_prefixed := Some false;
     ploidy := None |}.

(** The Entrez id of one gene, and a BED file with two of its exons. *)
Definition ids_tp53 : gmap string string := {[ "TP53"%string := "7157"%string ]}.

Definition bed_file_tp53 : list string :=
  [line_of ["chr1"; "1000"; "1500"; "TP53"]%string;
   line_of ["chr1"; "1400"; "2000"; "TP53"]%string].
(** ** Vocabulary of the gene table *)

(** The gene stored for an Entrez id on a chromosome. *)
Definition gene_at (gene_coords : odict (odict Gene.t)) (chrom entrez_id : string)
    : option Gene.t :=
  genes ← odict_get gene_coords chrom; odict_get genes entrez_id.

(** The genes of one chromosome: there is one at least, each Entrez id
    occurs once, and each gene carries its id and its chromosome. *)
Definition genes_ok (kg : string * odict Gene.t) : Prop :=
  kg.2 <> [] /\ NoDup kg.2.*1 /\
  Forall (fun ig : string * Gene.t =>
            Gene.name ig.2 = ig.1 /\ Gene.chrom ig.2 = kg.1) kg.2.

(** A BED line that yields an entry for a gene; the line number it is read
    at is in the messages of its exceptions only. *)
Definition yields (int : string -> option Z) (isdigit : string -> bool)
    (gene_ids : gmap string string) (alt_gene_ids : option (gmap string string))
    (line chrom : string) (start end_ : Z) (entrez_id : string) : Prop :=
  read_bed_line int isdigit gene_ids alt_gene_ids 0 line
  = Returns (BedGene chrom start end_ entrez_id).

(** The table [t'] is [t] grown by the entries of [lines]: no gene has
    shrunk, every entry of the lines lies within the gene stored for it,
    and the two ends of every stored gene come from [t] or from an entry of
    the lines. *)
Definition grown (yield : string -> string -> Z -> Z -> string -> Prop)
    (t : odict (odict Gene.t)) (lines : list string) (t' : odict (odict Gene.t))
    : Prop :=
  (forall chrom id g,
     gene_at t chrom id = Some g ->
     exists g', gene_at t' chrom id = Some g' /\
       Gene.start g' <= Gene.start g /\ Gene.end_ g <= Gene.end_ g') /\
  (forall line chrom s e id,
     line ∈ lines -> yield line chrom s e id ->
     exists g', gene_at t' chrom id = Some g' /\
       Gene.start g' <= s /\ e <= Gene.end_ g') /\
  (forall chrom id g',
     gene_at t' chrom id = Some g' ->
     ((exists g, gene_at t chrom id = Some g /\ Gene.start g = Gene.start g') \/
      (exists line e, line ∈ lines /\ yield line chrom (Gene.start g') e id)) /\
     ((exists g, gene_at t chrom id = Some g /\ Gene.end_ g = Gene.end_ g') \/
      (exists line s, line ∈ lines /\ yield line chrom s (Gene.end_ g') id))).

(** ** Vocabulary of the Entrez ids *)

(** No two gene names share an id. *)
Definition one_to_one (ids : gmap string string) : Prop :=
  forall n1 n2 id, ids !! n1 = Some id -> ids !! n2 = Some id -> n1 = n2.

(** The ids stored are digit strings, and every id of the alternative
    names is the id of a gene. *)
Definition ids_ok (isdigit : string -> bool) (st : entrez_state) : Prop :=
  (forall n id, hugo_name_to_id st !! n = Some id -> isdigit id = true) /\
  (forall n id, alt_hugo_name_to_id st !! n = Some id ->
     exists n', hugo_name_to_id st !! n' = Some id).

(** The columns of a line of the file. *)
Definition tab_columns (line : string) : list string :=
  Str.split "009"%char (Str.strip_line_ending line).

(** The state after the header line [line] of a file. *)
Definition header_of (hugo_column entrez_column : string)
    (status_column prev_name_column : option string) (line : string)
    : entrez_state :=
  entrez_header hugo_column entrez_column status_column prev_name_column
    (tab_columns line) 0 entrez_init.

(** Under the column numbers of [st], the line gives the gene [name] the id
    [id], and is approved where there is a column for the status. *)
Definition approved_line (st : entrez_state) (line name id : string) : Prop :=
  (exists h, hugo_col_num st = Some h /\ tab_columns line !! h = Some name) /\
  (exists e, entrez_col_num st = Some e /\ tab_columns line !! e = Some id) /\
  (forall k, status_col_num st = Some k ->
     tab_columns line !! k = Some "Approved"%string).

(** An export of gene names with one approved gene, one withdrawn and one
    without id. *)
Definition entrez_file_3 : list string :=
  [line_of ["Approved symbol"; "NCBI Gene ID(supplied by NCBI)"; "Status";
            "Previous symbols"]%string;
   line_of ["TP53"; "7157"; "Approved"; "P53, LFS1"]%string;
   line_of ["OLD1"; "11"; "Entry Withdrawn"; ""]%string;
   line_of ["NOID"; ""; "Approved"; ""]%string].

(** ** Vocabulary of the gene subset *)

(** The gene list written for the ids [l]: nothing for no id, and
    otherwise the header and each id on a line of its own. *)
Definition gene_list (linesep : string) (l : list string) : writes :=
  match l with
  | [] => []
  | _ => [(quoted_entrez_id ++ linesep)%string]
  end ++ (l ≫= fun entrez_id => [entrez_id; linesep]).

(** Where an id of the subset comes from: a line of digits, which is taken
    as it is, or the id of a name in one of the two dictionaries. *)
Definition subset_source (isdigit : string -> bool)
    (gene_ids : gmap string string) (alt_gene_ids : option (gmap string string))
    (id_file : list string) (entrez_id : string) : Prop :=
  exists line, line ∈ id_file /\
    let name := Str.strip_line_ending line in
    (isdigit name = true /\ entrez_id = name) \/
    (isdigit name = false /\ gene_ids !! name = Some entrez_id) \/
    (isdigit name = false /\ gene_ids !! name = None /\
     exists alt, alt_gene_ids = Some alt /\ alt !! name = Some entrez_id).

(** A line that is neither an id nor a name of [gene_ids]. *)
Definition unknown_name (isdigit : string -> bool) (gene_ids : gmap string string)
    (line : string) : Prop :=
  isdigit (Str.strip_line_ending line) = false /\
  gene_ids !! Str.strip_line_ending line = None.

(** A list of three genes: an id, a current name and a previous name. *)
Definition id_file_3 : list string :=
  [line_of ["604"]%string; line_of ["TP53"]%string; line_of ["LFS1"]%string].

(** ** Vocabulary of the mutation file *)

(** The columns of the header of the mutation file, without and with the
    column of the positions. *)
Definition flat_header : list string := ["Sample"; "ENTREZ.ID"; "Type"]%string.
Definition flat_header_located : list string :=
  ["Sample"; "ENTREZ.ID"; "Type"; "Location"]%string.

(** The order of [str]. *)
Definition str_lt (a b : string) : Prop := String.compare a b = Lt.

(** A line of the mutation file: a sample that is [known], the Entrez id
    that one of the dictionaries gives to a gene, within the subset where
    there is one, a type of variant and a position. *)
Definition mut_row (linesep : string) (gene_ids alt_gene_ids : gmap string string)
    (subset_ids : option (gset string)) (known : string -> Prop) (row : string)
    : Prop :=
  exists sample_name entrez_id type position,
    row = tab_join [sample_name; entrez_id; type; (position ++ linesep)%string] /\
    known sample_name /\
    type ∈ ["TRUNC"; "MUTATION"; "Synon"; "L265P"]%string /\
    (exists hugo_name,
       gene_ids !! hugo_name = Some entrez_id \/
       (gene_ids !! hugo_name = None /\
        alt_gene_ids !! hugo_name = Some entrez_id)) /\
    (forall ids, subset_ids = Some ids -> entrez_id ∈ ids).

(** A name that stands for a sample. *)
Definition sample_named (sample_name : string) : Prop :=
  sample_name <> ""%string /\ sample_name <> "."%string.

(** A mutation file: nothing, or the header with the column of the
    positions followed by one line at least. *)
Definition flat_file (linesep : string) (row_ok : string -> Prop) (o : writes)
    : Prop :=
  o = [] \/
  exists row rows,
    o = tab_join flat_header_located :: linesep :: row :: rows /\
    Forall row_ok (row :: rows).

(** The state of the loop of [generate_mut_flat] and what it has written,
    for the lines of [in_maf] read so far. *)
Definition maf_inv (linesep : string) (gene_ids alt_gene_ids : gmap string string)
    (subset_ids : option (gset string)) (in_maf : list string)
    (st : maf_state) (o : writes) : Prop :=
  out_header_cols st
  = (if bool_decide (is_Some (header_cols st !! "Start_Position"%string))
     then flat_header_located else flat_header) /\
  (if out_header_written st
   then o <> [] /\ is_Some (header_cols st !! "Start_Position"%string)
   else o = []) /\
  flat_file linesep
    (mut_row linesep gene_ids alt_gene_ids subset_ids
       (fun sample_name => sample_name ∈ sample_list st)) o /\
  Sorted.StronglySorted str_lt (sample_list st) /\
  (forall sample_name, sample_name ∈ sample_list st ->
     sample_named sample_name /\
     exists line, line ∈ in_maf /\ sample_name ∈ tab_columns line) /\
  (is_Some (header_cols st !! "Start_Position"%string) ->
   exists line, line ∈ in_maf /\ "Start_Position"%string ∈ tab_columns line).

(** A mutation file of two samples, the second before the first in the
    order of [str]. *)
Definition maf_file_2 : list string :=
  [line_of ["Hugo_Symbol"; "Variant_Classification"; "Tumor_Sample_Barcode";
            "Start_Position"]%string;
   line_of ["TP53"; "Missense_Mutation"; "S2"; "7577120"]%string;
   line_of ["TP53"; "Nonsense_Mutation"; "S1"; "7578406"]%string].

(** The same file without the column of the positions. *)
Definition maf_file_unlocated : list string :=
  [line_of ["Hugo_Symbol"; "Variant_Classification"; "Tumor_Sample_Barcode"]%string;
   line_of ["TP53"; "Missense_Mutation"; "S2"]%string;
   line_of ["TP53"; "Nonsense_Mutation"; "S1"]%string].

(** ** Facts about the list primitives *)

Module PyFacts.
Import Py.

Lemma index_app {A} (l1 l2 : list A) x :
  index (l1 ++ x :: l2) (length l1) = Ok x.
Proof. unfold index. by rewrite list_lookup_middle. Qed.

Lemma pop_app {A} (l1 l2 : list A) x :
  pop (l1 ++ x :: l2) (length l1) = Ok (l1 ++ l2).
Proof.
  unfold pop. rewrite decide_True.
  - f_equal. induction l1 as [|y l1 IH]; simpl; [done|]. by f_equal.
  - rewrite length_app. simpl. lia.
Qed.

Lemma insert_app {A} (l1 l2 : list A) x :
  insert (l1 ++ l2) (length l1) x = l1 ++ x :: l2.
Proof.
  unfold insert. by rewrite take_app_length, drop_app_length.
Qed.

Lemma half_bounds (lo hi : nat) :
  (lo < hi)%nat -> (lo <= (lo + hi) / 2 < hi)%nat.
Proof.
  intros H. split.
  - apply Nat.div_le_lower_bound; lia.
  - apply Nat.Div0.div_lt_upper_bound; lia.
Qed.

(** On a list split into entries [<= x] followed by entries [> x], the
    right bisection finds the split point. *)
Lemma bisect_right_loop_app (a1 a2 : list Z) x :
  Forall (fun y => y <= x) a1 -> Forall (fun y => x < y) a2 ->
  forall fuel lo hi,
    (lo <= length a1 <= hi)%nat -> (hi <= length (a1 ++ a2))%nat ->
    (hi - lo <= fuel)%nat ->
    bisect_right_loop fuel (a1 ++ a2) x lo hi = length a1.
Proof.
  intros H1 H2 fuel. induction fuel as [|fuel IH]; intros lo hi Hl Hh Hf;
    [cbn [bisect_right_loop]|cbn [bisect_right_loop]].
  - lia.
  - destruct (Nat.ltb_spec lo hi) as [Hlt|Hge]; [|lia].
    pose proof (half_bounds lo hi Hlt) as Hm.
    set (mid := ((lo + hi) / 2)%nat) in *.
    destruct (decide (mid < length a1)%nat) as [Hin|Hout].
    + rewrite app_nth1 by done.
      assert (nth mid a1 0 <= x) as Hle.
      { rewrite Forall_nth in H1. by apply H1. }
      destruct (Z.ltb_spec x (nth mid a1 0)); [lia|].
      apply IH; lia.
    + rewrite app_nth2 by lia.
      assert (x < nth (mid - length a1) a2 0) as Hgt.
      { rewrite Forall_nth in H2. apply H2. rewrite length_app in Hh. lia. }
      destruct (Z.ltb_spec x (nth (mid - length a1) a2 0)); [|lia].
      apply IH; lia.
Qed.

Lemma bisect_right_app (a1 a2 : list Z) x :
  Forall (fun y => y <= x) a1 -> Forall (fun y => x < y) a2 ->
  bisect_right (a1 ++ a2) x = length a1.
Proof.
  intros H1 H2. unfold bisect_right.
  apply bisect_right_loop_app; try done; rewrite ?length_app; lia.
Qed.

Lemma bisect_left_loop_app (a1 a2 : list Z) x :
  Forall (fun y => y < x) a1 -> Forall (fun y => x <= y) a2 ->
  forall fuel lo hi,
    (lo <= length a1 <= hi)%nat -> (hi <= length (a1 ++ a2))%nat ->
    (hi - lo <= fuel)%nat ->
    bisect_left_loop fuel (a1 ++ a2) x lo hi = length a1.
Proof.
  intros H1 H2 fuel. induction fuel as [|fuel IH]; intros lo hi Hl Hh Hf;
    [cbn [bisect_left_loop]|cbn [bisect_left_loop]].
  - lia.
  - destruct (Nat.ltb_spec lo hi) as [Hlt|Hge]; [|lia].
    pose proof (half_bounds lo hi Hlt) as Hm.
    set (mid := ((lo + hi) / 2)%nat) in *.
    destruct (decide (mid < length a1)%nat) as [Hin|Hout].
    + rewrite app_nth1 by done.
      assert (nth mid a1 0 < x) as Hle.
      { rewrite Forall_nth in H1. by apply H1. }
      destruct (Z.ltb_spec (nth mid a1 0) x); [|lia].
      apply IH; lia.
    + rewrite app_nth2 by lia.
      assert (x <= nth (mid - length a1) a2 0) as Hgt.
      { rewrite Forall_nth in H2. apply H2. rewrite length_app in Hh. lia. }
      destruct (Z.ltb_spec (nth (mid - length a1) a2 0) x); [lia|].
      apply IH; lia.
Qed.

Lemma bisect_left_app (a1 a2 : list Z) x :
  Forall (fun y => y < x) a1 -> Forall (fun y => x <= y) a2 ->
  bisect_left (a1 ++ a2) x = length a1.
Proof.
  intros H1 H2. unfold bisect_left.
  apply bisect_left_loop_app; try done; rewrite ?length_app; lia.
Qed.

End PyFacts.

Module PartitionFacts.

Lemma partition_weaken lo lo' L :
  lo' <= lo -> partition_from lo L -> partition_from lo' L.
Proof. destruct L; simpl; intuition lia. Qed.

Lemma partition_after lo L : partition_from lo L -> Forall (after lo) L.
Proof.
  revert lo. induction L as [|x L IH]; intros lo H; [constructor|].
  destruct H as (H1 & H2 & H3). constructor; [exact H1|].
  apply IH. eapply partition_weaken; [|exact H3]. lia.
Qed.

Lemma partition_proper lo L : partition_from lo L -> Forall proper L.
Proof.
  revert lo. induction L as [|x L IH]; intros lo H; [constructor|].
  destruct H as (H1 & H2 & H3). constructor; [exact H2|by eapply IH].
Qed.

Lemma partition_app lo l1 l2 :
  partition_from lo (l1 ++ l2) <->
  partition_from lo l1 /\ partition_from (last_end lo l1) l2.
Proof.
  revert lo. induction l1 as [|x l1 IH]; intros lo; simpl.
  - tauto.
  - rewrite IH. unfold last_end. simpl. tauto.
Qed.

Lemma last_end_le lo L s :
  lo <= s -> Forall (before s) L -> last_end lo L <= s.
Proof.
  revert lo. induction L as [|x L IH]; intros lo Hlo H; [exact Hlo|].
  inversion_clear H as [|? ? Hx HL]. unfold last_end; simpl.
  apply IH; [exact Hx|exact HL].
Qed.

Lemma last_end_ge lo L : partition_from lo L -> lo <= last_end lo L.
Proof.
  revert lo. induction L as [|x L IH]; intros lo H; [unfold last_end; simpl; lia|].
  destruct H as (H1 & H2 & H3). apply IH in H3.
  unfold last_end in *; simpl. lia.
Qed.

Lemma partition_raise lo e L :
  partition_from lo L -> Forall (after e) L -> partition_from e L.
Proof.
  destruct L as [|x L]; [done|]. intros (H1 & H2 & H3) H.
  inversion_clear H. simpl. auto.
Qed.

Lemma partition_split_before lo l1 x l2 :
  partition_from lo (l1 ++ x :: l2) -> Forall (before (seg_start x)) l1.
Proof.
  revert lo. induction l1 as [|y l1 IH]; intros lo H; [constructor|].
  destruct H as (H1 & H2 & H3). constructor; [|by eapply IH].
  apply partition_after in H3. rewrite Forall_app, Forall_cons in H3.
  apply H3.
Qed.

Lemma partition_split_after lo l1 x l2 :
  partition_from lo (l1 ++ x :: l2) -> Forall (after (seg_end x)) l2.
Proof.
  rewrite partition_app. intros [_ (_ & _ & H)]. by apply partition_after.
Qed.

Lemma partition_insert lo pre post x :
  partition_from lo (pre ++ post) ->
  Forall (before (seg_start x)) pre -> Forall (after (seg_end x)) post ->
  lo <= seg_start x -> proper x ->
  partition_from lo (pre ++ x :: post).
Proof.
  rewrite !partition_app. intros [Hp Hq] Hb Ha Hlo Hx.
  split; [exact Hp|]. simpl. split; [by apply last_end_le|].
  split; [exact Hx|]. by eapply partition_raise.
Qed.

Lemma partition_delete lo pre x post :
  partition_from lo (pre ++ x :: post) -> partition_from lo (pre ++ post).
Proof.
  rewrite !partition_app. intros [Hp (H1 & H2 & H3)].
  split; [exact Hp|]. eapply partition_weaken; [|exact H3]. lia.
Qed.

Lemma start_bisect_eq pre rest s :
  Forall (before s) pre -> Forall (fun x => s < seg_end x) rest ->
  Py.bisect_right (seg_end <$> (pre ++ rest)) s = length pre.
Proof.
  intros H1 H2. rewrite fmap_app, <- (length_fmap seg_end pre).
  apply PyFacts.bisect_right_app; by apply Forall_fmap.
Qed.

Lemma end_bisect_eq pre rest e :
  Forall (fun x => seg_start x < e) pre -> Forall (after e) rest ->
  Py.bisect_left (seg_start <$> (pre ++ rest)) e = length pre.
Proof.
  intros H1 H2. rewrite fmap_app, <- (length_fmap seg_start pre).
  apply PyFacts.bisect_left_app; by apply Forall_fmap.
Qed.

Lemma index_at {A} (f : Seg -> A) pre x rest :
  Py.index (f <$> (pre ++ x :: rest)) (length pre) = Ok (f x).
Proof.
  rewrite fmap_app, fmap_cons, <- (length_fmap f pre).
  apply PyFacts.index_app.
Qed.

Lemma pop_at {A} (f : Seg -> A) pre x rest :
  Py.pop (f <$> (pre ++ x :: rest)) (length pre) = Ok (f <$> (pre ++ rest)).
Proof.
  rewrite !fmap_app, fmap_cons, <- (length_fmap f pre).
  apply PyFacts.pop_app.
Qed.

Lemma insert_at {A} (f : Seg -> A) pre x rest :
  Py.insert (f <$> (pre ++ rest)) (length pre) (f x) = f <$> (pre ++ x :: rest).
Proof.
  rewrite !fmap_app, fmap_cons, <- (length_fmap f pre).
  apply PyFacts.insert_app.
Qed.

(** A partition splits into the segments starting before [e] and those
    starting from [e] on. *)
Lemma partition_split_at lo L e :
  partition_from lo L ->
  exists m p, L = m ++ p /\
    Forall (fun x => seg_start x < e) m /\ Forall (after e) p.
Proof.
  revert lo. induction L as [|x L IH]; intros lo H.
  - exists [], []. by repeat split; constructor.
  - destruct H as (H1 & H2 & H3).
    destruct (decide (seg_start x < e)) as [Hlt|Hge].
    + destruct (IH _ H3) as (m & p & -> & Hm & Hp).
      exists (x :: m), p. repeat split; [|done]. by constructor.
    + exists [], (x :: L). repeat split; [constructor|].
      apply partition_after in H3. constructor; [unfold after; lia|].
      pointwise.
Qed.

End PartitionFacts.
Module MergeFacts.
Import PartitionFacts.

Lemma merge_no_overlap fuel pre post s e c :
  Forall (before s) pre -> Forall (after e) post ->
  Forall proper (pre ++ post) -> s < e ->
  merge_on (S fuel) (pre ++ post) s e c = Ok (unzip (pre ++ mkSeg s e c :: post)).
Proof.
  intros Hpre Hpost Hprop Hse. unfold merge_on, unzip. cbn [merge_fuel].
  rewrite start_bisect_eq, end_bisect_eq; [| pointwise ..].
  rewrite Nat.eqb_refl.
  pose proof (insert_at seg_start pre (mkSeg s e c) post) as H1.
  pose proof (insert_at seg_end pre (mkSeg s e c) post) as H2.
  pose proof (insert_at seg_cn pre (mkSeg s e c) post) as H3.
  simpl in H1, H2, H3. by rewrite H1, H2, H3.
Qed.

(** The first existing segment met by the new one, seen by the two
    bisections. *)
Lemma first_overlap_bisect lo pre old rest s e :
  partition_from lo (pre ++ old :: rest) ->
  Forall (before s) pre -> across s e old -> s < e ->
  Py.bisect_right (seg_end <$> (pre ++ old :: rest)) s = length pre /\
  (Py.bisect_left (seg_start <$> (pre ++ old :: rest)) e =? length pre)%nat = false.
Proof.
  intros Hpart Hpre Hold Hse.
  pose proof (partition_proper _ _ Hpart) as Hprop.
  pose proof (partition_split_after _ _ _ _ Hpart) as Hafter.
  split.
  - apply start_bisect_eq; [done|]. pointwise.
  - rewrite partition_app in Hpart. destruct Hpart as [_ (_ & _ & Hrest)].
    destruct (partition_split_at _ rest e Hrest) as (m & p & -> & Hm & Hp).
    replace (pre ++ old :: m ++ p) with ((pre ++ old :: m) ++ p)
      by (by rewrite <- app_assoc).
    rewrite end_bisect_eq; [| pointwise | done].
    rewrite length_app. simpl. apply Nat.eqb_neq. lia.
Qed.

Lemma reduce_old_event_eq m pre old rest s e c :
  reduce_old_event m (length pre)
    (seg_start <$> (pre ++ old :: rest)) (seg_end <$> (pre ++ old :: rest))
    (seg_cn <$> (pre ++ old :: rest))
    s e c (seg_start old) (seg_end old) (seg_cn old)
  = let L := pre ++ truncate old s e ++ rest in
    m (seg_start <$> L) (seg_end <$> L) (seg_cn <$> L) s e c.
Proof.
  unfold reduce_old_event, truncate, cut_left, cut_right. rewrite !pop_at. simpl.
  destruct (e <? seg_end old) eqn:H2; destruct (seg_start old <? s) eqn:H1; simpl.
  - pose proof (fun A (f : Seg -> A) =>
      insert_at f pre (mkSeg e (seg_end old) (seg_cn old)) rest) as I1.
    pose proof (I1 _ seg_start) as I1s. pose proof (I1 _ seg_end) as I1e.
    pose proof (I1 _ seg_cn) as I1c. simpl in I1s, I1e, I1c.
    rewrite I1s, I1e, I1c.
    pose proof (fun A (f : Seg -> A) =>
      insert_at f pre (mkSeg (seg_start old) s (seg_cn old))
        (mkSeg e (seg_end old) (seg_cn old) :: rest)) as I2.
    pose proof (I2 _ seg_start) as I2s. pose proof (I2 _ seg_end) as I2e.
    pose proof (I2 _ seg_cn) as I2c. simpl in I2s, I2e, I2c.
    by rewrite I2s, I2e, I2c.
  - pose proof (fun A (f : Seg -> A) =>
      insert_at f pre (mkSeg e (seg_end old) (seg_cn old)) rest) as I1.
    pose proof (I1 _ seg_start) as I1s. pose proof (I1 _ seg_end) as I1e.
    pose proof (I1 _ seg_cn) as I1c. simpl in I1s, I1e, I1c.
    by rewrite I1s, I1e, I1c.
  - pose proof (fun A (f : Seg -> A) =>
      insert_at f pre (mkSeg (seg_start old) s (seg_cn old)) rest) as I1.
    pose proof (I1 _ seg_start) as I1s. pose proof (I1 _ seg_end) as I1e.
    pose proof (I1 _ seg_cn) as I1c. simpl in I1s, I1e, I1c.
    by rewrite I1s, I1e, I1c.
  - done.
Qed.

Section Steps.
Variables (old : Seg) (mid : list Seg).
Hypothesis IH : merge_ok mid.
Variables (fuel : nat) (pre post : list Seg) (lo s e : Z).
Hypothesis Hfuel : (length mid < fuel)%nat.
Hypothesis Hpart : partition_from lo (pre ++ old :: mid ++ post).
Hypothesis Hpre : Forall (before s) pre.
Hypothesis Hold : across s e old.
Hypothesis Hmid : Forall (across s e) mid.
Hypothesis Hpost : Forall (after e) post.
Hypothesis Hlo : lo <= s.
Hypothesis Hse : s < e.

Let Hproper := partition_proper _ _ Hpart.
Let Hbefore := partition_split_before _ _ _ _ Hpart.
Let Hafter := partition_split_after _ _ _ _ Hpart.
Let Hlow := partition_after _ _ Hpart.
Let Hdel := partition_delete _ _ _ _ Hpart.

Lemma equal_step :
  exists mid',
    merge_on fuel (pre ++ mid ++ post)
      (if seg_start old <? s then seg_start old else s)
      (if seg_end old >? e then seg_end old else e) (seg_cn old)
    = Ok (unzip (pre ++ mid' ++ post)) /\
    partition_from lo (pre ++ mid' ++ post).
Proof using All.
  rewrite Z.gtb_ltb.
  apply IH; try done;
    destruct (Z.ltb_spec (seg_start old) s), (Z.ltb_spec e (seg_end old));
    pointwise.
Qed.

Lemma old_step c :
  exists mid',
    reduce_old_event (merge_fuel fuel) (length pre)
      (seg_start <$> (pre ++ old :: mid ++ post))
      (seg_end <$> (pre ++ old :: mid ++ post))
      (seg_cn <$> (pre ++ old :: mid ++ post))
      s e c (seg_start old) (seg_end old) (seg_cn old)
    = Ok (unzip (pre ++ mid' ++ post)) /\
    partition_from lo (pre ++ mid' ++ post).
Proof using All.
  rewrite reduce_old_event_eq. cbv zeta.
  change (merge_fuel fuel (seg_start <$> ?L) (seg_end <$> ?L) (seg_cn <$> ?L) s e c)
    with (merge_on fuel L s e c).
  set (l := if seg_start old <? s then [mkSeg (seg_start old) s (seg_cn old)] else []).
  set (r := if e <? seg_end old then [mkSeg e (seg_end old) (seg_cn old)] else []).
  assert (truncate old s e ++ mid ++ post = l ++ mid ++ r ++ post) as Hshape.
  { unfold truncate, cut_left, cut_right. fold l r. rewrite <- app_assoc. f_equal.
    subst r. destruct (Z.ltb_spec e (seg_end old)); [|done].
    destruct mid as [|x mid']; [done|]. exfalso. pointwise. }
  rewrite Hshape.
  assert (Forall (before s) l) as Hl.
  { subst l. destruct (seg_start old <? s); pointwise. }
  assert (Forall (after e) r) as Hr.
  { subst r. destruct (e <? seg_end old); pointwise. }
  assert (partition_from lo (pre ++ l ++ mid ++ r ++ post)) as Hpart'.
  { assert (partition_from lo (pre ++ mid ++ r ++ post)) as H1.
    { subst r. destruct (Z.ltb_spec e (seg_end old)) as [Hlt|Hge]; [|done].
      destruct mid as [|x mid']; [|exfalso; pointwise].
      simpl in *. apply partition_insert; try done; pointwise. }
    subst l. destruct (Z.ltb_spec (seg_start old) s) as [Hlt|Hge]; [|done].
    simpl. apply partition_insert; try done; [pointwise .. | | pointwise].
    subst r. destruct (Z.ltb_spec e (seg_end old)); pointwise. }
  destruct (IH fuel (pre ++ l) (r ++ post) lo s e c) as (mid' & Heq & Hp);
    try done; rewrite <- ?app_assoc; try done; [pointwise .. |].
  exists (l ++ mid' ++ r). rewrite <- !app_assoc in *. by split.
Qed.

Lemma new_step c :
  exists mid',
    reduce_new_event (merge_fuel fuel)
      (seg_start <$> (pre ++ old :: mid ++ post))
      (seg_end <$> (pre ++ old :: mid ++ post))
      (seg_cn <$> (pre ++ old :: mid ++ post))
      s e c (seg_start old) (seg_end old)
    = Ok (unzip (pre ++ mid' ++ post)) /\
    partition_from lo (pre ++ mid' ++ post).
Proof using All.
  unfold reduce_new_event. cbv zeta.
  set (l := if s <? seg_start old then [mkSeg s (seg_start old) c] else []).
  assert (partition_from lo (pre ++ l ++ old :: mid ++ post)) as Hpart'.
  { subst l. destruct (Z.ltb_spec s (seg_start old)); [|done].
    simpl. apply partition_insert; try done; pointwise. }
  assert ((if s <? seg_start old
           then merge_fuel fuel (seg_start <$> (pre ++ old :: mid ++ post))
                  (seg_end <$> (pre ++ old :: mid ++ post))
                  (seg_cn <$> (pre ++ old :: mid ++ post)) s (seg_start old) c
           else Ok (seg_start <$> (pre ++ old :: mid ++ post),
                    seg_end <$> (pre ++ old :: mid ++ post),
                    seg_cn <$> (pre ++ old :: mid ++ post)))
          = Ok (unzip (pre ++ l ++ old :: mid ++ post))) as ->.
  { subst l. destruct (Z.ltb_spec s (seg_start old)); [|done].
    destruct fuel as [|fuel']; [lia|].
    apply (merge_no_overlap fuel' pre (old :: mid ++ post)); try done; pointwise. }
  cbn [mbind result_bind unzip].
  destruct (Z.ltb_spec (seg_end old) e) as [Hlt|Hge].
  - change (merge_fuel fuel (seg_start <$> ?L) (seg_end <$> ?L) (seg_cn <$> ?L)
              (seg_end old) e c)
      with (merge_on fuel L (seg_end old) e c).
    destruct (IH fuel (pre ++ l ++ [old]) post lo (seg_end old) e c)
      as (mid' & Heq & Hp); try done;
      rewrite <- ?app_assoc; simpl; try done.
    + subst l. destruct (Z.ltb_spec s (seg_start old)); pointwise.
    + pointwise.
    + pointwise.
    + exists (l ++ old :: mid'). rewrite <- !app_assoc in *. simpl in *.
      rewrite Heq. by split.
  - exists (l ++ old :: mid). rewrite <- !app_assoc. simpl. by split.
Qed.

End Steps.

Lemma merge_spec mid : merge_ok mid.
Proof.
  induction mid as [|old mid IH];
    intros fuel pre post lo s e c Hfuel Hpart Hpre Hmid Hpost Hlo Hse.
  - destruct fuel as [|fuel]; [simpl in Hfuel; lia|].
    exists [mkSeg s e c]. simpl in *. split.
    + apply merge_no_overlap; try done. by eapply partition_proper.
    + apply partition_insert; try done; pointwise.
  - destruct fuel as [|fuel]; [simpl in Hfuel; lia|]. simpl in Hfuel.
    apply Forall_cons in Hmid as [Hold Hmid].
    destruct (first_overlap_bisect lo pre old (mid ++ post) s e)
      as [Hsb Heb]; try done.
    unfold merge_on. cbn [merge_fuel]. simpl app.
    rewrite Hsb, Nat.eqb_sym, Heb. rewrite !index_at.
    cbn [mbind result_bind].
    destruct (seg_cn old =? c) eqn:Hcn.
    + apply Z.eqb_eq in Hcn. subst c. rewrite !pop_at.
      cbn [mbind result_bind].
      eapply equal_step; eauto; lia.
    + destruct ((c <=? 2) && (seg_cn old <=? 2));
        [destruct (seg_cn old <? c)|
         destruct ((c >=? 2) && (seg_cn old >=? 2));
         [destruct (seg_cn old >? c)|
          destruct (seg_end old - seg_start old <? e - s)]];
        first [eapply new_step | eapply old_step]; eauto; lia.
Qed.

(** Every partition splits into the segments ending before the new one,
    those it meets, and those starting after it. *)
Lemma partition_decompose lo L s e :
  partition_from lo L -> s < e ->
  exists pre mid post, L = pre ++ mid ++ post /\
    Forall (before s) pre /\ Forall (across s e) mid /\ Forall (after e) post.
Proof.
  intros H Hse. revert lo H. induction L as [|x L IH]; intros lo H.
  - exists [], [], []. by repeat split; constructor.
  - destruct (decide (seg_end x <= s)) as [Hle|Hgt].
    + destruct H as (H1 & H2 & H3).
      destruct (IH _ H3) as (pre & mid & post & -> & Hpre & Hmid & Hpost).
      exists (x :: pre), mid, post. repeat split; try done. by constructor.
    + destruct (partition_split_at lo (x :: L) e H) as (m & p & Heq & Hm & Hp).
      exists [], m, p. repeat split; try done. simpl.
      pose proof (partition_proper _ _ H) as Hprop.
      destruct H as (H1 & H2 & H3). apply partition_after in H3.
      rewrite Heq in Hprop.
      destruct m as [|y m]; [constructor|].
      simpl in Heq. injection Heq as -> ->.
      pointwise.
Qed.


(** On a partition the consolidator always returns, with any budget
    above the number of stored segments, and returns a partition. *)
Lemma merge_fuel_enough lo L s e c fuel :
  partition_from lo L -> s < e -> (length L < fuel)%nat ->
  exists L',
    merge_on fuel L s e c = Ok (unzip L') /\
    partition_from (Z.min lo s) L'.
Proof.
  intros Hpart Hse Hfuel.
  destruct (partition_decompose lo L s e Hpart Hse)
    as (pre & mid & post & -> & Hpre & Hmid & Hpost).
  destruct (merge_spec mid fuel pre post (Z.min lo s) s e c)
    as (mid' & Heq & Hp); try done; try lia.
  - rewrite !length_app in Hfuel. lia.
  - eapply partition_weaken; [|exact Hpart]. lia.
  - by exists (pre ++ mid' ++ post).
Qed.

End MergeFacts.

(** ** The consolidator as a whole *)

Module AddFacts.
Import PartitionFacts MergeFacts.

Lemma partition_lookup_after lo L i x :
  partition_from lo L -> L !! i = Some x -> lo <= seg_start x /\ proper x.
Proof.
  intros H Hx. pose proof (partition_after _ _ H) as Ha.
  pose proof (partition_proper _ _ H) as Hp.
  rewrite Forall_lookup in Ha, Hp. split; [by eapply Ha|by eapply Hp].
Qed.

Lemma partition_sorted lo L : partition_from lo L -> sorted_by_start (seg_start <$> L).
Proof.
  revert lo. induction L as [|x L IH]; intros lo H i j a b Hij Hi Hj.
  - by rewrite list_lookup_fmap, lookup_nil in Hi.
  - destruct H as (H1 & H2 & H3).
    destruct j as [|j]; [lia|]. simpl in Hj.
    rewrite list_lookup_fmap in Hj.
    destruct (L !! j) as [y|] eqn:Hy; [|done]. injection Hj as <-.
    destruct i as [|i].
    + injection Hi as <-.
      destruct (partition_lookup_after _ _ _ _ H3 Hy). lia.
    + simpl in Hi. eapply (IH _ H3 i j); [lia|done|].
      by rewrite list_lookup_fmap, Hy.
Qed.

Lemma partition_non_overlapping lo L :
  partition_from lo L -> non_overlapping (seg_start <$> L) (seg_end <$> L).
Proof.
  revert lo. induction L as [|x L IH]; intros lo H i e s' Hi Hj.
  - by rewrite list_lookup_fmap, lookup_nil in Hi.
  - destruct H as (H1 & H2 & H3). simpl in Hj.
    destruct i as [|i].
    + injection Hi as <-. rewrite list_lookup_fmap in Hj.
      destruct (L !! 0%nat) as [y|] eqn:Hy; [|done]. injection Hj as <-.
      by destruct (partition_lookup_after _ _ _ _ H3 Hy).
    + simpl in Hi. by eapply (IH _ H3 i).
Qed.

Lemma partition_consolidated lo L :
  partition_from lo L ->
  consolidated (seg_start <$> L) (seg_end <$> L) (seg_cn <$> L).
Proof.
  intros H. unfold consolidated. rewrite !length_fmap.
  repeat split; [by eapply partition_sorted|by eapply partition_non_overlapping|].
  intros i s e Hs He. rewrite list_lookup_fmap in Hs, He.
  destruct (L !! i) as [x|] eqn:Hx; [|done].
  injection Hs as <-. injection He as <-.
  by destruct (partition_lookup_after _ _ _ _ H Hx).
Qed.

Lemma init_wf : wf_sample init.
Proof. intros chrom. unfold wf_chrom. simpl. by rewrite !lookup_empty. Qed.

(** [add] with a non-empty interval returns and keeps the invariant. *)
Lemma add_wf self chrom start end_ cn :
  wf_sample self -> start < end_ ->
  exists self', add self chrom start end_ cn = Ok self' /\ wf_sample self'.
Proof.
  intros Hwf Hse. unfold add.
  destruct (Z.leb_spec end_ start) as [?|_]; [lia|].
  set (k := Py.replace_chr chrom).
  pose proof (Hwf k) as Hk. unfold wf_chrom in Hk.
  destruct (len_seg self !! k) as [n|] eqn:Hlen.
  - destruct Hk as (L & lo & Hs & He & Hc & Hpart).
    unfold getitem. rewrite Hs, He, Hc. cbn [mbind result_bind].
    unfold merge_overlapping_cnvs.
    destruct (merge_fuel_enough lo L start end_ cn (S (length (seg_start <$> L))))
      as (L' & Heq & Hp); try done.
    { rewrite length_fmap. lia. }
    unfold merge_on in Heq. rewrite Heq. cbn [mbind result_bind unzip].
    eexists. split; [done|].
    intros chrom'. unfold wf_chrom. simpl.
    destruct (decide (k = chrom')) as [<-|Hne].
    + rewrite !lookup_insert_eq. by exists L', (Z.min lo start).
    + rewrite !lookup_insert_ne by done. apply Hwf.
  - eexists. split; [done|].
    intros chrom'. unfold wf_chrom. simpl.
    destruct (decide (k = chrom')) as [<-|Hne].
    + rewrite !lookup_insert_eq. exists [mkSeg start end_ cn], start.
      simpl. repeat split; try done; lia.
    + rewrite !lookup_insert_ne by done. apply Hwf.
Qed.

Lemma add_all_wf calls : forall self,
  wf_sample self -> Forall call_valid calls ->
  exists self', add_all self calls = Ok self' /\ wf_sample self'.
Proof.
  induction calls as [|[[[chrom start] end_] cn] calls IH]; intros self Hwf Hcalls.
  - by exists self.
  - apply Forall_cons in Hcalls as [Hc Hcalls]. simpl in Hc.
    destruct (add_wf self chrom start end_ cn Hwf Hc) as (self1 & Heq & Hwf1).
    destruct (IH self1 Hwf1 Hcalls) as (self' & Heq' & Hwf').
    exists self'. split; [|done]. simpl. by rewrite Heq.
Qed.

Lemma wf_sample_consolidated self chrom ss :
  wf_sample self -> starts self !! chrom = Some ss ->
  exists es cs,
    ends self !! chrom = Some es /\ cn_states self !! chrom = Some cs /\
    consolidated ss es cs.
Proof.
  intros Hwf Hs. pose proof (Hwf chrom) as Hk. unfold wf_chrom in Hk.
  destruct (len_seg self !! chrom).
  - destruct Hk as (L & lo & Hs' & He & Hc & Hpart).
    rewrite Hs in Hs'. injection Hs' as ->.
    exists (seg_end <$> L), (seg_cn <$> L).
    split; [done|split; [done|by eapply partition_consolidated]].
  - destruct Hk as (Hs' & _). congruence.
Qed.

End AddFacts.

(** C1. After any sequence of [add] calls with non-empty intervals, starting
    from a fresh sample, every call has returned and every chromosome stores
    three columns of equal length whose segments are sorted ascending by
    start, pairwise non-overlapping ([end[i] <= start[i+1]]) and non-empty. *)
Theorem insert_keeps_partition (calls : list (string * Z * Z * Z)) :
  Forall call_valid calls ->
  exists self,
    add_all init calls = Ok self /\
    forall chrom ss,
      starts self !! chrom = Some ss ->
      exists es cs,
        ends self !! chrom = Some es /\ cn_states self !! chrom = Some cs /\
        consolidated ss es cs.
Proof.
  intros Hcalls.
  destruct (AddFacts.add_all_wf calls init AddFacts.init_wf Hcalls)
    as (self & Heq & Hwf).
  exists self. split; [done|]. intros chrom ss Hs.
  by eapply AddFacts.wf_sample_consolidated.
Qed.

Lemma insert_keeps_partition_witness :
  Forall call_valid
    [("chr1"%string, 100, 300, 1); ("chr1"%string, 150, 200, 0);
     ("chr1"%string, 250, 400, 3); ("chr2"%string, 5, 10, 2)] /\
  exists self,
    add_all init
      [("chr1"%string, 100, 300, 1); ("chr1"%string, 150, 200, 0);
       ("chr1"%string, 250, 400, 3); ("chr2"%string, 5, 10, 2)] = Ok self /\
    forall chrom ss,
      starts self !! chrom = Some ss ->
      exists es cs,
        ends self !! chrom = Some es /\ cn_states self !! chrom = Some cs /\
        consolidated ss es cs.
Proof.
  assert (Forall call_valid
    [("chr1"%string, 100, 300, 1); ("chr1"%string, 150, 200, 0);
     ("chr1"%string, 250, 400, 3); ("chr2"%string, 5, 10, 2)]) as H.
  { repeat constructor; simpl; lia. }
  split; [exact H|]. apply (insert_keeps_partition _ H).
Defined.

(** ** Failure of [add] *)

Module RaiseFacts.

Lemma index_raise {A} (l : list A) i ex : Py.index l i = Raise ex -> ex = IndexError.
Proof. unfold Py.index. destruct (l !! i); congruence. Qed.

Lemma pop_raise {A} (l : list A) i ex : Py.pop l i = Raise ex -> ex = IndexError.
Proof. unfold Py.pop. destruct (decide _); congruence. Qed.

(** The consolidator raises nothing but an index error or the exhaustion
    of its budget. *)
Lemma merge_fuel_raise fuel :
  forall ss es cs s e c ex,
    merge_fuel fuel ss es cs s e c = Raise ex ->
    ex = IndexError \/ ex = RecursionError.
Proof.
  induction fuel as [|fuel IH]; intros ss es cs s e c ex H.
  - injection H as <-. by right.
  - assert (forall ss es cs s e c os oe,
      reduce_new_event (merge_fuel fuel) ss es cs s e c os oe = Raise ex ->
      ex = IndexError \/ ex = RecursionError) as Hnew.
    { clear -IH. unfold reduce_new_event. intros ss es cs s e c os oe H.
      destruct (s <? os).
      - destruct (merge_fuel fuel ss es cs s os c) as [[[s1 e1] c1]|] eqn:H1;
          cbn [mbind result_bind] in H; [|injection H as <-; by eapply IH].
        destruct (oe <? e); [|done].
        destruct (merge_fuel fuel s1 e1 c1 oe e c) as [[[s2 e2] c2]|] eqn:H2;
          cbn [mbind result_bind] in H; [done|injection H as <-; by eapply IH].
      - cbn [mbind result_bind] in H. destruct (oe <? e); [|done].
        destruct (merge_fuel fuel ss es cs oe e c) as [[[s2 e2] c2]|] eqn:H2;
          cbn [mbind result_bind] in H; [done|injection H as <-; by eapply IH]. }
    assert (forall i ss es cs s e c os oe oc,
      reduce_old_event (merge_fuel fuel) i ss es cs s e c os oe oc = Raise ex ->
      ex = IndexError \/ ex = RecursionError) as Hold.
    { clear -IH. unfold reduce_old_event. intros i ss es cs s e c os oe oc H.
      destruct (Py.pop ss i) eqn:H1;
        [|injection H as <-; left; by eapply pop_raise].
      destruct (Py.pop es i) eqn:H2;
        [|injection H as <-; left; by eapply pop_raise].
      destruct (Py.pop cs i) eqn:H3;
        [|injection H as <-; left; by eapply pop_raise].
      cbn [mbind result_bind] in H.
      destruct (e <? oe), (os <? s); by eapply IH. }
    cbn [merge_fuel] in H.
    destruct (_ =? _)%nat; [done|].
    destruct (Py.index ss _) as [os|] eqn:H1;
      [|injection H as <-; left; by eapply index_raise].
    destruct (Py.index es _) as [oe|] eqn:H2;
      [|injection H as <-; left; by eapply index_raise].
    destruct (Py.index cs _) as [oc|] eqn:H3;
      [|injection H as <-; left; by eapply index_raise].
    cbn [mbind result_bind] in H.
    destruct (oc =? c).
    + destruct (Py.pop ss _) eqn:H4;
        [|injection H as <-; left; by eapply pop_raise].
      destruct (Py.pop es _) eqn:H5;
        [|injection H as <-; left; by eapply pop_raise].
      destruct (Py.pop cs _) eqn:H6;
        [|injection H as <-; left; by eapply pop_raise].
      cbn [mbind result_bind] in H. by eapply IH.
    + destruct ((c <=? 2) && (oc <=? 2));
        [destruct (oc <? c)|
         destruct ((c >=? 2) && (oc >=? 2));
         [destruct (oc >? c)|destruct (oe - os <? e - s)]]; eauto.
Qed.

End RaiseFacts.

(** C9. [add] raises the invalid-segment error exactly when [end < start],
    whatever the state of the sample; a call with [start = end] returns
    normally and leaves the sample as it was. *)
Theorem add_invalid_segment (self : SampleCNVs) (chrom : string) (start end_ cn : Z) :
  (add self chrom start end_ cn = Raise InvalidSegment <-> end_ < start) /\
  add self chrom start start cn = Ok self.
Proof.
  split.
  - unfold add. destruct (Z.leb_spec end_ start) as [Hle|Hgt].
    + destruct (Z.eqb_spec start end_) as [->|Hne]; split; intros H;
        try done; lia.
    + split; [|lia]. intros H. exfalso.
      destruct (len_seg self !! Py.replace_chr chrom); [|done].
      unfold getitem in H.
      destruct (starts self !! Py.replace_chr chrom); [|done].
      destruct (ends self !! Py.replace_chr chrom); [|done].
      destruct (cn_states self !! Py.replace_chr chrom); [|done].
      cbn [mbind result_bind] in H.
      destruct (merge_overlapping_cnvs _ _ _ _ _ _) as [[[s1 e1] c1]|ex] eqn:Hm;
        [done|].
      cbn [mbind result_bind] in H. injection H as ->.
      apply RaiseFacts.merge_fuel_raise in Hm. by destruct Hm.
  - unfold add. rewrite Z.leb_refl, Z.eqb_refl. done.
Qed.

(** ** Overlap with a segment of the same state *)



(** ** Overlap with a segment of the opposite family *)

Module MixedFacts.
Import PartitionFacts MergeFacts.




End MixedFacts.




(** ** Gene overlap annotator: the policy *)

Module GeneFacts.

Lemma disruptedb_spec start end_ cn g :
  disruptedb start end_ cn g = true <-> disrupted start end_ cn g.
Proof.
  unfold disruptedb, disrupted, intersects, contained.
  rewrite !andb_true_iff, orb_true_iff, !andb_true_iff.
  rewrite !Z.ltb_lt, !Z.leb_le. tauto.
Qed.

(** Away from the neutral state the loop appends, in order, the genes the
    policy selects. *)
Lemma overlap_genes_loop_filter start end_ cn items : forall acc,
  cn <> 2 ->
  overlap_genes_loop start end_ cn items acc
  = Ok (acc ++ (filter (fun it => disruptedb start end_ cn it.2 = true) items).*1).
Proof.
  induction items as [|[id g] items IH]; intros acc Hcn.
  - simpl. by rewrite app_nil_r.
  - rewrite filter_cons. cbn [overlap_genes_loop snd].
    rewrite !Z.gtb_ltb.
    destruct (decide (disruptedb start end_ cn g = true)) as [Hd|Hd];
      rewrite disruptedb_spec in Hd;
      unfold disrupted, intersects, contained in Hd;
      destruct (Z.ltb_spec start (Gene.end_ g)), (Z.ltb_spec (Gene.start g) end_),
        (Z.ltb_spec cn 2), (Z.ltb_spec 2 cn),
        (Z.ltb_spec (Gene.start g) start), (Z.ltb_spec end_ (Gene.end_ g));
      cbn [andb orb]; try (exfalso; lia);
      rewrite IH by done; cbn [fmap list_fmap fst]; by rewrite <- ?app_assoc.
Qed.

(** At the neutral state the loop raises as soon as a gene intersects the
    segment, and returns what it was given otherwise. *)
Lemma overlap_genes_loop_neutral start end_ items : forall acc,
  overlap_genes_loop start end_ 2 items acc
  = if decide (Exists (fun it => intersects start end_ it.2) items)
    then Raise InvalidCNState else Ok acc.
Proof.
  induction items as [|[id g] items IH]; intros acc.
  - reflexivity.
  - cbn [overlap_genes_loop]. rewrite Z.gtb_ltb.
    change (2 <? 2) with false. change (2 >? 2) with false. cbv iota.
    destruct (Z.ltb_spec start (Gene.end_ g)), (Z.ltb_spec (Gene.start g) end_);
      cbn [andb]; rewrite ?IH; repeat case_decide; try done;
      rewrite Exists_cons in *; unfold intersects in *; cbn [snd] in *;
      exfalso; intuition lia.
Qed.

End GeneFacts.

(** C5. For a segment whose state is not neutral, the annotator reports a
    gene id exactly when a gene with that id on the segment's chromosome
    intersects [start, end) and either the state is a loss ([cn < 2]) or
    it is a gain ([cn > 2]) and the gene lies wholly inside the segment.
    On a non-empty table the call returns, listing those genes in table
    order. *)
Theorem focal_genes_policy chrom start end_ cn (gene_cords : odict (odict Gene.t)) :
  cn <> 2 ->
  (gene_cords <> [] ->
   get_overlap_genes chrom start end_ cn gene_cords
   = Ok (filter (fun it => disruptedb start end_ cn it.2 = true)
           (genes_scanned chrom gene_cords)).*1) /\
  forall id,
    reports (get_overlap_genes chrom start end_ cn gene_cords) id <->
    exists g, (id, g) ∈ genes_scanned chrom gene_cords /\ disrupted start end_ cn g.
Proof.
  intros Hcn.
  assert (gene_cords <> [] ->
    get_overlap_genes chrom start end_ cn gene_cords
    = Ok (filter (fun it => disruptedb start end_ cn it.2 = true)
            (genes_scanned chrom gene_cords)).*1) as Hret.
  { destruct gene_cords as [|[k v] rest]; [done|]. intros _.
    unfold get_overlap_genes, genes_scanned. cbn [mbind result_bind].
    destruct (odict_get _ _) as [genes|]; [|done].
    by rewrite GeneFacts.overlap_genes_loop_filter. }
  split; [exact Hret|]. intros id. unfold reports.
  destruct gene_cords as [|[k v] rest].
  - split.
    + by intros (l & H & _).
    + intros (g & H & _). by apply elem_of_nil in H.
  - rewrite Hret by done. split.
    + intros (l & [= <-] & Hin).
      apply list_elem_of_fmap in Hin as ([id' g] & -> & Hin).
      apply list_elem_of_filter in Hin as [Hd Hin].
      exists g. split; [done|]. by apply GeneFacts.disruptedb_spec.
    + intros (g & Hin & Hd). eexists. split; [done|].
      apply list_elem_of_fmap. exists (id, g). split; [done|].
      apply list_elem_of_filter. split; [|done].
      by apply GeneFacts.disruptedb_spec.
Qed.

Lemma focal_genes_policy_witness :
  1 <> 2 /\
  forall id,
    reports (get_overlap_genes "chr7" 100 200 1
               [("7"%string, [("1956"%string, Gene.mk "1956" "7" 150 400)])]) id <->
    exists g,
      (id, g) ∈ genes_scanned "chr7"
                  [("7"%string, [("1956"%string, Gene.mk "1956" "7" 150 400)])] /\
      disrupted 100 200 1 g.
Proof.
  assert (1 <> 2) as H by lia.
  split; [exact H|].
  exact (proj2 (focal_genes_policy "chr7" 100 200 1
                  [("7"%string, [("1956"%string, Gene.mk "1956" "7" 150 400)])] H)).
Defined.

(** C7 (amended). On an empty gene table the annotator raises
    [StopIteration] while it looks for the first key, whatever the
    segment.  On a table that is not empty and a neutral segment
    ([cn = 2]) it raises the invalid-state error exactly when some gene of
    the segment's chromosome intersects [start, end); when none does, the
    chromosome being absent from the table or none of its genes meeting
    the segment, it returns the empty list. *)
Theorem neutral_segment_rejected chrom start end_ (gene_cords : odict (odict Gene.t)) :
  get_overlap_genes chrom start end_ 2 gene_cords
  = match gene_cords with
    | [] => Raise StopIteration
    | _ :: _ =>
        if decide (Exists (fun it => intersects start end_ it.2)
                     (genes_scanned chrom gene_cords))
        then Raise InvalidCNState
        else Ok []
    end.
Proof.
  destruct gene_cords as [|[k v] rest]; [done|].
  unfold get_overlap_genes, genes_scanned. cbn [mbind result_bind].
  destruct (odict_get _ _) as [genes|]; [|done].
  by rewrite GeneFacts.overlap_genes_loop_neutral.
Qed.

(** A neutral segment that meets no gene is not rejected. *)
Lemma neutral_not_always_rejected : ~ neutral_always_rejected.
Proof.
  intros H.
  specialize (H "1"%string 0 10
                [("1"%string, [("1956"%string, Gene.mk "1956" "1" 1000 2000)])]).
  vm_compute in H. discriminate H.
Qed.

(** ** Ploidy normaliser: the weighted average *)

Module PloidyFacts.

Lemma weigh_insert cov cn v :
  cov !! cn = None -> weigh (<[cn := v]> cov) = weigh cov + cn * v.
Proof.
  intros H. unfold weigh. rewrite map_fold_insert_L; [done| |done].
  intros. lia.
Qed.

Lemma weigh_cov_add cov cn bases :
  weigh (cov_add cov cn bases) = weigh cov + cn * bases.
Proof.
  unfold cov_add. destruct (cov !! cn) as [v|] eqn:H.
  - rewrite H. simpl.
    rewrite <- insert_delete_eq.
    rewrite weigh_insert by apply lookup_delete_eq.
    unfold weigh at 2.
    rewrite (map_fold_delete_L _ _ cn v cov); [|intros; lia|done].
    fold (weigh (delete cn cov)). lia.
  - rewrite lookup_insert_eq. simpl. rewrite insert_insert_eq.
    rewrite weigh_insert by done. lia.
Qed.

(** On ordered windows the two clipped differences the code adds are the
    lengths of the intersections. *)
Lemma ploidy_segment_spec c cov start end_ cn :
  arm_ordered c -> start < end_ ->
  exists cov',
    ploidy_segment c cov start end_ cn = Ok cov' /\
    weigh cov' = weigh cov + cn * arm_overlap c start end_.
Proof.
  intros (ps & pe & qs & qe & Hps & Hpe & Hqs & Hqe & H1 & H2 & H3 & H4) Hse.
  unfold ploidy_segment, arm_overlap, overlap.
  rewrite Hps, Hpe, Hqs, Hqe. cbn [known mbind result_bind default]. unfold id.
  rewrite !Z.gtb_ltb.
  destruct (Z.ltb_spec end_ ps); cbn [mbind result_bind].
  { eexists. split; [done|].
    replace (Z.max 0 (Z.min end_ pe - Z.max start ps)) with 0 by lia.
    replace (Z.max 0 (Z.min end_ qe - Z.max start qs)) with 0 by lia. lia. }
  destruct (Z.ltb_spec qe start).
  { eexists. split; [done|].
    replace (Z.max 0 (Z.min end_ pe - Z.max start ps)) with 0 by lia.
    replace (Z.max 0 (Z.min end_ qe - Z.max start qs)) with 0 by lia. lia. }
  destruct (Z.ltb_spec start pe), (Z.ltb_spec qs end_);
    destruct (Z.ltb_spec ps start), (Z.ltb_spec end_ pe),
      (Z.ltb_spec qs start), (Z.ltb_spec end_ qe);
    eexists; (split; [done|]); rewrite ?weigh_cov_add;
    match goal with
    | |- ?w + cn * ?A + cn * ?B = ?w + cn * (?T1 + ?T2) =>
        replace T1 with A by lia; replace T2 with B by lia; lia
    | |- ?w + cn * ?A = ?w + cn * ?T => replace T with A by lia; lia
    | |- ?w = ?w + cn * ?T => replace T with 0 by lia; lia
    end.
Qed.

Lemma ploidy_segments_spec c rows : forall cov,
  arm_ordered c -> Forall row_proper rows ->
  exists cov',
    ploidy_segments c cov rows = Ok cov' /\
    weigh cov' = weigh cov +
      foldr (fun row acc' =>
               let '(start, end_, cn) := row in
               id cn * arm_overlap c start end_ + acc') 0 rows.
Proof.
  induction rows as [|[[s e] cn] rows IH]; intros cov Hc Hrows.
  - exists cov. split; [done|]. simpl. lia.
  - apply Forall_cons in Hrows as [Hrow Hrows]. simpl in Hrow.
    destruct (ploidy_segment_spec c cov s e cn Hc Hrow) as (cov1 & Heq1 & Hw1).
    destruct (IH cov1 Hc Hrows) as (cov2 & Heq2 & Hw2).
    exists cov2. cbn [ploidy_segments foldr]. rewrite Heq1.
    cbn [mbind result_bind]. split; [done|]. unfold id in *. lia.
Qed.

Lemma zip3_columns L :
  zip3 (seg_start <$> L) (seg_end <$> L) (seg_cn <$> L)
  = (fun x => (seg_start x, seg_end x, seg_cn x)) <$> L.
Proof.
  induction L as [|x L IH]; [done|].
  rewrite !fmap_cons. cbn [zip3]. by rewrite IH.
Qed.

(** What the loop reads for a name, on a consolidated sample. *)
Lemma wf_rows self name :
  wf_sample self ->
  match starts self !! name with
  | None => rows_of self name = []
  | Some ss =>
      exists es cs,
        ends self !! name = Some es /\ cn_states self !! name = Some cs /\
        rows_of self name = zip3 ss es cs /\ Forall row_proper (zip3 ss es cs)
  end.
Proof.
  intros Hwf. pose proof (Hwf name) as H. unfold wf_chrom in H.
  unfold rows_of. destruct (len_seg self !! name).
  - destruct H as (L & lo & Hs & He & Hc & Hpart). rewrite Hs.
    exists (seg_end <$> L), (seg_cn <$> L). rewrite He, Hc.
    split; [done|]. split; [done|]. split; [done|]. cbv beta iota.
    rewrite zip3_columns. apply Forall_fmap.
    apply PartitionFacts.partition_proper in Hpart.
    eapply Forall_impl; [exact Hpart|]. by intros x Hx.
  - destruct H as (Hs & He & Hc). by rewrite Hs.
Qed.

(** The placeholder of an unset q arm. *)
Lemma fill_q_unset c :
  Chromosome.q_start c = None ->
  Chromosome.q_end (fill_placeholder c) = Some (-100000) /\
  is_Some (Chromosome.p_start (fill_placeholder c)).
Proof.
  intros Hq. unfold fill_placeholder.
  destruct (Chromosome.p_start c) eqn:Hp; simpl; rewrite Hq; simpl; by rewrite ?Hp.
Qed.

Lemma fill_chrom c :
  Chromosome.chrom (fill_placeholder c) = Chromosome.chrom c.
Proof.
  unfold fill_placeholder.
  by destruct (Chromosome.p_start c), (Chromosome.q_start c).
Qed.

(** Behind that placeholder every segment is out of range. *)
Lemma ploidy_segments_out_of_range c rows cov :
  is_Some (Chromosome.p_start c) -> Chromosome.q_end c = Some (-100000) ->
  Forall (fun row : Z * Z * Z => -100000 < row.1.1) rows ->
  ploidy_segments c cov rows = Ok cov.
Proof.
  intros [ps Hps] Hqe Hrows.
  induction rows as [|[[start end_] cn] rows IH]; [done|].
  apply Forall_cons in Hrows as [Hrow Hrows]. simpl in Hrow.
  cbn [ploidy_segments]. unfold ploidy_segment. rewrite Hps, Hqe.
  cbn [known mbind result_bind].
  destruct (end_ <? ps); cbn [mbind result_bind]; [by apply IH|].
  destruct (Z.gtb_spec start (-100000)); [|lia].
  cbn [mbind result_bind]. by apply IH.
Qed.

Lemma ploidy_chromosomes_spec self arm_coords : forall cov g,
  wf_sample self ->
  Forall (fun kc => arm_counted self kc.2) arm_coords ->
  exists cov',
    ploidy_chromosomes self arm_coords cov g
    = (prod_map id fill_placeholder <$> arm_coords,
       Ok (cov', g + genome_length arm_coords)) /\
    weigh cov' = weigh cov + weighted_overlap id self arm_coords.
Proof.
  induction arm_coords as [|[k c] arms IH]; intros cov g Hwf Harms.
  - exists cov. simpl. split; [by rewrite Z.add_0_r|lia].
  - apply Forall_cons in Harms as [Hc Harms]. unfold arm_counted in Hc.
    cbn [snd] in Hc.
    cbn [ploidy_chromosomes weighted_overlap genome_length foldr snd].
    rewrite (fill_chrom c) in *.
    set (c' := fill_placeholder c) in *.
    set (name := sample_chrom_name self (Chromosome.chrom c)) in *.
    pose proof (wf_rows self name Hwf) as Hrows.
    assert (exists cov1,
              match starts self !! name with
              | Some chrom_starts =>
                  chrom_ends ← getitem (ends self) name;
                  chrom_cn ← getitem (cn_states self) name;
                  ploidy_segments c' cov (zip3 chrom_starts chrom_ends chrom_cn)
              | None => Ok cov
              end = Ok cov1 /\
              weigh cov1 = weigh cov +
                match Chromosome.q_start c with
                | Some _ =>
                    foldr (fun row acc' =>
                             let '(start, end_, cn) := row in
                             id cn * arm_overlap c' start end_ + acc')
                      0 (rows_of self name)
                | None => 0
                end) as (cov1 & Heq1 & Hw1).
    { destruct (starts self !! name) as [ss|] eqn:Hss.
      - destruct Hrows as (es & cs & He & Hcs & Hrows & Hprop).
        unfold getitem. rewrite He, Hcs. cbn [mbind result_bind].
        rewrite Hrows in *.
        destruct (Chromosome.q_start c) eqn:Hq.
        + by apply ploidy_segments_spec.
        + destruct (fill_q_unset c Hq) as [Hqe Hps].
          exists cov. split; [|lia]. by apply ploidy_segments_out_of_range.
      - exists cov. split; [done|]. rewrite Hrows. cbn [foldr].
        destruct (Chromosome.q_start c); lia. }
    rewrite Heq1.
    destruct (IH cov1 (g + Chromosome.p_length c' + Chromosome.q_length c')
                Hwf Harms) as (cov2 & Heq2 & Hw2).
    rewrite Heq2. exists cov2. split.
    + simpl. do 3 f_equal. unfold genome_length. lia.
    + unfold weighted_overlap in *. lia.
Qed.

End PloidyFacts.

(** C2 (amended). On a consolidated sample whose ploidy is still to be
    computed (or is recomputed), the normaliser caches [round(S1 / G)] and
    raises the invalid-ploidy error when that value is below 1.  [S1] sums
    [cn * overlap length] over the chromosomes of the arm table that have a
    q arm and the segments stored for them (overlap with the p window plus
    overlap with the q window, an unset p arm standing as the placeholder);
    the windows of such a chromosome are ordered.  A chromosome without q
    arm, whose segments start after -100000, adds nothing to [S1]: the
    placeholder of its q arm puts every segment out of range.  [G] is the
    genome size, the sum of [p_length + q_length] over the whole arm table
    with an unset arm counting 1, and is not zero.  [S1] stays below
    [2^52] in absolute value, where rounding the exact quotient and
    rounding the binary64 quotient of the code give the same integer.  For
    one segment with [cn = 4] covering a genome of size 100 the ploidy is 4
    and the segment then reads [cn = 2]. *)
Theorem ploidy_weighted_average :
  ploidy_rule (fun _ arm_coords => genome_length arm_coords) /\
  (self ← add init "1" 0 100 4;
   let '(_, self', outcome) := adjust_ploidy self genome100 "T1" false in
   Ok (outcome, ploidy self', cn_states self' !! "1"%string))
  = Ok (Ok tt, Some 4, Some [2]).
Proof.
  split; [|by vm_compute].
  intros self arm_coords sample_name redo Hwf Harms Hfirst Hden _. cbv zeta.
  unfold adjust_ploidy.
  assert (bool_decide (is_Some (ploidy self)) && negb redo = false) as ->.
  { destruct Hfirst as [-> | ->]; [done|]. by rewrite andb_false_r. }
  destruct (PloidyFacts.ploidy_chromosomes_spec self arm_coords ∅ 0 Hwf Harms)
    as (cov' & Heq & Hw).
  rewrite Heq. fold (weigh cov'). rewrite Hw.
  unfold weigh at 1. rewrite map_fold_empty. rewrite !Z.add_0_l.
  destruct (Z.eqb_spec (genome_length arm_coords) 0) as [?|_]; [done|].
  by destruct (_ <? 1).
Qed.

(** Four copies of chromosome 1 and four of the p arm of chromosome 2, which
    the table knows without its q arm: [S1 = 400], [G = 100 + 50 + 1] and
    the ploidy is 3. *)
Lemma ploidy_weighted_average_witness :
  exists self,
    add_all init [("1"%string, 0, 100, 4); ("2"%string, 0, 50, 4)] = Ok self /\
    wf_sample self /\
    Forall (fun kc => arm_counted self kc.2) genome100_p /\
    (ploidy self = None \/ false = true) /\
    genome_length genome100_p <> 0 /\
    Z.abs (weighted_overlap id self genome100_p) < 2 ^ 52 /\
    weighted_overlap id self genome100_p = 400 /\
    genome_length genome100_p = 151 /\
    let av := round_div (weighted_overlap id self genome100_p)
                (genome_length genome100_p) in
    let '(_, self', outcome) := adjust_ploidy self genome100_p "T1" false in
    if av <? 1 then outcome = Raise InvalidPloidy
    else outcome = Ok tt /\ ploidy self' = Some av.
Proof.
  destruct (AddFacts.add_all_wf [("1"%string, 0, 100, 4); ("2"%string, 0, 50, 4)]
              init AddFacts.init_wf) as (self & Heq & Hwf).
  { repeat constructor; simpl; lia. }
  exists self.
  assert (self = {| starts := {[ "1"%string := [0]; "2"%string := [0] ]};
                    ends := {[ "1"%string := [100]; "2"%string := [50] ]};
                    cn_states := {[ "1"%string := [4]; "2"%string := [4] ]};
                    len_seg := {[ "1"%string := 1%nat; "2"%string := 1%nat ]};
                    is_chr_prefixed := Some false; ploidy := None |}) as Hself.
  { vm_compute in Heq. injection Heq as <-. by vm_compute. }
  assert (Forall (fun kc => arm_counted self kc.2) genome100_p) as Harms.
  { rewrite Hself. repeat constructor.
    exists 0, 50, 50, 100. simpl. repeat split; lia. }
  assert (ploidy self = None \/ false = true) as Hfirst.
  { left. by rewrite Hself. }
  assert (genome_length genome100_p <> 0) as Hden by (by vm_compute).
  assert (Z.abs (weighted_overlap id self genome100_p) < 2 ^ 52) as Hbound.
  { rewrite Hself. by vm_compute. }
  assert (weighted_overlap id self genome100_p = 400) as HS1.
  { rewrite Hself. by vm_compute. }
  refine (conj Heq (conj Hwf (conj Harms (conj Hfirst (conj Hden
            (conj Hbound (conj HS1 (conj eq_refl _)))))))).
  exact (proj1 ploidy_weighted_average self genome100_p "T1"%string false
           Hwf Harms Hfirst Hden Hbound).
Defined.

(** With the denominator read as the sum of the overlap lengths the rule
    fails: a segment [0, 50) with [cn = 4] on the genome of size 100 has
    weighted overlap 200 and overlap 50, yet the ploidy cached is 2. *)
Lemma ploidy_overlap_denominator_counterexample :
  ~ ploidy_rule (weighted_overlap (fun _ => 1)).
Proof.
  intros H.
  destruct (AddFacts.add_wf init "1" 0 50 4 AddFacts.init_wf ltac:(lia))
    as (self & Heq & Hwf).
  vm_compute in Heq. injection Heq as <-.
  specialize (H _ genome100 "T1"%string false Hwf).
  assert (Forall (fun kc => arm_counted
                    {| starts := {[ "1"%string := [0] ]};
                       ends := {[ "1"%string := [50] ]};
                       cn_states := {[ "1"%string := [4] ]};
                       len_seg := {[ "1"%string := 1%nat ]};
                       is_chr_prefixed := Some false; ploidy := None |} kc.2)
            genome100) as Harms.
  { repeat constructor. exists 0, 50, 50, 100. simpl. repeat split; lia. }
  specialize (H Harms (or_introl eq_refl)).
  vm_compute in H.
  assert (Some 2 = Some 4) as Habs; [|discriminate Habs].
  apply H; [discriminate|reflexivity].
Qed.

(** C10. When the normaliser raises, in particular because the computed
    ploidy is below 1, the sample is left exactly as it was: its segment
    lists and its cached ploidy are those it had before the call. *)
Theorem ploidy_failure_leaves_sample
    (self : SampleCNVs) (arm_coords : odict Chromosome.t)
    (sample_name : string) (redo : bool)
    (arm_coords' : odict Chromosome.t) (self' : SampleCNVs) (ex : exn) :
  adjust_ploidy self arm_coords sample_name redo = (arm_coords', self', Raise ex) ->
  self' = self.
Proof.
  unfold adjust_ploidy. intros H.
  destruct (_ && _); [by injection H|].
  destruct (ploidy_chromosomes self arm_coords ∅ 0) as [arms [[cov g]|ex']];
    [|by injection H].
  destruct (g =? 0); [by injection H|].
  destruct (_ <? 1); [by injection H|].
  by injection H.
Qed.

Lemma ploidy_failure_leaves_sample_witness :
  exists self,
    add init "1" 0 100 0 = Ok self /\
    adjust_ploidy self genome100 "T1" false
    = (genome100, self, Raise InvalidPloidy) /\
    self = self.
Proof.
  destruct (add init "1" 0 100 0) as [self|] eqn:Heq; [|by vm_compute in Heq].
  exists self.
  assert (adjust_ploidy self genome100 "T1" false
          = (genome100, self, Raise InvalidPloidy)) as H.
  { vm_compute in Heq. injection Heq as <-. by vm_compute. }
  refine (conj eq_refl (conj H _)).
  exact (ploidy_failure_leaves_sample self genome100 "T1"%string false
           genome100 self InvalidPloidy H).
Defined.

(** ** The shared tables *)

Module TableFacts.



End TableFacts.




(** ** Classifier: the overlap sums of a consolidated chromosome *)

Module TallyFacts.

Lemma bump_zero side d : bump side 0 d = d.
Proof. destruct d, side; unfold bump; simpl; by rewrite ?Z.add_0_r. Qed.

Lemma tally_zero side cn sums : tally side cn 0 sums = sums.
Proof.
  destruct sums. unfold tally. simpl. rewrite !bump_zero.
  destruct (cn <? 2), (cn <? 1), (cn >? 2), (cn >? 3); done.
Qed.

(** On ordered windows the loop body adds to the sums the lengths of the
    intersections with the two windows. *)
Lemma tally_segment_overlap c sums start end_ cn :
  arm_ordered c -> start < end_ -> cn <> 2 ->
  exists a b,
    tally_segment c sums start end_ cn = Ok (tally arm_q cn b (tally arm_p cn a sums)) /\
    (forall ps pe, Chromosome.p_start c = Some ps -> Chromosome.p_end c = Some pe ->
                   a = overlap start end_ ps pe) /\
    (forall qs qe, Chromosome.q_start c = Some qs -> Chromosome.q_end c = Some qe ->
                   b = overlap start end_ qs qe).
Proof.
  intros (ps & pe & qs & qe & Hps & Hpe & Hqs & Hqe & H1 & H2 & H3 & H4) Hse Hcn.
  exists (overlap start end_ ps pe), (overlap start end_ qs qe).
  split; [|split; intros ? ? ? ?; congruence].
  unfold tally_segment, overlap.
  destruct (Z.eqb_spec cn 2) as [?|_]; [done|].
  rewrite Hps, Hpe, Hqs, Hqe. cbn [known mbind result_bind].
  rewrite !Z.gtb_ltb.
  destruct (Z.ltb_spec end_ ps); cbn [mbind result_bind].
  { replace (Z.max 0 (Z.min end_ pe - Z.max start ps)) with 0 by lia.
    replace (Z.max 0 (Z.min end_ qe - Z.max start qs)) with 0 by lia.
    by rewrite !tally_zero. }
  destruct (Z.ltb_spec qe start).
  { replace (Z.max 0 (Z.min end_ pe - Z.max start ps)) with 0 by lia.
    replace (Z.max 0 (Z.min end_ qe - Z.max start qs)) with 0 by lia.
    by rewrite !tally_zero. }
  assert ((if start <? pe
           then tally arm_p cn ((if end_ <? pe then end_ else pe)
                                - (if ps <? start then start else ps)) sums
           else sums)
          = tally arm_p cn (Z.max 0 (Z.min end_ pe - Z.max start ps)) sums) as ->.
  { destruct (Z.ltb_spec start pe).
    - f_equal. destruct (Z.ltb_spec end_ pe), (Z.ltb_spec ps start); lia.
    - replace (Z.max 0 (Z.min end_ pe - Z.max start ps)) with 0 by lia.
      by rewrite tally_zero. }
  destruct (Z.ltb_spec qs end_).
  - do 2 f_equal. destruct (Z.ltb_spec end_ qe), (Z.ltb_spec qs start); lia.
  - replace (Z.max 0 (Z.min end_ qe - Z.max start qs)) with 0 by lia.
    by rewrite tally_zero.
Qed.

Lemma overlap_covered ws we lo s e :
  ws <= we -> lo <= s -> s < e ->
  0 <= overlap s e ws we <= covered ws we e - covered ws we lo.
Proof. unfold overlap, covered. lia. Qed.

Lemma tally_inv_step roomp roomq sums cn a b :
  tally_inv roomp roomq sums -> 0 <= a -> 0 <= b ->
  tally_inv (roomp + a) (roomq + b) (tally arm_q cn b (tally arm_p cn a sums)).
Proof.
  destruct sums as [[? ? ?] [? ? ?] [? ? ?] [? ? ?]].
  unfold tally_inv, fits, tally, bump. simpl. rewrite !Z.gtb_ltb.
  intros H Ha Hb.
  destruct (Z.ltb_spec cn 2), (Z.ltb_spec cn 1), (Z.ltb_spec 2 cn),
    (Z.ltb_spec 3 cn); simpl; lia.
Qed.

Lemma tally_inv_weaken roomp roomq roomp' roomq' sums :
  tally_inv roomp roomq sums -> roomp <= roomp' -> roomq <= roomq' ->
  tally_inv roomp' roomq' sums.
Proof. unfold tally_inv, fits. lia. Qed.

Lemma tally_segments_inv c ps pe qs qe L : forall lo sums,
  arm_ordered c ->
  Chromosome.p_start c = Some ps -> Chromosome.p_end c = Some pe ->
  Chromosome.q_start c = Some qs -> Chromosome.q_end c = Some qe ->
  partition_from lo L ->
  tally_inv (covered ps pe lo) (covered qs qe lo) sums ->
  exists sums',
    tally_segments c sums ((fun x => (seg_start x, seg_end x, seg_cn x)) <$> L)
    = Ok sums' /\
    tally_inv (pe - ps) (qe - qs) sums'.
Proof.
  induction L as [|x L IH]; intros lo sums Hc Hps Hpe Hqs Hqe Hpart Hinv;
    assert (ps <= pe /\ qs <= qe) as [Hp Hq]
      by (destruct Hc as (ps' & pe' & qs' & qe' & ? & ? & ? & ? & ? & ? & ? & ?);
          simplify_eq; lia).
  - exists sums. split; [done|].
    eapply tally_inv_weaken; [exact Hinv|unfold covered; lia..].
  - destruct Hpart as (H1 & H2 & H3).
    rewrite fmap_cons. cbn [tally_segments].
    pose proof (overlap_covered ps pe lo _ _ Hp H1 H2) as Ha.
    pose proof (overlap_covered qs qe lo _ _ Hq H1 H2) as Hb.
    destruct (decide (seg_cn x = 2)) as [Hcn|Hcn].
    + unfold tally_segment at 1. rewrite Hcn. simpl Z.eqb. cbv iota.
      cbn [mbind result_bind].
      apply (IH (seg_end x)); try done.
      eapply tally_inv_weaken; [exact Hinv|lia..].
    + destruct (tally_segment_overlap c sums _ _ _ Hc H2 Hcn)
        as (a & b & -> & Hoa & Hob).
      cbn [mbind result_bind].
      apply (IH (seg_end x)); try done.
      rewrite (Hoa _ _ Hps Hpe), (Hob _ _ Hqs Hqe).
      eapply tally_inv_weaken; [apply tally_inv_step; [exact Hinv|lia..]|lia..].
Qed.

End TallyFacts.

(** ** Classifier: the three keys of [events] *)

Module SlotFacts.

Lemma append_inj (name a b : string) :
  (name ++ a)%string = (name ++ b)%string -> a = b.
Proof.
  induction name as [|ch name IH]; simpl; [done|].
  intros H. injection H as H. by apply IH.
Qed.

Lemma key_Chrom_p name : (name ++ "Chrom")%string <> (name ++ "p")%string.
Proof. by intros H%append_inj. Qed.

Lemma key_Chrom_q name : (name ++ "Chrom")%string <> (name ++ "q")%string.
Proof. by intros H%append_inj. Qed.

Lemma key_p_q name : (name ++ "p")%string <> (name ++ "q")%string.
Proof. by intros H%append_inj. Qed.

Lemma lookup_to_events name s k :
  to_events name s !! k
  = if decide ((name ++ "q")%string = k) then slot_q s
    else if decide ((name ++ "p")%string = k) then slot_p s
    else if decide ((name ++ "Chrom")%string = k) then slot_Chrom s
    else None.
Proof.
  pose proof (key_Chrom_p name). pose proof (key_Chrom_q name).
  pose proof (key_p_q name).
  destruct s as [[c|] [p|] [q|]]; unfold to_events, put; simpl;
    rewrite ?lookup_insert, ?lookup_empty; repeat case_decide;
    simplify_eq; done.
Qed.

Lemma lookup_Chrom name s : to_events name s !! (name ++ "Chrom")%string = slot_Chrom s.
Proof.
  pose proof (key_Chrom_p name). pose proof (key_Chrom_q name).
  rewrite lookup_to_events. repeat case_decide; simplify_eq; done.
Qed.

Lemma lookup_p name s : to_events name s !! (name ++ "p")%string = slot_p s.
Proof.
  pose proof (key_p_q name).
  rewrite lookup_to_events. repeat case_decide; simplify_eq; done.
Qed.

Lemma lookup_q name s : to_events name s !! (name ++ "q")%string = slot_q s.
Proof. rewrite lookup_to_events. by rewrite decide_True. Qed.

Lemma insert_Chrom name v s :
  <[(name ++ "Chrom")%string := v]> (to_events name s)
  = to_events name (mkSlots (Some v) (slot_p s) (slot_q s)).
Proof.
  pose proof (key_Chrom_p name). pose proof (key_Chrom_q name).
  apply map_eq. intros k. rewrite lookup_insert, !lookup_to_events. simpl.
  repeat case_decide; simplify_eq; done.
Qed.

Lemma insert_p name v s :
  <[(name ++ "p")%string := v]> (to_events name s)
  = to_events name (mkSlots (slot_Chrom s) (Some v) (slot_q s)).
Proof.
  pose proof (key_p_q name).
  apply map_eq. intros k. rewrite lookup_insert, !lookup_to_events. simpl.
  repeat case_decide; simplify_eq; done.
Qed.

Lemma insert_q name v s :
  <[(name ++ "q")%string := v]> (to_events name s)
  = to_events name (mkSlots (slot_Chrom s) (slot_p s) (Some v)).
Proof.
  apply map_eq. intros k. rewrite lookup_insert, !lookup_to_events. simpl.
  repeat case_decide; simplify_eq; done.
Qed.

Lemma empty_events name : ∅ = to_events name (mkSlots None None None).
Proof. done. Qed.

Lemma filter_to_events (f : event -> bool) name s :
  filter (fun kv : string * event => f kv.2 = true) (to_events name s)
  = to_events name
      (mkSlots (keep f (slot_Chrom s)) (keep f (slot_p s)) (keep f (slot_q s))).
Proof.
  apply map_eq. intros k.
  rewrite map_lookup_filter, !lookup_to_events.
  destruct s as [[c|] [p|] [q|]]; cbn [slot_Chrom slot_p slot_q keep];
    repeat case_decide; cbn [mbind option_bind snd]; try done;
    match goal with |- context [f ?e] => destruct (f e) eqn:Hf end;
    case_guard; simpl; congruence.
Qed.

End SlotFacts.

(** ** Classifier: the two families *)

Module ClassifyFacts.
Import SlotFacts.

Lemma exceeds_pos covered length t :
  0 < length -> exceeds covered length t = Ok (crosses t covered length).
Proof.
  intros H. unfold exceeds, crosses.
  destruct (Z.eqb_spec length 0); [lia|].
  by destruct (Z.ltb_spec 0 length); [|lia].
Qed.

Lemma family_events_slots name c t high low HIGH LOW s :
  0 < Chromosome.p_length c -> 0 < Chromosome.q_length c ->
  family_events name c t high low HIGH LOW (to_events name s)
  = Ok (to_events name
          (family_slots
             (crosses t (at_Chrom high)
                (Chromosome.p_length c + Chromosome.q_length c))
             (crosses t (at_p high) (Chromosome.p_length c))
             (crosses t (at_q high) (Chromosome.q_length c))
             (crosses t (at_Chrom low)
                (Chromosome.p_length c + Chromosome.q_length c))
             (crosses t (at_p low) (Chromosome.p_length c))
             (crosses t (at_q low) (Chromosome.q_length c))
             HIGH LOW s)).
Proof.
  intros HP HQ. unfold family_events, free_and_exceeds.
  rewrite !exceeds_pos by lia.
  generalize (crosses t (at_Chrom high)
                (Chromosome.p_length c + Chromosome.q_length c)).
  generalize (crosses t (at_p high) (Chromosome.p_length c)).
  generalize (crosses t (at_q high) (Chromosome.q_length c)).
  generalize (crosses t (at_Chrom low)
                (Chromosome.p_length c + Chromosome.q_length c)).
  generalize (crosses t (at_p low) (Chromosome.p_length c)).
  generalize (crosses t (at_q low) (Chromosome.q_length c)).
  intros lq lp lC hq hp hC. destruct s as [sC sp sq].
  unfold family_slots.
  destruct hC, hp, hq; cbn [mbind result_bind];
    rewrite ?insert_Chrom, ?insert_p, ?insert_q;
    cbn [slot_Chrom slot_p slot_q]; try done;
    rewrite lookup_Chrom; cbn [slot_Chrom slot_p slot_q];
    destruct sC, lC; cbn [mbind result_bind free andb];
    rewrite ?insert_Chrom; cbn [slot_Chrom slot_p slot_q]; try done;
    rewrite lookup_p; cbn [slot_Chrom slot_p slot_q];
    destruct sp, lp; cbn [mbind result_bind free andb];
    rewrite ?insert_p; cbn [slot_Chrom slot_p slot_q];
    rewrite lookup_q; cbn [slot_Chrom slot_p slot_q];
    destruct sq, lq; cbn [mbind result_bind free andb];
    rewrite ?insert_q; cbn [slot_Chrom slot_p slot_q]; done.
Qed.

Lemma loss_slots_independent gC gp gq aC ap aq dC dp dq hC hp hq :
  apart gC gp gq aC ap aq dC dp dq hC hp hq = true ->
  keep_all is_loss_label (classify_slots gC gp gq aC ap aq dC dp dq hC hp hq)
  = keep_all is_loss_label
      (classify_slots false false false false false false dC dp dq hC hp hq).
Proof.
  destruct gC, gp, gq, aC, ap, aq, dC, dp, dq, hC, hp, hq;
    intros H; try discriminate H; reflexivity.
Qed.

Lemma gain_slots_independent gC gp gq aC ap aq dC dp dq hC hp hq :
  apart gC gp gq aC ap aq dC dp dq hC hp hq = true ->
  keep_all is_gain_label (classify_slots gC gp gq aC ap aq dC dp dq hC hp hq)
  = keep_all is_gain_label
      (classify_slots gC gp gq aC ap aq false false false false false false).
Proof.
  destruct gC, gp, gq, aC, ap, aq, dC, dp, dq, hC, hp, hq;
    intros H; try discriminate H; reflexivity.
Qed.

Lemma classify_events_slots name c t sums :
  0 < Chromosome.p_length c -> 0 < Chromosome.q_length c ->
  classify_events name c t sums
  = Ok (to_events name
          (classify_slots
             (crosses t (at_Chrom (gain_sum sums))
                (Chromosome.p_length c + Chromosome.q_length c))
             (crosses t (at_p (gain_sum sums)) (Chromosome.p_length c))
             (crosses t (at_q (gain_sum sums)) (Chromosome.q_length c))
             (crosses t (at_Chrom (amp_sum sums))
                (Chromosome.p_length c + Chromosome.q_length c))
             (crosses t (at_p (amp_sum sums)) (Chromosome.p_length c))
             (crosses t (at_q (amp_sum sums)) (Chromosome.q_length c))
             (crosses t (at_Chrom (del_sum sums))
                (Chromosome.p_length c + Chromosome.q_length c))
             (crosses t (at_p (del_sum sums)) (Chromosome.p_length c))
             (crosses t (at_q (del_sum sums)) (Chromosome.q_length c))
             (crosses t (at_Chrom (homdel_sum sums))
                (Chromosome.p_length c + Chromosome.q_length c))
             (crosses t (at_p (homdel_sum sums)) (Chromosome.p_length c))
             (crosses t (at_q (homdel_sum sums)) (Chromosome.q_length c)))).
Proof.
  intros HP HQ. unfold classify_events.
  rewrite (empty_events name), family_events_slots by done.
  cbn [mbind result_bind]. by rewrite family_events_slots.
Qed.

(** With a threshold of at least one half, two sums that fit together in a
    window cannot both cross it. *)
Lemma key_apart t gain amp del homdel room len :
  fits gain amp del homdel room -> room <= len -> 0 < len ->
  (1 # 2 <= t)%Q ->
  negb ((crosses t gain len || crosses t amp len) &&
        (crosses t del len || crosses t homdel len)) = true.
Proof.
  unfold fits, crosses, Qle. simpl. intros H Hroom Hlen Ht.
  destruct (Z.ltb_spec (Qnum t * len) (gain * Zpos (Qden t))),
    (Z.ltb_spec (Qnum t * len) (amp * Zpos (Qden t))),
    (Z.ltb_spec (Qnum t * len) (del * Zpos (Qden t))),
    (Z.ltb_spec (Qnum t * len) (homdel * Zpos (Qden t)));
    simpl; try done; exfalso; nia.
Qed.

Lemma zero_crosses t len : 0 < len -> (1 # 2 <= t)%Q -> crosses t 0 len = false.
Proof.
  unfold crosses, Qle. simpl. intros Hlen Ht.
  apply Z.ltb_ge. nia.
Qed.

Lemma wf_columns self name ss :
  wf_sample self -> starts self !! name = Some ss ->
  exists L lo,
    ss = seg_start <$> L /\ ends self !! name = Some (seg_end <$> L) /\
    cn_states self !! name = Some (seg_cn <$> L) /\ partition_from lo L.
Proof.
  intros Hwf Hs. pose proof (Hwf name) as H. unfold wf_chrom in H.
  destruct (len_seg self !! name).
  - destruct H as (L & lo & Hs' & He & Hc & Hpart).
    exists L, lo. split; [congruence|done].
  - destruct H as (Hs' & _). congruence.
Qed.

End ClassifyFacts.

(** C3 (amended). For every consolidated profile, every arm definition
    with ordered windows and positive lengths, and every threshold of at
    least one half (the default 0.8 among them), the two families of the
    classifier are independent: the loss-family labels emitted are those
    emitted when all gain-family sums are zero, and the gain-family labels
    those emitted when all loss-family sums are zero.  Both families may
    populate different keys of one chromosome: a gain over the p arm and a
    loss over the q arm give [GAIN] at the p key and [HETLOSS] at the q
    key. *)
Theorem classify_families_independent :
  families_independent (fun t => (1 # 2 <= t)%Q) /\
  (self ← add_all init [("1"%string, 0, 45, 3); ("1"%string, 50, 95, 1)];
   events ← overlap_chrom self chromosome100 default_threshold;
   Ok (events !! "1p"%string, events !! "1q"%string, events !! "1Chrom"%string))
  = Ok (Some GAIN, Some HETLOSS, None).
Proof.
  split; [|by vm_compute].
  intros self c t Hwf Hord Hsized Ht.
  unfold overlap_chrom, overlap_chrom_with.
  set (name := sample_chrom_name self (Chromosome.chrom c)).
  destruct (starts self !! name) as [ss|] eqn:Hss; [|done].
  destruct (ClassifyFacts.wf_columns self name ss Hwf Hss)
    as (L & lo & -> & He & Hc & Hpart).
  unfold getitem. rewrite He, Hc. cbn [mbind result_bind].
  rewrite PloidyFacts.zip3_columns.
  pose proof Hord as (ps & pe & qs & qe & Hps & Hpe & Hqs & Hqe & ? & ? & ? & ?).
  destruct Hsized as (HP & HQ & HlenP & HlenQ).
  specialize (HlenP _ _ Hps Hpe). specialize (HlenQ _ _ Hqs Hqe).
  destruct (TallyFacts.tally_segments_inv c ps pe qs qe L lo no_sums)
    as (sums & -> & Hinv); try done.
  { unfold tally_inv, fits, covered. simpl. lia. }
  cbn [mbind result_bind].
  rewrite !ClassifyFacts.classify_events_slots by done.
  cbn [fmap result_fmap]. unfold loss_labels, gain_labels.
  rewrite !SlotFacts.filter_to_events.
  cbn [no_gain no_loss gain_sum amp_sum del_sum homdel_sum at_p at_q at_Chrom].
  rewrite !ClassifyFacts.zero_crosses by (done || lia).
  destruct Hinv as (Hp & Hq & HC).
  assert (apart
    (crosses t (at_Chrom (gain_sum sums))
       (Chromosome.p_length c + Chromosome.q_length c))
    (crosses t (at_p (gain_sum sums)) (Chromosome.p_length c))
    (crosses t (at_q (gain_sum sums)) (Chromosome.q_length c))
    (crosses t (at_Chrom (amp_sum sums))
       (Chromosome.p_length c + Chromosome.q_length c))
    (crosses t (at_p (amp_sum sums)) (Chromosome.p_length c))
    (crosses t (at_q (amp_sum sums)) (Chromosome.q_length c))
    (crosses t (at_Chrom (del_sum sums))
       (Chromosome.p_length c + Chromosome.q_length c))
    (crosses t (at_p (del_sum sums)) (Chromosome.p_length c))
    (crosses t (at_q (del_sum sums)) (Chromosome.q_length c))
    (crosses t (at_Chrom (homdel_sum sums))
       (Chromosome.p_length c + Chromosome.q_length c))
    (crosses t (at_p (homdel_sum sums)) (Chromosome.p_length c))
    (crosses t (at_q (homdel_sum sums)) (Chromosome.q_length c)) = true)
    as Hapart.
  { unfold apart.
    rewrite (ClassifyFacts.key_apart t _ _ _ _ _ _ HC) by (done || lia).
    rewrite (ClassifyFacts.key_apart t _ _ _ _ _ _ Hp) by (done || lia).
    by rewrite (ClassifyFacts.key_apart t _ _ _ _ _ _ Hq) by (done || lia). }
  split; do 2 f_equal.
  - by apply (ClassifyFacts.loss_slots_independent _ _ _ _ _ _ _ _ _ _ _ _ Hapart).
  - by apply (ClassifyFacts.gain_slots_independent _ _ _ _ _ _ _ _ _ _ _ _ Hapart).
Qed.

Lemma classify_families_independent_witness :
  exists self,
    add_all init [("1"%string, 0, 45, 3); ("1"%string, 50, 95, 1)] = Ok self /\
    wf_sample self /\ arm_ordered chromosome100 /\ arm_sized chromosome100 /\
    (1 # 2 <= default_threshold)%Q /\
    loss_labels <$> overlap_chrom self chromosome100 default_threshold
    = loss_labels <$> overlap_chrom_with no_gain self chromosome100 default_threshold /\
    gain_labels <$> overlap_chrom self chromosome100 default_threshold
    = gain_labels <$> overlap_chrom_with no_loss self chromosome100 default_threshold.
Proof.
  destruct (AddFacts.add_all_wf
              [("1"%string, 0, 45, 3); ("1"%string, 50, 95, 1)] init
              AddFacts.init_wf) as (self & Heq & Hwf).
  { repeat constructor; simpl; lia. }
  exists self.
  assert (arm_ordered chromosome100) as Hord.
  { exists 0, 50, 50, 100. simpl. repeat split; lia. }
  assert (arm_sized chromosome100) as Hsized.
  { unfold arm_sized. simpl. repeat split; try lia; intros; simplify_eq; lia. }
  assert (1 # 2 <= default_threshold)%Q as Ht by (by vm_compute).
  refine (conj Heq (conj Hwf (conj Hord (conj Hsized (conj Ht _))))).
  exact (proj1 classify_families_independent self chromosome100
           default_threshold Hwf Hord Hsized Ht).
Defined.

(** Below one half the families interfere: with a threshold of 0.3, a gain
    over 40% of the chromosome takes the whole-chromosome key, and the loss
    over 40% of it is then reported on the q arm instead. *)
Lemma families_interfere_counterexample :
  ~ families_independent (fun _ => True).
Proof.
  intros H.
  destruct (AddFacts.add_all_wf
              [("1"%string, 0, 40, 3); ("1"%string, 50, 90, 1)] init
              AddFacts.init_wf) as (self & Heq & Hwf).
  { repeat constructor; simpl; lia. }
  vm_compute in Heq. injection Heq as <-.
  assert (arm_ordered chromosome100) as Hord.
  { exists 0, 50, 50, 100. simpl. repeat split; lia. }
  assert (arm_sized chromosome100) as Hsized.
  { unfold arm_sized. simpl. repeat split; try lia; intros; simplify_eq; lia. }
  destruct (H _ chromosome100 (3 # 10)%Q Hwf Hord Hsized I) as [Hloss _].
  assert (forall r1 r2 : result (gmap string event),
            r1 = r2 ->
            match r1 with Ok m => m !! "1q"%string | Raise _ => None end
            = match r2 with Ok m => m !! "1q"%string | Raise _ => None end)
    as Hat by (by intros ? ? ->).
  apply Hat in Hloss. vm_compute in Hloss. discriminate Hloss.
Qed.
(** ** The footprint of the consolidator *)

Module FootprintFacts.
Import PartitionFacts MergeFacts.

Lemma covers_nil x v : ~ covers [] x v.
Proof. intros (g & Hg & _). by apply elem_of_nil in Hg. Qed.

Lemma covers_cons g L x v :
  covers (g :: L) x v <->
  (seg_start g <= x < seg_end g /\ seg_cn g = v) \/ covers L x v.
Proof.
  unfold covers. split.
  - intros (h & Hh & H). apply elem_of_cons in Hh as [->|Hh]; [by left|].
    right. by exists h.
  - intros [H|(h & Hh & H)].
    + exists g. split; [apply elem_of_cons; by left|done].
    + exists h. split; [apply elem_of_cons; by right|done].
Qed.

Lemma covers_app L1 L2 x v :
  covers (L1 ++ L2) x v <-> covers L1 x v \/ covers L2 x v.
Proof.
  unfold covers. split.
  - intros (h & Hh & H). apply elem_of_app in Hh as [Hh|Hh];
      [left|right]; by exists h.
  - intros [(h & Hh & H)|(h & Hh & H)]; exists h;
      (split; [apply elem_of_app; auto|done]).
Qed.

Lemma covers_all (P : Seg -> Prop) L x v :
  Forall P L -> covers L x v ->
  exists g, P g /\ seg_start g <= x < seg_end g /\ seg_cn g = v.
Proof.
  intros HP (g & Hg & H). exists g. split; [|done].
  by apply (proj1 (Forall_forall _ _) HP).
Qed.

Lemma covers_after e L x v : Forall (after e) L -> covers L x v -> e <= x.
Proof.
  intros H Hc. destruct (covers_all _ _ _ _ H Hc) as (g & Hg & Hx & _).
  unfold after in Hg. lia.
Qed.

Lemma covers_before s L x v : Forall (before s) L -> covers L x v -> x < s.
Proof.
  intros H Hc. destruct (covers_all _ _ _ _ H Hc) as (g & Hg & Hx & _).
  unfold before in Hg. lia.
Qed.

Ltac cov :=
  repeat match goal with
    | H : covers [] _ _ |- _ => destruct (covers_nil _ _ H)
    | H : covers (_ :: _) _ _ |- _ => apply covers_cons in H as [[? ?]|H]
    | H : covers (_ ++ _) _ _ |- _ => apply covers_app in H as [H|H]
    end.

Lemma traced_nil s e c : traced [] [mkSeg s e c] s e c.
Proof.
  intros x. split; [|split; [|split]].
  - intros v H. cov. simpl in *. by right.
  - intros v H. cov.
  - intros Hx. exists c. apply covers_cons. by left.
  - intros v H. cov.
Qed.

Section Steps.
Variables (old : Seg) (mid : list Seg).
Hypothesis IH : merge_traced mid.
Variables (fuel : nat) (pre post : list Seg) (lo s e : Z).
Hypothesis Hfuel : (length mid < fuel)%nat.
Hypothesis Hpart : partition_from lo (pre ++ old :: mid ++ post).
Hypothesis Hpre : Forall (before s) pre.
Hypothesis Hold : across s e old.
Hypothesis Hmid : Forall (across s e) mid.
Hypothesis Hpost : Forall (after e) post.
Hypothesis Hlo : lo <= s.
Hypothesis Hse : s < e.

Let Hproper := partition_proper _ _ Hpart.
Let Hbefore := partition_split_before _ _ _ _ Hpart.
Let Hafter := partition_split_after _ _ _ _ Hpart.
Let Hlow := partition_after _ _ Hpart.
Let Hdel := partition_delete _ _ _ _ Hpart.

Lemma mid_after : Forall (after (seg_end old)) mid.
Proof using Hpart. clear -Hafter. pointwise. Qed.

Lemma old_proper : seg_start old < seg_end old.
Proof using Hpart. clear -Hproper. pointwise. Qed.

Lemma equal_traced :
  exists mid',
    merge_on fuel (pre ++ mid ++ post)
      (if seg_start old <? s then seg_start old else s)
      (if seg_end old >? e then seg_end old else e) (seg_cn old)
    = Ok (unzip (pre ++ mid' ++ post)) /\
    partition_from lo (pre ++ mid' ++ post) /\
    traced (old :: mid) mid' s e (seg_cn old).
Proof using All.
  rewrite Z.gtb_ltb.
  pose proof mid_after as Hma. pose proof old_proper as Hop.
  replace (if seg_start old <? s then seg_start old else s)
    with (Z.min (seg_start old) s)
    by (destruct (Z.ltb_spec (seg_start old) s); lia).
  replace (if e <? seg_end old then seg_end old else e)
    with (Z.max (seg_end old) e)
    by (destruct (Z.ltb_spec e (seg_end old)); lia).
  destruct (IH fuel pre post lo (Z.min (seg_start old) s)
              (Z.max (seg_end old) e) (seg_cn old))
    as (mid' & Heq & Hp & Ht); try done; [pointwise .. |].
  exists mid'. split; [done|split; [done|]].
  intros x. destruct (Ht x) as (T1 & T2 & T3 & T4).
  unfold across in Hold.
  assert (seg_start old <= x < seg_end old -> covers mid' x (seg_cn old)) as Hin.
  { intros Hx. destruct T3 as [v' Hv']; [lia|].
    destruct (T1 v' Hv') as [Hc|[_ ->]]; [|done].
    pose proof (covers_after _ _ _ _ Hma Hc). lia. }
  split; [|split; [|split]].
  - intros v Hv. destruct (T1 v Hv) as [Hc|[Hx ->]].
    + left. apply covers_cons. by right.
    + destruct (decide (s <= x < e)); [by right|].
      left. apply covers_cons. left. split; [lia|done].
  - intros v Hv Hout. cov.
    + subst v. by apply Hin.
    + apply T2; [done|].
      pose proof (covers_after _ _ _ _ Hma Hv). lia.
  - intros Hx. apply T3. lia.
  - intros v Hv Hx Hfam. cov.
    + subst v. destruct (outranks _ _); by apply Hin.
    + apply T4; [done|lia|done].
Qed.

Lemma old_traced c :
  (same_family c (seg_cn old) -> outranks (seg_cn old) c = false) ->
  exists mid',
    reduce_old_event (merge_fuel fuel) (length pre)
      (seg_start <$> (pre ++ old :: mid ++ post))
      (seg_end <$> (pre ++ old :: mid ++ post))
      (seg_cn <$> (pre ++ old :: mid ++ post))
      s e c (seg_start old) (seg_end old) (seg_cn old)
    = Ok (unzip (pre ++ mid' ++ post)) /\
    partition_from lo (pre ++ mid' ++ post) /\
    traced (old :: mid) mid' s e c.
Proof using All.
  intros Hrank.
  pose proof mid_after as Hma. pose proof old_proper as Hop.
  rewrite reduce_old_event_eq. cbv zeta.
  change (merge_fuel fuel (seg_start <$> ?L) (seg_end <$> ?L) (seg_cn <$> ?L) s e c)
    with (merge_on fuel L s e c).
  set (l := if seg_start old <? s then [mkSeg (seg_start old) s (seg_cn old)] else []).
  set (r := if e <? seg_end old then [mkSeg e (seg_end old) (seg_cn old)] else []).
  assert (truncate old s e ++ mid ++ post = l ++ mid ++ r ++ post) as Hshape.
  { unfold truncate, cut_left, cut_right. fold l r. rewrite <- app_assoc. f_equal.
    subst r. destruct (Z.ltb_spec e (seg_end old)); [|done].
    destruct mid as [|x mid']; [done|]. exfalso. pointwise. }
  rewrite Hshape.
  assert (Forall (before s) l) as Hl.
  { subst l. destruct (seg_start old <? s); pointwise. }
  assert (Forall (after e) r) as Hr.
  { subst r. destruct (e <? seg_end old); pointwise. }
  assert (partition_from lo (pre ++ l ++ mid ++ r ++ post)) as Hpart'.
  { assert (partition_from lo (pre ++ mid ++ r ++ post)) as H1.
    { subst r. destruct (Z.ltb_spec e (seg_end old)) as [Hlt|Hge]; [|done].
      destruct mid as [|x mid']; [|exfalso; pointwise].
      simpl in *. apply partition_insert; try done; pointwise. }
    subst l. destruct (Z.ltb_spec (seg_start old) s) as [Hlt|Hge]; [|done].
    simpl. apply partition_insert; try done; [pointwise .. | | pointwise].
    subst r. destruct (Z.ltb_spec e (seg_end old)); pointwise. }
  destruct (IH fuel (pre ++ l) (r ++ post) lo s e c) as (mid' & Heq & Hp & Ht);
    try done; rewrite <- ?app_assoc; try done; [pointwise .. |].
  exists (l ++ mid' ++ r). rewrite <- !app_assoc in *.
  split; [done|split; [done|]].
  intros x. destruct (Ht x) as (T1 & T2 & T3 & T4). unfold across in Hold.
  split; [|split; [|split]].
  - intros v Hv. apply covers_app in Hv as [Hv|Hv];
      [|apply covers_app in Hv as [Hv|Hv]].
    + left. apply covers_cons. left. subst l.
      destruct (Z.ltb_spec (seg_start old) s); cov. simpl in *. split; [lia|done].
    + destruct (T1 v Hv) as [Hc|Hin]; [|by right].
      left. apply covers_cons. by right.
    + left. apply covers_cons. left. subst r.
      destruct (Z.ltb_spec e (seg_end old)); cov. simpl in *. split; [lia|done].
  - intros v Hv Hout. apply covers_cons in Hv as [[Hx Hv]|Hv].
    + destruct (decide (x < s)).
      * apply covers_app. left. subst l.
        destruct (Z.ltb_spec (seg_start old) s); [|lia].
        apply covers_cons. left. simpl. split; [lia|done].
      * apply covers_app. right. apply covers_app. right. subst r.
        destruct (Z.ltb_spec e (seg_end old)); [|lia].
        apply covers_cons. left. simpl. split; [lia|done].
    + apply covers_app. right. apply covers_app. left. by apply T2.
  - intros Hx. destruct (T3 Hx) as [v Hv]. exists v.
    apply covers_app. right. apply covers_app. by left.
  - intros v Hv Hx Hfam. apply covers_app. right. apply covers_app. left.
    apply covers_cons in Hv as [[Hxo <-]|Hv]; [|by apply T4].
    rewrite Hrank by done.
    destruct (T3 Hx) as [v' Hv'].
    destruct (T1 v' Hv') as [Hc|[_ ->]]; [|done].
    pose proof (covers_after _ _ _ _ Hma Hc). lia.
Qed.

Lemma new_traced c :
  (same_family c (seg_cn old) -> outranks (seg_cn old) c = true) ->
  exists mid',
    reduce_new_event (merge_fuel fuel)
      (seg_start <$> (pre ++ old :: mid ++ post))
      (seg_end <$> (pre ++ old :: mid ++ post))
      (seg_cn <$> (pre ++ old :: mid ++ post))
      s e c (seg_start old) (seg_end old)
    = Ok (unzip (pre ++ mid' ++ post)) /\
    partition_from lo (pre ++ mid' ++ post) /\
    traced (old :: mid) mid' s e c.
Proof using All.
  intros Hrank.
  pose proof mid_after as Hma. pose proof old_proper as Hop.
  unfold reduce_new_event. cbv zeta.
  set (l := if s <? seg_start old then [mkSeg s (seg_start old) c] else []).
  assert (partition_from lo (pre ++ l ++ old :: mid ++ post)) as Hpart'.
  { subst l. destruct (Z.ltb_spec s (seg_start old)); [|done].
    simpl. apply partition_insert; try done; pointwise. }
  assert ((if s <? seg_start old
           then merge_fuel fuel (seg_start <$> (pre ++ old :: mid ++ post))
                  (seg_end <$> (pre ++ old :: mid ++ post))
                  (seg_cn <$> (pre ++ old :: mid ++ post)) s (seg_start old) c
           else Ok (seg_start <$> (pre ++ old :: mid ++ post),
                    seg_end <$> (pre ++ old :: mid ++ post),
                    seg_cn <$> (pre ++ old :: mid ++ post)))
          = Ok (unzip (pre ++ l ++ old :: mid ++ post))) as ->.
  { subst l. destruct (Z.ltb_spec s (seg_start old)); [|done].
    destruct fuel as [|fuel']; [lia|].
    apply (merge_no_overlap fuel' pre (old :: mid ++ post)); try done; pointwise. }
  cbn [mbind result_bind unzip].
  assert (forall x v, covers l x v -> s <= x < seg_start old /\ v = c) as Hl.
  { intros x v Hv. subst l. destruct (Z.ltb_spec s (seg_start old)); cov.
    simpl in *. split; [lia|done]. }
  assert (forall x, s <= x < seg_start old -> covers l x c) as Hl'.
  { intros x Hx. subst l. destruct (Z.ltb_spec s (seg_start old)); [|lia].
    apply covers_cons. left. simpl. split; [lia|done]. }
  unfold across in Hold.
  destruct (Z.ltb_spec (seg_end old) e) as [Hlt|Hge].
  - change (merge_fuel fuel (seg_start <$> ?L) (seg_end <$> ?L) (seg_cn <$> ?L)
              (seg_end old) e c)
      with (merge_on fuel L (seg_end old) e c).
    destruct (IH fuel (pre ++ l ++ [old]) post lo (seg_end old) e c)
      as (mid' & Heq & Hp & Ht); try done;
      rewrite <- ?app_assoc; simpl; try done.
    + subst l. destruct (Z.ltb_spec s (seg_start old)); pointwise.
    + pointwise.
    + pointwise.
    + exists (l ++ old :: mid'). rewrite <- !app_assoc in *. simpl in *.
      rewrite Heq. split; [done|split; [done|]].
      intros x. destruct (Ht x) as (T1 & T2 & T3 & T4).
      split; [|split; [|split]].
      * intros v Hv. apply covers_app in Hv as [Hv|Hv];
          [|apply covers_cons in Hv as [Hv|Hv]].
        -- right. destruct (Hl _ _ Hv). split; [lia|done].
        -- left. apply covers_cons. by left.
        -- destruct (T1 v Hv) as [Hc|[Hx ->]].
           ++ left. apply covers_cons. by right.
           ++ right. split; [lia|done].
      * intros v Hv Hout. apply covers_app. right.
        apply covers_cons in Hv as [Hv|Hv]; apply covers_cons; [by left|right].
        apply T2; [done|lia].
      * intros Hx. destruct (decide (x < seg_start old)).
        { exists c. apply covers_app. left. apply Hl'. lia. }
        destruct (decide (x < seg_end old)).
        { exists (seg_cn old). apply covers_app. right. apply covers_cons.
          left. split; [lia|done]. }
        destruct T3 as [v Hv]; [lia|]. exists v.
        apply covers_app. right. apply covers_cons. by right.
      * intros v Hv Hx Hfam. apply covers_app. right. apply covers_cons.
        apply covers_cons in Hv as [[Hxo <-]|Hv].
        -- left. by rewrite Hrank.
        -- right. pose proof (covers_after _ _ _ _ Hma Hv).
           apply T4; [done|lia|done].
  - exists (l ++ old :: mid). rewrite <- !app_assoc. simpl.
    split; [done|split; [done|]].
    intros x. split; [|split; [|split]].
    + intros v Hv. apply covers_app in Hv as [Hv|Hv].
      * right. destruct (Hl _ _ Hv). split; [lia|done].
      * by left.
    + intros v Hv Hout. apply covers_app. by right.
    + intros Hx. destruct (decide (x < seg_start old)).
      { exists c. apply covers_app. left. apply Hl'. lia. }
      exists (seg_cn old). apply covers_app. right. apply covers_cons.
      left. split; [lia|done].
    + intros v Hv Hx Hfam. apply covers_app. right.
      apply covers_cons in Hv as [[Hxo <-]|Hv].
      * rewrite Hrank by done. apply covers_cons. by left.
      * pose proof (covers_after _ _ _ _ Hma Hv). lia.
Qed.

End Steps.

Lemma merge_traced_spec mid : merge_traced mid.
Proof.
  induction mid as [|old mid IH];
    intros fuel pre post lo s e c Hfuel Hpart Hpre Hmid Hpost Hlo Hse.
  - destruct fuel as [|fuel]; [simpl in Hfuel; lia|].
    exists [mkSeg s e c]. simpl in *. split; [|split].
    + apply merge_no_overlap; try done. by eapply partition_proper.
    + apply partition_insert; try done; pointwise.
    + apply traced_nil.
  - destruct fuel as [|fuel]; [simpl in Hfuel; lia|]. simpl in Hfuel.
    apply Forall_cons in Hmid as [Hold Hmid].
    destruct (first_overlap_bisect lo pre old (mid ++ post) s e)
      as [Hsb Heb]; try done.
    unfold merge_on. cbn [merge_fuel]. simpl app.
    rewrite Hsb, Nat.eqb_sym, Heb. rewrite !index_at.
    cbn [mbind result_bind].
    destruct (seg_cn old =? c) eqn:Hcn.
    + apply Z.eqb_eq in Hcn. subst c. rewrite !pop_at.
      cbn [mbind result_bind].
      eapply equal_traced; eauto; lia.
    + apply Z.eqb_neq in Hcn.
      destruct ((c <=? 2) && (seg_cn old <=? 2)) eqn:B1;
        [destruct (seg_cn old <? c) eqn:B2|
         destruct ((c >=? 2) && (seg_cn old >=? 2)) eqn:B3;
         [destruct (seg_cn old >? c) eqn:B4|
          destruct (seg_end old - seg_start old <? e - s)]];
        first [eapply new_traced | eapply old_traced]; eauto; try lia;
        unfold same_family, outranks; intros Hfam;
        rewrite ?andb_true_iff, ?andb_false_iff, ?Z.geb_leb, ?Z.gtb_ltb,
          ?Z.leb_le, ?Z.leb_gt, ?Z.ltb_lt, ?Z.ltb_ge in *; lia.
Qed.

Lemma traced_frame pre mid mid' post s e c :
  Forall (before s) pre -> Forall (after e) post ->
  traced mid mid' s e c -> traced (pre ++ mid ++ post) (pre ++ mid' ++ post) s e c.
Proof.
  intros Hpre Hpost Ht x. destruct (Ht x) as (T1 & T2 & T3 & T4).
  split; [|split; [|split]].
  - intros v Hv. rewrite !covers_app in *.
    destruct Hv as [?|[Hv|?]]; auto. destruct (T1 v Hv); auto.
  - intros v Hv Hout. rewrite !covers_app in *.
    destruct Hv as [?|[Hv|?]]; auto.
  - intros Hx. destruct (T3 Hx) as [v Hv]. exists v. rewrite !covers_app. auto.
  - intros v Hv Hx Hfam. rewrite !covers_app in *.
    destruct Hv as [Hv|[Hv|Hv]]; auto.
    + pose proof (covers_before _ _ _ _ Hpre Hv). lia.
    + pose proof (covers_after _ _ _ _ Hpost Hv). lia.
Qed.

(** On a partition the consolidator returns a partition with the footprint
    of the old one and the incoming segment. *)
Lemma merge_fuel_traced lo L s e c fuel :
  partition_from lo L -> s < e -> (length L < fuel)%nat ->
  exists L',
    merge_on fuel L s e c = Ok (unzip L') /\
    partition_from (Z.min lo s) L' /\ traced L L' s e c.
Proof.
  intros Hpart Hse Hfuel.
  destruct (partition_decompose lo L s e Hpart Hse)
    as (pre & mid & post & -> & Hpre & Hmid & Hpost).
  destruct (merge_traced_spec mid fuel pre post (Z.min lo s) s e c)
    as (mid' & Heq & Hp & Ht); try done; try lia.
  - rewrite !length_app in Hfuel. lia.
  - eapply partition_weaken; [|exact Hpart]. lia.
  - exists (pre ++ mid' ++ post). split; [done|split; [done|]].
    by apply traced_frame.
Qed.

Lemma state_at_covers lo L x v :
  partition_from lo L -> state_at L x = Some v <-> covers L x v.
Proof.
  revert lo. induction L as [|g L IH]; intros lo Hpart.
  - split; [done|]. intros H. by destruct (covers_nil _ _ H).
  - destruct Hpart as (H1 & H2 & H3). specialize (IH _ H3).
    rewrite covers_cons. unfold state_at in *. simpl.
    destruct (Z.leb_spec (seg_start g) x), (Z.ltb_spec x (seg_end g)); simpl.
    + split.
      * intros [= <-]. left. split; [lia|done].
      * intros [[_ <-]|Hc]; [done|].
        pose proof (covers_after _ _ _ _ (partition_after _ _ H3) Hc). lia.
    + rewrite IH. split; [by right|]. intros [[? _]|?]; [lia|done].
    + rewrite IH. split; [by right|]. intros [[? _]|?]; [lia|done].
    + rewrite IH. split; [by right|]. intros [[? _]|?]; [lia|done].
Qed.

Lemma cn_at_columns self k L x :
  starts self !! k = Some (seg_start <$> L) ->
  ends self !! k = Some (seg_end <$> L) ->
  cn_states self !! k = Some (seg_cn <$> L) ->
  cn_at self k x = state_at L x.
Proof.
  intros Hs He Hc. unfold cn_at, state_at, rows_of. rewrite Hs, He, Hc.
  rewrite PloidyFacts.zip3_columns. clear Hs He Hc.
  induction L as [|g L IH]; [done|]. simpl.
  destruct ((seg_start g <=? x) && (x <? seg_end g)); [done|]. apply IH.
Qed.

Lemma cn_at_unknown self k x : starts self !! k = None -> cn_at self k x = None.
Proof. intros H. unfold cn_at, rows_of. by rewrite H. Qed.

(** One call of [add]: the sample that results, position by position. *)
Lemma add_traced self chrom start end_ cn :
  wf_sample self -> start < end_ ->
  exists self',
    add self chrom start end_ cn = Ok self' /\ wf_sample self' /\
    forall k x,
      (k <> Py.replace_chr chrom \/ ~ (start <= x < end_) ->
       cn_at self' k x = cn_at self k x) /\
      (k = Py.replace_chr chrom -> start <= x < end_ ->
       (cn_at self' k x = Some cn \/
        (is_Some (cn_at self k x) /\ cn_at self' k x = cn_at self k x)) /\
       forall v, cn_at self k x = Some v -> same_family cn v ->
         cn_at self' k x = Some (if outranks v cn then v else cn)).
Proof.
  intros Hwf Hse. unfold add.
  destruct (Z.leb_spec end_ start) as [?|_]; [lia|].
  set (key := Py.replace_chr chrom).
  pose proof (Hwf key) as Hk. unfold wf_chrom in Hk.
  destruct (len_seg self !! key) as [n|] eqn:Hlen.
  - destruct Hk as (L & lo & Hs & He & Hc & Hpart).
    unfold getitem. rewrite Hs, He, Hc. cbn [mbind result_bind].
    unfold merge_overlapping_cnvs.
    destruct (merge_fuel_traced lo L start end_ cn (S (length (seg_start <$> L))))
      as (L' & Heq & Hp & Ht); try done.
    { rewrite length_fmap. lia. }
    unfold merge_on in Heq. rewrite Heq. cbn [mbind result_bind unzip].
    eexists. split; [done|]. split.
    { intros chrom'. unfold wf_chrom. simpl.
      destruct (decide (key = chrom')) as [<-|Hne].
      + rewrite !lookup_insert_eq. by exists L', (Z.min lo start).
      + rewrite !lookup_insert_ne by done. apply Hwf. }
    intros k x.
    destruct (decide (k = key)) as [->|Hne].
    + rewrite (cn_at_columns _ key L' x), (cn_at_columns _ key L x); try done;
        simpl; rewrite ?lookup_insert_eq; try done.
      destruct (Ht x) as (T1 & T2 & T3 & T4).
      assert (forall v, state_at L' x = Some v <-> covers L' x v) as S'
        by (intros v; by eapply state_at_covers).
      assert (forall v, state_at L x = Some v <-> covers L x v) as S0
        by (intros v; by eapply state_at_covers).
      split.
      * intros [?|Hout]; [done|].
        destruct (state_at L' x) as [v'|].
        -- destruct (T1 v') as [Hc0|[? _]]; [by apply S'| |done].
           symmetry. by apply S0.
        -- destruct (state_at L x) as [v|]; [|done].
           assert (None = Some v) as Habs; [|done].
           apply S'. apply T2; [|done]. by apply S0.
      * intros _ Hx. split.
        -- destruct (T3 Hx) as [v Hv].
           destruct (T1 _ Hv) as [Hc0|[_ ->]].
           ++ right. apply S' in Hv. apply S0 in Hc0. rewrite Hv, Hc0. eauto.
           ++ left. by apply S'.
        -- intros v Hv Hfam. apply S'. apply T4; [|done..]. by apply S0.
    + split; [|done]. intros _. unfold cn_at, rows_of. simpl.
      by rewrite !lookup_insert_ne.
  - destruct Hk as (Hs & He & Hc).
    eexists. split; [done|]. split.
    { intros chrom'. unfold wf_chrom. simpl.
      destruct (decide (key = chrom')) as [<-|Hne].
      + rewrite !lookup_insert_eq. exists [mkSeg start end_ cn], start.
        simpl. repeat split; try done; lia.
      + rewrite !lookup_insert_ne by done. apply Hwf. }
    intros k x.
    destruct (decide (k = key)) as [->|Hne].
    + rewrite (cn_at_unknown self key x Hs).
      unfold cn_at, rows_of. simpl. rewrite !lookup_insert_eq. simpl.
      destruct (Z.leb_spec start x), (Z.ltb_spec x end_); simpl;
        (split; [intros [?|?]; [done|lia || done]
                |intros _ ?; split; [(by left) || lia|done]]).
    + split; [|done]. intros _. unfold cn_at, rows_of. simpl.
      by rewrite !lookup_insert_ne.
Qed.

Lemma add_all_traced calls : forall self,
  wf_sample self -> Forall call_valid calls ->
  exists self',
    add_all self calls = Ok self' /\ wf_sample self' /\
    forall k x,
      (is_Some (cn_at self' k x) <->
       is_Some (cn_at self k x) \/ Exists (reaches k x) calls) /\
      (forall v, cn_at self' k x = Some v ->
         cn_at self k x = Some v \/
         Exists (fun call => reaches k x call /\ call.2 = v) calls).
Proof.
  induction calls as [|[[[chrom start] end_] cn] calls IH]; intros self Hwf Hcalls.
  - exists self. split; [done|split; [done|]]. intros k x. split.
    + split; [by left|]. intros [?|H]; [done|]. by apply Exists_nil in H.
    + intros v Hv. by left.
  - apply Forall_cons in Hcalls as [Hc Hcalls]. simpl in Hc.
    destruct (add_traced self chrom start end_ cn Hwf Hc) as (self1 & Heq & Hwf1 & H1).
    destruct (IH self1 Hwf1 Hcalls) as (self' & Heq' & Hwf' & H').
    exists self'. split; [simpl; by rewrite Heq|]. split; [done|].
    intros k x. destruct (H' k x) as [Hcov Hval]. destruct (H1 k x) as [Hout Hin].
    assert (Decision (k = Py.replace_chr chrom /\ start <= x < end_)) as [Hr|Hr]
      by apply _.
    + destruct Hr as [-> Hx]. split.
      * split; [intros _|intros _].
        -- right. apply Exists_cons. left. by split.
        -- apply Hcov. left. destruct (Hin eq_refl Hx) as [[->|[? ->]] _]; eauto.
      * intros v Hv. destruct (Hval v Hv) as [H0|H0].
        -- destruct (Hin eq_refl Hx) as [[Hnew|[_ Hsame]] _].
           ++ right. apply Exists_cons. left. split; [by split|].
              simpl. congruence.
           ++ left. congruence.
        -- right. apply Exists_cons. by right.
    + assert (cn_at self1 k x = cn_at self k x) as E.
      { apply Hout. destruct (decide (k = Py.replace_chr chrom)); [|by left].
        right. intros ?. by apply Hr. }
      rewrite E in *. split.
      * rewrite Hcov. rewrite Exists_cons. unfold reaches at 2.
        split; [intros [?|?]; auto|intros [?|[[<- ?]|?]]; auto].
        exfalso. by apply Hr.
      * intros v Hv. destruct (Hval v Hv) as [H0|H0]; [by left|].
        right. apply Exists_cons. by right.
Qed.

End FootprintFacts.

(** X1. One call of [add] with a non-empty interval returns, and changes
    the sample inside the window of the call only: every position of
    another chromosome or outside [start, end) keeps the state it had (or
    stays uncovered), and every position inside the window is covered
    afterwards, by the incoming state or by the state it had. *)
Theorem add_changes_window_only self chrom start end_ cn :
  wf_sample self -> start < end_ ->
  exists self',
    add self chrom start end_ cn = Ok self' /\
    forall k x,
      (k <> Py.replace_chr chrom \/ ~ (start <= x < end_) ->
       cn_at self' k x = cn_at self k x) /\
      (k = Py.replace_chr chrom -> start <= x < end_ ->
       cn_at self' k x = Some cn \/
       (is_Some (cn_at self k x) /\ cn_at self' k x = cn_at self k x)).
Proof.
  intros Hwf Hse.
  destruct (FootprintFacts.add_traced self chrom start end_ cn Hwf Hse)
    as (self' & Heq & _ & H).
  exists self'. split; [done|]. intros k x. destruct (H k x) as [Hout Hin].
  split; [done|]. intros Hk Hx. by destruct (Hin Hk Hx).
Qed.

(** A gain over [250, 400) laid on a stored loss over [100, 300): the call
    meets the stored segment, and position 150 keeps the loss. *)
Lemma add_changes_window_only_witness :
  exists self,
    add init "1" 100 300 1 = Ok self /\
    cn_at self "1" 150 = Some 1 /\ cn_at self "1" 260 = Some 1 /\
    wf_sample self /\ 250 < 400 /\
    exists self',
      add self "chr1" 250 400 3 = Ok self' /\
      forall k x,
        (k <> Py.replace_chr "chr1" \/ ~ (250 <= x < 400) ->
         cn_at self' k x = cn_at self k x) /\
        (k = Py.replace_chr "chr1" -> 250 <= x < 400 ->
         cn_at self' k x = Some 3 \/
         (is_Some (cn_at self k x) /\ cn_at self' k x = cn_at self k x)).
Proof.
  assert (100 < 300) as H0 by lia. assert (250 < 400) as H by lia.
  destruct (AddFacts.add_wf init "1" 100 300 1 AddFacts.init_wf H0)
    as (self & Heq & Hwf).
  exists self.
  assert (cn_at self "1" 150 = Some 1 /\ cn_at self "1" 260 = Some 1) as [H150 H260].
  { pose proof Heq as Heq'. vm_compute in Heq'. injection Heq' as <-.
    split; reflexivity. }
  refine (conj Heq (conj H150 (conj H260 (conj Hwf (conj H _))))).
  exact (add_changes_window_only self "chr1" 250 400 3 Hwf H).
Defined.

(** X3. Where the incoming segment of [add] lies over a stored state of
    its own family (both at most 2, or both at least 2), the state further
    from the neutral state 2 is the one stored afterwards, position by
    position and however many stored segments the call meets: a deeper
    loss beats a shallower one, a higher gain a lower one, and either
    beats the neutral state. *)
Theorem add_same_family_priority self chrom start end_ cn :
  wf_sample self -> start < end_ ->
  exists self',
    add self chrom start end_ cn = Ok self' /\
    forall x v,
      start <= x < end_ ->
      cn_at self (Py.replace_chr chrom) x = Some v -> same_family cn v ->
      cn_at self' (Py.replace_chr chrom) x = Some (if outranks v cn then v else cn).
Proof.
  intros Hwf Hse.
  destruct (FootprintFacts.add_traced self chrom start end_ cn Hwf Hse)
    as (self' & Heq & _ & H).
  exists self'. split; [done|]. intros x v Hx Hv Hfam.
  destruct (H (Py.replace_chr chrom) x) as [_ Hin].
  destruct (Hin eq_refl Hx) as [_ Hrank]. by apply Hrank.
Qed.

Lemma add_same_family_priority_witness :
  exists self,
    add init "1" 100 300 1 = Ok self /\ wf_sample self /\ 150 < 200 /\
    exists self',
      add self "chr1" 150 200 0 = Ok self' /\
      forall x v,
        150 <= x < 200 ->
        cn_at self (Py.replace_chr "chr1") x = Some v -> same_family 0 v ->
        cn_at self' (Py.replace_chr "chr1") x = Some (if outranks v 0 then v else 0).
Proof.
  assert (100 < 300) as H0 by lia. assert (150 < 200) as H by lia.
  destruct (AddFacts.add_wf init "1" 100 300 1 AddFacts.init_wf H0)
    as (self & Heq & Hwf).
  exists self. split; [exact Heq|]. split; [exact Hwf|]. split; [exact H|].
  exact (add_same_family_priority self "chr1" 150 200 0 Hwf H).
Defined.

(** X2. After any stream of [add] calls with non-empty intervals on a
    fresh sample, a position of a chromosome is covered by a stored
    segment exactly when some call of the stream reached it, and the state
    stored there is the state of one of the calls that reached it: no
    coverage is lost and none is invented. *)
Theorem add_all_footprint (calls : list (string * Z * Z * Z)) :
  Forall call_valid calls ->
  exists self,
    add_all init calls = Ok self /\
    forall k x,
      (is_Some (cn_at self k x) <-> Exists (reaches k x) calls) /\
      (forall v, cn_at self k x = Some v ->
         Exists (fun call => reaches k x call /\ call.2 = v) calls).
Proof.
  intros Hcalls.
  destruct (FootprintFacts.add_all_traced calls init AddFacts.init_wf Hcalls)
    as (self & Heq & _ & H).
  exists self. split; [done|]. intros k x. destruct (H k x) as [Hcov Hval].
  assert (cn_at init k x = None) as E by done.
  rewrite E in *. split.
  - rewrite Hcov. split; [intros [[? ?]|?]; done|by right].
  - intros v Hv. by destruct (Hval v Hv).
Qed.

Lemma add_all_footprint_witness :
  Forall call_valid
    [("chr1"%string, 100, 300, 1); ("chr1"%string, 150, 200, 0);
     ("chr2"%string, 5, 10, 3)] /\
  exists self,
    add_all init
      [("chr1"%string, 100, 300, 1); ("chr1"%string, 150, 200, 0);
       ("chr2"%string, 5, 10, 3)] = Ok self /\
    forall k x,
      (is_Some (cn_at self k x) <->
       Exists (reaches k x)
         [("chr1"%string, 100, 300, 1); ("chr1"%string, 150, 200, 0);
          ("chr2"%string, 5, 10, 3)]) /\
      (forall v, cn_at self k x = Some v ->
         Exists (fun call => reaches k x call /\ call.2 = v)
           [("chr1"%string, 100, 300, 1); ("chr1"%string, 150, 200, 0);
            ("chr2"%string, 5, 10, 3)]).
Proof.
  assert (Forall call_valid
    [("chr1"%string, 100, 300, 1); ("chr1"%string, 150, 200, 0);
     ("chr2"%string, 5, 10, 3)]) as H.
  { repeat constructor; simpl; lia. }
  split; [exact H|]. apply (add_all_footprint _ H).
Defined.
Module ArmFacts.

Lemma init_paired chrom : arms_paired (Chromosome_init chrom).
Proof. by split. Qed.

(** One call: the object stays paired and keeps its name; a call that
    returns has assigned one more arm and kept the arms apart. *)
Lemma add_step c start end_ arm :
  arms_paired c ->
  let '(c', r) := Chromosome_add c start end_ arm in
  Chromosome.chrom c' = Chromosome.chrom c /\ arms_paired c' /\
  (r = Returns tt -> arms_apart c -> arms_apart c') /\
  (r = Returns tt -> arms_count c' = S (arms_count c)).
Proof.
  intros [Hp Hq]. unfold Chromosome_add, arms_paired, arm_paired, arms_apart,
    arms_count in *.
  destruct c as [chrom ps pe qs qe ql pl]. simpl in *.
  destruct (String.eqb arm "p"); [|destruct (String.eqb arm "q")].
  - destruct ps, pe; simpl; try done.
    destruct qs as [qs|]; simpl.
    + destruct (Z.gtb_spec end_ qs); simpl; repeat split; try done;
        intros; simplify_eq; lia.
    + repeat split; try done.
  - destruct qs, qe; simpl; try done.
    destruct pe as [pe|]; simpl.
    + destruct (Z.ltb_spec start pe); simpl; repeat split; try done;
        try (intros; simplify_eq; lia); destruct ps; simpl; lia.
    + repeat split; try done; destruct ps; simpl; lia.
  - done.
Qed.

Lemma add_all_steps calls : forall c,
  arms_paired c ->
  let '(c', r) := Chromosome_add_all c calls in
  Chromosome.chrom c' = Chromosome.chrom c /\ arms_paired c' /\
  (r = Returns tt -> arms_apart c -> arms_apart c') /\
  (r = Returns tt -> arms_count c' = (arms_count c + length calls)%nat).
Proof.
  induction calls as [|[[start end_] arm] calls IH]; intros c Hc; simpl.
  - split; [done|]. split; [done|]. split; [done|]. intros _. lia.
  - pose proof (add_step c start end_ arm Hc) as H.
    destruct (Chromosome_add c start end_ arm) as [c1 [[]|f]].
    + destruct H as (H1 & H2 & H3 & H4).
      specialize (IH c1 H2).
      destruct (Chromosome_add_all c1 calls) as [c' r].
      destruct IH as (I1 & I2 & I3 & I4).
      split; [congruence|]. split; [done|]. split; [auto|].
      intros Hr. rewrite (I4 Hr), (H4 eq_refl). lia.
    + destruct H as (H1 & H2 & _). done.
Qed.

Lemma odict_set_keys {V} (d : odict V) k v :
  (odict_set d k v).*1 = if bool_decide (k ∈ d.*1) then d.*1 else d.*1 ++ [k].
Proof.
  induction d as [|[k' v'] d IH]; [done|]. cbn [odict_set].
  destruct (String.eqb_spec k' k) as [->|Hne]; rewrite !fmap_cons; cbn [fst].
  - rewrite bool_decide_eq_true_2; [done|]. apply elem_of_cons. by left.
  - rewrite IH. case_bool_decide as H1; case_bool_decide as H2; try done.
    + exfalso. apply H2. apply elem_of_cons. by right.
    + exfalso. apply elem_of_cons in H2 as [->|?]; done.
Qed.

Lemma odict_get_None {V} (d : odict V) k : odict_get d k = None <-> k ∉ d.*1.
Proof.
  induction d as [|[k' v'] d IH]; simpl.
  - split; [intros _ H; by apply elem_of_nil in H|done].
  - destruct (String.eqb_spec k' k) as [->|Hne].
    + split; [done|]. intros H. exfalso. apply H. apply elem_of_cons. by left.
    + rewrite IH. rewrite elem_of_cons. split; [intros H [?|?]; by auto|auto].
Qed.

Lemma odict_get_elem {V} (d : odict V) k v : odict_get d k = Some v -> (k, v) ∈ d.
Proof.
  induction d as [|[k' v'] d IH]; [done|]. simpl.
  destruct (String.eqb_spec k' k) as [->|Hne].
  - intros [= ->]. apply elem_of_cons. by left.
  - intros H. apply elem_of_cons. right. by apply IH.
Qed.

Lemma odict_set_NoDup {V} (d : odict V) k v :
  NoDup d.*1 -> NoDup (odict_set d k v).*1.
Proof.
  intros H. rewrite odict_set_keys. case_bool_decide as Hk; [done|].
  apply NoDup_app. split; [done|]. split; [|apply NoDup_singleton].
  intros x Hx Hx'. apply list_elem_of_singleton in Hx'. by subst.
Qed.

Lemma odict_set_Forall {V} (P : string * V -> Prop) (d : odict V) k v :
  Forall P d -> P (k, v) -> Forall P (odict_set d k v).
Proof.
  intros Hd Hv. induction d as [|[k' v'] d IH]; simpl.
  - by repeat constructor.
  - apply Forall_cons in Hd as [H1 H2].
    destruct (String.eqb_spec k' k) as [->|Hne]; constructor; auto.
Qed.

Lemma odict_get_set {V} (d : odict V) k v : odict_get (odict_set d k v) k = Some v.
Proof.
  induction d as [|[k' v'] d IH]; simpl.
  - by rewrite String.eqb_refl.
  - destruct (String.eqb_spec k' k) as [->|Hne]; simpl.
    + by rewrite String.eqb_refl.
    + destruct (String.eqb_spec k' k); [done|]. apply IH.
Qed.

Lemma odict_set_set {V} (d : odict V) k v0 v :
  odict_set (odict_set d k v0) k v = odict_set d k v.
Proof.
  induction d as [|[k' v'] d IH]; simpl.
  - by rewrite String.eqb_refl.
  - destruct (String.eqb_spec k' k) as [->|Hne]; simpl.
    + by rewrite String.eqb_refl.
    + destruct (String.eqb_spec k' k); [done|]. by rewrite IH.
Qed.

Section Loader.
Variable int : string -> option Z.

Lemma load_arm_line_ok i header_cols cols arm_chrom arm_chrom' :
  Forall arm_entry_ok arm_chrom -> NoDup arm_chrom.*1 ->
  load_arm_line int i header_cols cols arm_chrom = Returns arm_chrom' ->
  Forall arm_entry_ok arm_chrom' /\ NoDup arm_chrom'.*1.
Proof.
  intros Hok Hnd. unfold load_arm_line.
  destruct (attributes header_cols cols) as [attrs|]; [|done].
  destruct (getitem attrs "chromosome") as [chrom|]; [|done].
  cbn [uncaught mbind outcome_bind].
  set (k := Py.replace_chr chrom).
  set (t1 := match odict_get arm_chrom k with
             | Some _ => arm_chrom
             | None => odict_set arm_chrom k (Chromosome_init k)
             end).
  assert (NoDup t1.*1) as Hnd1.
  { subst t1. destruct (odict_get arm_chrom k); [done|]. by apply odict_set_NoDup. }
  assert (forall c, odict_get t1 k = Some c ->
            Chromosome.chrom c = k /\ arms_paired c /\ arms_apart c) as Hget.
  { subst t1. destruct (odict_get arm_chrom k) as [c0|] eqn:Hk; intros c Hc.
    - rewrite Hk in Hc. injection Hc as <-.
      apply odict_get_elem in Hk.
      apply (proj1 (Forall_forall _ _) Hok) in Hk.
      destruct Hk as (? & ? & ? & _). done.
    - rewrite odict_get_set in Hc. injection Hc as <-.
      split; [done|]. split; [apply init_paired|]. intros pe qs H. done. }
  assert (forall c, odict_set t1 k c = odict_set arm_chrom k c) as Hset.
  { intros c. subst t1. destruct (odict_get arm_chrom k); [done|].
    apply odict_set_set. }
  destruct (odict_get t1 k) as [c|] eqn:Hc; [|done].
  cbn [uncaught mbind outcome_bind].
  destruct (getitem attrs "start") as [start|]; [|done].
  cbn [uncaught mbind outcome_bind].
  destruct (int start) as [s|]; [|done].
  destruct (getitem attrs "end") as [end_|]; [|done].
  cbn [uncaught mbind outcome_bind].
  destruct (int end_) as [e|]; [|done].
  destruct (getitem attrs "arm") as [arm|]; [|done].
  cbn [uncaught mbind outcome_bind].
  destruct (Hget c eq_refl) as (Hn & Hp & Ha).
  pose proof (add_step c s e arm Hp) as Hstep.
  destruct (Chromosome_add c s e arm) as [c' [[]|f]]; [|done].
  cbn [mbind outcome_bind]. intros [= <-].
  destruct Hstep as (S1 & S2 & S3 & S4).
  rewrite Hset. split; [|by apply odict_set_NoDup].
  apply odict_set_Forall; [done|].
  split; [simpl; congruence|]. split; [done|]. split; [by apply S3|].
  simpl. rewrite (S4 eq_refl). lia.
Qed.

Lemma load_arm_lines_ok lines : forall i header_cols arm_chrom arm_chrom',
  Forall arm_entry_ok arm_chrom -> NoDup arm_chrom.*1 ->
  load_arm_lines int lines i header_cols arm_chrom = Returns arm_chrom' ->
  Forall arm_entry_ok arm_chrom' /\ NoDup arm_chrom'.*1.
Proof.
  induction lines as [|line lines IH]; intros i h t t' Hok Hnd H;
    cbn [load_arm_lines] in H; cbv zeta in H.
  - by injection H as <-.
  - destruct (Str.is_empty _); [by eapply IH|].
    destruct (bool_decide (h = ∅)).
    + destruct (missing_column _ _); [done|]. by eapply IH.
    + destruct (load_arm_line int (S i) h _ t) as [t1|] eqn:H1; [|done].
      cbn [mbind outcome_bind] in H.
      destruct (load_arm_line_ok _ _ _ _ _ Hok Hnd H1). by eapply IH.
Qed.

End Loader.

End ArmFacts.

(** ** The arm table between the normaliser and the classifier *)

Module ArmPassFacts.

Lemma fill_known c : arms_paired c -> windows_known (fill_placeholder c).
Proof.
  intros [Hp Hq]. unfold arm_paired, windows_known, fill_placeholder in *.
  destruct c as [chrom [ps|] [pe|] [qs|] [qe|] ql pl]; simpl in *;
    try done; repeat split; eauto.
Qed.

Lemma ploidy_chromosomes_ok self arm_coords : forall cov g arm_coords' r,
  ploidy_chromosomes self arm_coords cov g = (arm_coords', Ok r) ->
  arm_coords' = prod_map id fill_placeholder <$> arm_coords.
Proof.
  induction arm_coords as [|[key c] rest IH]; intros cov g arm' r H;
    cbn [ploidy_chromosomes] in H; cbv zeta in H.
  - by injection H as <- _.
  - match type of H with
    | context [match ?covered with Ok _ => _ | Raise _ => _ end] =>
        destruct covered as [cov'|ex]; [|done]
    end.
    destruct (ploidy_chromosomes self rest cov' _) as [rest' r'] eqn:Hrec.
    injection H as <- ->. rewrite fmap_cons. f_equal. by eapply IH.
Qed.

Lemma adjust_ploidy_fills self arm_coords sample_name redo arm_coords' self' :
  ploidy self = None \/ redo = true ->
  adjust_ploidy self arm_coords sample_name redo = (arm_coords', self', Ok tt) ->
  arm_coords' = prod_map id fill_placeholder <$> arm_coords.
Proof.
  intros Hrun H. unfold adjust_ploidy in H.
  assert (bool_decide (is_Some (ploidy self)) && negb redo = false) as Hb.
  { destruct Hrun as [Hn| ->]; [|by rewrite andb_false_r].
    rewrite Hn. done. }
  rewrite Hb in H.
  destruct (ploidy_chromosomes self arm_coords ∅ 0) as [t [[cov g]|ex]] eqn:Hloop;
    [|done].
  apply ploidy_chromosomes_ok in Hloop. subst t.
  destruct (g =? 0); [done|].
  destruct (round_div _ _ <? 1); [done|]. by injection H as <- _.
Qed.

Lemma tally_segment_known c sums start end_ cn :
  windows_known c -> exists sums', tally_segment c sums start end_ cn = Ok sums'.
Proof.
  intros ([ps Hps] & [pe Hpe] & [qs Hqs] & [qe Hqe]).
  unfold tally_segment. rewrite Hps, Hpe, Hqs, Hqe. simpl.
  destruct (cn =? 2); [eauto|].
  destruct (end_ <? ps); simpl; [eauto|].
  destruct (start >? qe); simpl; [eauto|].
  destruct (end_ >? qs); eauto.
Qed.

Lemma tally_segments_known c rows : forall sums,
  windows_known c -> exists sums', tally_segments c sums rows = Ok sums'.
Proof.
  induction rows as [|[[start end_] cn] rows IH]; intros sums Hc; simpl; [eauto|].
  destruct (tally_segment_known c sums start end_ cn Hc) as [sums1 ->].
  cbn [mbind result_bind]. by apply IH.
Qed.

Lemma exceeds_raise covered length t ex :
  exceeds covered length t = Raise ex -> ex = ZeroDivisionError.
Proof.
  unfold exceeds. destruct (length =? 0); [congruence|].
  destruct (0 <? length); done.
Qed.

Lemma free_and_exceeds_raise events key covered length t ex :
  free_and_exceeds events key covered length t = Raise ex -> ex = ZeroDivisionError.
Proof.
  unfold free_and_exceeds. destruct (events !! key); [done|]. apply exceeds_raise.
Qed.

Lemma family_events_raise name c t high low HIGH LOW events ex :
  family_events name c t high low HIGH LOW events = Raise ex ->
  ex = ZeroDivisionError.
Proof.
  unfold family_events. cbv zeta.
  repeat first
    [ progress cbn [mbind result_bind]
    | match goal with
      | |- context [exceeds ?a ?b ?c] =>
          let E := fresh in
          destruct (exceeds a b c) as [[]|] eqn:E;
          [| |intros [= <-]; by eapply exceeds_raise]
      | |- context [free_and_exceeds ?e ?k ?a ?b ?c] =>
          let E := fresh in
          destruct (free_and_exceeds e k a b c) as [[]|] eqn:E;
          [| |intros [= <-]; by eapply free_and_exceeds_raise]
      end ]; done.
Qed.

Lemma overlap_chrom_raise self c t ex :
  wf_sample self -> windows_known c ->
  overlap_chrom self c t = Raise ex -> ex = ZeroDivisionError.
Proof.
  intros Hwf Hc. unfold overlap_chrom, overlap_chrom_with.
  set (name := sample_chrom_name self (Chromosome.chrom c)).
  destruct (starts self !! name) as [ss|] eqn:Hs; [|done].
  destruct (ClassifyFacts.wf_columns self name ss Hwf Hs)
    as (L & lo & -> & He & Hcn & _).
  unfold getitem. rewrite He, Hcn. cbn [mbind result_bind].
  destruct (tally_segments_known c
              (zip3 (seg_start <$> L) (seg_end <$> L) (seg_cn <$> L)) no_sums Hc)
    as [sums ->].
  cbn [mbind result_bind]. unfold classify_events.
  destruct (family_events name c t (amp_sum sums) (gain_sum sums) AMP GAIN ∅)
    as [events|ex'] eqn:H1; cbn [mbind result_bind].
  - apply family_events_raise.
  - intros [= <-]. by eapply family_events_raise.
Qed.

Lemma overlap_chrom_returns self c t :
  wf_sample self -> windows_known c ->
  0 < Chromosome.p_length c -> 0 < Chromosome.q_length c ->
  exists events, overlap_chrom self c t = Ok events.
Proof.
  intros Hwf Hc Hp Hq. unfold overlap_chrom, overlap_chrom_with.
  set (name := sample_chrom_name self (Chromosome.chrom c)).
  destruct (starts self !! name) as [ss|] eqn:Hs; [|eauto].
  destruct (ClassifyFacts.wf_columns self name ss Hwf Hs)
    as (L & lo & -> & He & Hcn & _).
  unfold getitem. rewrite He, Hcn. cbn [mbind result_bind].
  destruct (tally_segments_known c
              (zip3 (seg_start <$> L) (seg_end <$> L) (seg_cn <$> L)) no_sums Hc)
    as [sums ->].
  cbn [mbind result_bind]. rewrite ClassifyFacts.classify_events_slots by done.
  eauto.
Qed.

End ArmPassFacts.

(** X4. Whatever calls of [Chromosome.add] are made on a new
    [Chromosome], the object keeps its name and each of its arms has both
    coordinates or none, with the length [end - start] that goes with them
    (0 for an unset arm), also after a call that raised.  When every call
    of the stream returned, there were at most two of them, one for each
    arm assigned, and the q arm does not start before the end of the p
    arm. *)
Theorem chromosome_arms_assigned_once (chrom : string) (calls : list (Z * Z * string)) :
  let '(c, r) := Chromosome_add_all (Chromosome_init chrom) calls in
  Chromosome.chrom c = chrom /\ arms_paired c /\
  (r = Returns tt ->
   arms_apart c /\ (length calls <= 2)%nat /\ arms_count c = length calls).
Proof.
  pose proof (ArmFacts.add_all_steps calls (Chromosome_init chrom)
                (ArmFacts.init_paired chrom)) as H.
  destruct (Chromosome_add_all (Chromosome_init chrom) calls) as [c r].
  destruct H as (H1 & H2 & H3 & H4).
  split; [done|]. split; [done|]. intros Hr.
  specialize (H4 Hr). simpl in H4.
  split; [by apply H3|].
  split; [|done].
  rewrite <- H4. unfold arms_count.
  destruct (Chromosome.p_start c), (Chromosome.q_start c); lia.
Qed.

Lemma chromosome_arms_assigned_once_witness :
  (Chromosome_add_all (Chromosome_init "1") [(0, 100, "p"); (100, 250, "q")]%string).2
  = Returns tt /\
  arms_apart
    (Chromosome_add_all (Chromosome_init "1") [(0, 100, "p"); (100, 250, "q")]%string).1 /\
  (2 <= 2)%nat /\
  arms_count
    (Chromosome_add_all (Chromosome_init "1") [(0, 100, "p"); (100, 250, "q")]%string).1
  = 2%nat.
Proof.
  split; [reflexivity|].
  exact (proj2 (proj2 (chromosome_arms_assigned_once "1"
                         [(0, 100, "p"); (100, 250, "q")]%string)) eq_refl).
Defined.

(** X5. When [load_chrom_arm] returns, whatever strings [int]
    accepts, no chromosome name occurs twice in the table, and every entry
    is stored under the name its object carries, has at least one arm
    assigned, has for each arm both coordinates or none with the length
    [end - start] (0 for an unset arm), and has a q arm that does not start
    before the end of its p arm. *)
Theorem load_chrom_arm_entries (int : string -> option Z) (arm_file : list string)
    (arm_chrom : odict Chromosome.t) :
  load_chrom_arm int arm_file = Returns arm_chrom ->
  NoDup arm_chrom.*1 /\ Forall arm_entry_ok arm_chrom.
Proof.
  intros H.
  destruct (ArmFacts.load_arm_lines_ok int arm_file 0 ∅ [] arm_chrom) as [H1 H2];
    try done; constructor.
Qed.

Lemma load_chrom_arm_entries_witness :
  load_chrom_arm decimal arm_file_13 = Returns acrocentric /\
  NoDup acrocentric.*1 /\ Forall arm_entry_ok acrocentric.
Proof.
  assert (load_chrom_arm decimal arm_file_13 = Returns acrocentric) as H
    by (vm_compute; reflexivity).
  split; [exact H|]. exact (load_chrom_arm_entries decimal arm_file_13 acrocentric H).
Defined.
Module LabelFacts.

Lemma tally_pick label cn a b sums :
  let sums' := tally arm_q cn b (tally arm_p cn a sums) in
  at_p (pick label sums') = at_p (pick label sums) + (if tier label cn then a else 0) /\
  at_q (pick label sums') = at_q (pick label sums) + (if tier label cn then b else 0) /\
  at_Chrom (pick label sums')
  = at_Chrom (pick label sums) + (if tier label cn then a + b else 0).
Proof.
  unfold tally, tier. rewrite !Z.gtb_ltb.
  destruct label;
    destruct (Z.ltb_spec cn 2), (Z.ltb_spec cn 1), (Z.ltb_spec 2 cn),
      (Z.ltb_spec 3 cn); simpl; lia.
Qed.

Lemma tally_segments_tiers c ps pe qs qe label rows : forall sums,
  arm_ordered c ->
  Chromosome.p_start c = Some ps -> Chromosome.p_end c = Some pe ->
  Chromosome.q_start c = Some qs -> Chromosome.q_end c = Some qe ->
  Forall row_proper rows ->
  exists sums',
    tally_segments c sums rows = Ok sums' /\
    at_p (pick label sums') = at_p (pick label sums) + tier_overlap label rows ps pe /\
    at_q (pick label sums') = at_q (pick label sums) + tier_overlap label rows qs qe /\
    at_Chrom (pick label sums')
    = at_Chrom (pick label sums) + tier_overlap label rows ps pe
      + tier_overlap label rows qs qe.
Proof.
  intros sums Hc Hps Hpe Hqs Hqe Hrows. revert sums.
  induction rows as [|[[start end_] cn] rows IH]; intros sums.
  - exists sums. simpl. split; [done|]. lia.
  - apply Forall_cons in Hrows as [Hrow Hrows]. simpl in Hrow.
    specialize (IH Hrows). cbn [tally_segments].
    destruct (decide (cn = 2)) as [->|Hcn].
    + unfold tally_segment at 1. simpl Z.eqb. cbn [mbind result_bind].
      destruct (IH sums) as (sums' & -> & H1 & H2 & H3).
      exists sums'. split; [done|].
      unfold tier_overlap in *. cbn [foldr snd fst].
      assert (tier label 2 = false) as -> by (by destruct label).
      lia.
    + destruct (TallyFacts.tally_segment_overlap c sums start end_ cn Hc Hrow Hcn)
        as (a & b & -> & Ha & Hb).
      cbn [mbind result_bind].
      destruct (IH (tally arm_q cn b (tally arm_p cn a sums)))
        as (sums' & -> & H1 & H2 & H3).
      exists sums'. split; [done|].
      destruct (tally_pick label cn a b sums) as (T1 & T2 & T3).
      rewrite (Ha _ _ Hps Hpe), (Hb _ _ Hqs Hqe) in *.
      unfold tier_overlap in *. cbn [foldr snd fst].
      destruct (tier label cn); lia.
Qed.

Lemma slots_sound gC gp gq aC ap aq dC dp dq hC hp hq label :
  let s := classify_slots gC gp gq aC ap aq dC dp dq hC hp hq in
  (slot_Chrom s = Some label -> crossed label gC aC dC hC = true) /\
  (slot_p s = Some label -> crossed label gp ap dp hp = true) /\
  (slot_q s = Some label -> crossed label gq aq dq hq = true).
Proof.
  destruct gC, gp, gq, aC, ap, aq, dC, dp, dq, hC, hp, hq; vm_compute;
    (split; [|split]); intros [= <-]; reflexivity.
Qed.

Lemma crosses_Qlt t covered length :
  crosses t covered length = true ->
  (t * inject_Z length < inject_Z covered)%Q.
Proof.
  unfold crosses, Qlt. intros H%Z.ltb_lt. simpl.
  rewrite Pos.mul_1_r. lia.
Qed.

End LabelFacts.

(** X6. Every label the classifier reports is justified by the
    segments: on a consolidated sample and a chromosome with ordered
    windows and positive arm lengths, a label at the p key (resp. the q
    key, the whole-chromosome key) means that the bases of the p window
    (resp. the q window, both windows) lying in segments of the tier of the
    label ([cn > 3] for AMP, [cn > 2] for GAIN, [cn < 1] for HOMDEL,
    [cn < 2] for HETLOSS), divided by the p length (resp. the q length,
    the sum of the two lengths), exceed the threshold; and the dictionary
    holds no key but these three. *)
Theorem classifier_labels_sound (self : SampleCNVs) (c : Chromosome.t)
    (threshold : Q) (events : gmap string event) (ps pe qs qe : Z) :
  wf_sample self -> arm_ordered c ->
  0 < Chromosome.p_length c -> 0 < Chromosome.q_length c ->
  Chromosome.p_start c = Some ps -> Chromosome.p_end c = Some pe ->
  Chromosome.q_start c = Some qs -> Chromosome.q_end c = Some qe ->
  overlap_chrom self c threshold = Ok events ->
  let name := sample_chrom_name self (Chromosome.chrom c) in
  let rows := rows_of self name in
  (forall label, events !! (name ++ "p")%string = Some label ->
     (threshold * inject_Z (Chromosome.p_length c)
      < inject_Z (tier_overlap label rows ps pe))%Q) /\
  (forall label, events !! (name ++ "q")%string = Some label ->
     (threshold * inject_Z (Chromosome.q_length c)
      < inject_Z (tier_overlap label rows qs qe))%Q) /\
  (forall label, events !! (name ++ "Chrom")%string = Some label ->
     (threshold * inject_Z (Chromosome.p_length c + Chromosome.q_length c)
      < inject_Z (tier_overlap label rows ps pe + tier_overlap label rows qs qe))%Q) /\
  (forall key, is_Some (events !! key) ->
     key = (name ++ "p")%string \/ key = (name ++ "q")%string \/
     key = (name ++ "Chrom")%string).
Proof.
  intros Hwf Hc Hpl Hql Hps Hpe Hqs Hqe Hev name rows.
  unfold overlap_chrom, overlap_chrom_with in Hev. fold name in Hev.
  pose proof (PloidyFacts.wf_rows self name Hwf) as Hrows. fold rows in Hrows.
  destruct (starts self !! name) as [ss|] eqn:Hs.
  2:{ injection Hev as <-.
      split; [|split; [|split]]; intros ? H; rewrite lookup_empty in H;
        try done; by destruct H. }
  destruct Hrows as (es & cs & He & Hcn & Hrows & Hproper).
  unfold getitem in Hev. rewrite He, Hcn in Hev. cbn [mbind result_bind] in Hev.
  rewrite <- Hrows in *.
  destruct (tally_segments c no_sums rows) as [sums|] eqn:Htally; [|done].
  cbn [mbind result_bind] in Hev.
  rewrite ClassifyFacts.classify_events_slots in Hev by done.
  injection Hev as <-.
  assert (forall label,
    at_p (pick label sums) = tier_overlap label rows ps pe /\
    at_q (pick label sums) = tier_overlap label rows qs qe /\
    at_Chrom (pick label sums)
    = tier_overlap label rows ps pe + tier_overlap label rows qs qe) as Hsums.
  { intros label.
    destruct (LabelFacts.tally_segments_tiers c ps pe qs qe label rows no_sums)
      as (sums' & Heq & H1 & H2 & H3); try done.
    rewrite Htally in Heq. injection Heq as <-.
    rewrite H1, H2, H3. by destruct label. }
  match goal with
  | |- context [classify_slots ?gC ?gp ?gq ?aC ?ap ?aq ?dC ?dp ?dq ?hC ?hp ?hq] =>
      pose proof (fun label =>
        LabelFacts.slots_sound gC gp gq aC ap aq dC dp dq hC hp hq label) as Hsound;
      set (s := classify_slots gC gp gq aC ap aq dC dp dq hC hp hq) in *
  end.
  cbv zeta in Hsound.
  split; [|split; [|split]].
  - intros label Hl. rewrite SlotFacts.lookup_p in Hl.
    destruct (Hsound label) as (_ & Hp & _). specialize (Hp Hl).
    destruct (Hsums label) as (<- & _ & _).
    apply LabelFacts.crosses_Qlt. by destruct label.
  - intros label Hl. rewrite SlotFacts.lookup_q in Hl.
    destruct (Hsound label) as (_ & _ & Hq). specialize (Hq Hl).
    destruct (Hsums label) as (_ & <- & _).
    apply LabelFacts.crosses_Qlt. by destruct label.
  - intros label Hl. rewrite SlotFacts.lookup_Chrom in Hl.
    destruct (Hsound label) as (HC & _ & _). specialize (HC Hl).
    destruct (Hsums label) as (_ & _ & <-).
    apply LabelFacts.crosses_Qlt. by destruct label.
  - intros key [v Hv]. rewrite SlotFacts.lookup_to_events in Hv.
    repeat case_decide; subst; auto. done.
Qed.

Lemma classifier_labels_sound_witness :
  exists events,
    wf_sample amplified_1 /\ arm_ordered two_arms /\
    0 < Chromosome.p_length two_arms /\ 0 < Chromosome.q_length two_arms /\
    overlap_chrom amplified_1 two_arms default_threshold = Ok events /\
    events !! "1q"%string = Some AMP /\
    (default_threshold * inject_Z (Chromosome.q_length two_arms)
     < inject_Z (tier_overlap AMP (rows_of amplified_1 "1") 1000 2000))%Q.
Proof.
  assert (wf_sample amplified_1) as Hwf.
  { destruct (AddFacts.add_wf init "1" 1000 1850 5 AddFacts.init_wf) as (s & Hs & H);
      [lia|].
    assert (add init "1" 1000 1850 5 = Ok amplified_1) as Hb by (vm_compute; reflexivity).
    rewrite Hb in Hs. by injection Hs as <-. }
  assert (arm_ordered two_arms) as Ho.
  { exists 0, 1000, 1000, 2000. simpl. repeat split; lia. }
  assert (0 < Chromosome.p_length two_arms) as Hp by (simpl; lia).
  assert (0 < Chromosome.q_length two_arms) as Hq by (simpl; lia).
  assert (overlap_chrom amplified_1 two_arms default_threshold
          = Ok {[ "1q"%string := AMP ]}) as Hev by (vm_compute; reflexivity).
  exists {[ "1q"%string := AMP ]}.
  refine (conj Hwf (conj Ho (conj Hp (conj Hq (conj Hev (conj eq_refl _)))))).
  exact (proj1 (proj2 (classifier_labels_sound amplified_1 two_arms default_threshold
                         {[ "1q"%string := AMP ]} 0 1000 1000 2000
                         Hwf Ho Hp Hq eq_refl eq_refl eq_refl eq_refl Hev))
           AMP eq_refl).
Defined.

(** ** A chromosome without q arm *)

Module PlaceholderFacts.

Lemma fill_q_missing c :
  Chromosome.q_start c = None ->
  Chromosome.q_end (fill_placeholder c) = Some (-100000) /\
  Chromosome.q_length (fill_placeholder c) = 1 /\
  is_Some (Chromosome.p_start (fill_placeholder c)) /\
  Chromosome.chrom (fill_placeholder c) = Chromosome.chrom c.
Proof.
  intros Hq. unfold fill_placeholder.
  destruct c as [chrom [ps|] pe qs qe ql pl]; simpl in *; subst; simpl; eauto.
Qed.

Lemma tally_segments_skipped c rows sums :
  is_Some (Chromosome.p_start c) -> Chromosome.q_end c = Some (-100000) ->
  Forall (fun row : Z * Z * Z => -100000 < row.1.1) rows ->
  tally_segments c sums rows = Ok sums.
Proof.
  intros [ps Hps] Hqe Hrows.
  induction rows as [|[[start end_] cn] rows IH]; [done|].
  apply Forall_cons in Hrows as [Hrow Hrows]. simpl in Hrow.
  cbn [tally_segments]. unfold tally_segment. rewrite Hps, Hqe. simpl.
  destruct (cn =? 2); cbn [mbind result_bind]; [by apply IH|].
  destruct (end_ <? ps); cbn [mbind result_bind]; [by apply IH|].
  destruct (Z.gtb_spec start (-100000)); [|lia].
  cbn [mbind result_bind]. by apply IH.
Qed.

Lemma ploidy_segments_skipped c rows cov :
  is_Some (Chromosome.p_start c) -> Chromosome.q_end c = Some (-100000) ->
  Forall (fun row : Z * Z * Z => -100000 < row.1.1) rows ->
  ploidy_segments c cov rows = Ok cov.
Proof.
  intros [ps Hps] Hqe Hrows.
  induction rows as [|[[start end_] cn] rows IH]; [done|].
  apply Forall_cons in Hrows as [Hrow Hrows]. simpl in Hrow.
  cbn [ploidy_segments]. unfold ploidy_segment. rewrite Hps, Hqe. simpl.
  destruct (end_ <? ps); cbn [mbind result_bind]; [by apply IH|].
  destruct (Z.gtb_spec start (-100000)); [|lia].
  cbn [mbind result_bind]. by apply IH.
Qed.

Lemma nothing_crosses t len : (0 <= t)%Q -> 0 < len -> crosses t 0 len = false.
Proof.
  unfold crosses, Qle. simpl. intros Ht Hlen. apply Z.ltb_ge. nia.
Qed.

End PlaceholderFacts.

(** X7. A chromosome the arm table knows without its q arm is
    invisible to the core: once the placeholder stands for that arm, every
    segment starting after -100000 is skipped by both loops, so that the
    normaliser adds none of its bases to the covered lengths and, for a
    threshold that is not negative, the classifier reports no event for
    it. *)
Theorem q_arm_missing_ignored (self : SampleCNVs) (c : Chromosome.t)
    (threshold : Q) (ploidy_cov : gmap Z Z) :
  wf_sample self -> Chromosome.q_start c = None ->
  (0 <= threshold)%Q -> 0 < Chromosome.p_length (fill_placeholder c) ->
  let name := sample_chrom_name self (Chromosome.chrom c) in
  Forall (fun row : Z * Z * Z => -100000 < row.1.1) (rows_of self name) ->
  overlap_chrom self (fill_placeholder c) threshold = Ok ∅ /\
  ploidy_segments (fill_placeholder c) ploidy_cov (rows_of self name) = Ok ploidy_cov.
Proof.
  intros Hwf Hq Ht Hpl name Hrows.
  destruct (PlaceholderFacts.fill_q_missing c Hq) as (Hqe & Hql & Hps & Hname).
  split; [|by apply PlaceholderFacts.ploidy_segments_skipped].
  unfold overlap_chrom, overlap_chrom_with. rewrite Hname. fold name.
  pose proof (PloidyFacts.wf_rows self name Hwf) as Hr.
  destruct (starts self !! name) as [ss|]; [|done].
  destruct Hr as (es & cs & He & Hcn & Hr & _).
  unfold getitem. rewrite He, Hcn. cbn [mbind result_bind].
  rewrite <- Hr.
  rewrite PlaceholderFacts.tally_segments_skipped by done.
  cbn [mbind result_bind].
  rewrite ClassifyFacts.classify_events_slots by (done || lia).
  simpl. rewrite !PlaceholderFacts.nothing_crosses by (done || lia).
  by rewrite <- SlotFacts.empty_events.
Qed.

Lemma q_arm_missing_ignored_witness :
  wf_sample amplified_1 /\ Chromosome.q_start p_arm_only = None /\
  (0 <= default_threshold)%Q /\
  0 < Chromosome.p_length (fill_placeholder p_arm_only) /\
  Forall (fun row : Z * Z * Z => -100000 < row.1.1) (rows_of amplified_1 "1") /\
  overlap_chrom amplified_1 (fill_placeholder p_arm_only) default_threshold = Ok ∅ /\
  ploidy_segments (fill_placeholder p_arm_only) ∅ (rows_of amplified_1 "1") = Ok ∅.
Proof.
  assert (wf_sample amplified_1) as Hwf.
  { destruct (AddFacts.add_wf init "1" 1000 1850 5 AddFacts.init_wf) as (s & Hs & H);
      [lia|].
    assert (add init "1" 1000 1850 5 = Ok amplified_1) as Hb by (vm_compute; reflexivity).
    rewrite Hb in Hs. by injection Hs as <-. }
  assert ((0 <= default_threshold)%Q) as Ht by (vm_compute; discriminate).
  assert (0 < Chromosome.p_length (fill_placeholder p_arm_only)) as Hp
    by (vm_compute; reflexivity).
  assert (Forall (fun row : Z * Z * Z => -100000 < row.1.1) (rows_of amplified_1 "1"))
    as Hrows by (repeat constructor).
  refine (conj Hwf (conj eq_refl (conj Ht (conj Hp (conj Hrows _))))).
  exact (q_arm_missing_ignored amplified_1 p_arm_only default_threshold ∅
           Hwf eq_refl Ht Hp Hrows).
Defined.
(** ** The normaliser: what a successful call does *)

Module NormaliserFacts.

Lemma zip3_shift d ss es cs x :
  snd <$> List.find (fun row : Z * Z * Z => (row.1.1 <=? x) && (x <? row.1.2))
            (zip3 ss es ((fun y => y - d) <$> cs))
  = (fun v => v - d) <$>
    (snd <$> List.find (fun row : Z * Z * Z => (row.1.1 <=? x) && (x <? row.1.2))
               (zip3 ss es cs)).
Proof.
  revert es cs. induction ss as [|s ss IH]; intros [|e es] [|c cs]; try done.
  rewrite fmap_cons. cbn [zip3 List.find fst snd].
  destruct ((s <=? x) && (x <? e)); [done|]. apply IH.
Qed.

Lemma shift_wf self d :
  wf_sample self ->
  wf_sample
    {| starts := starts self; ends := ends self;
       cn_states := (fun cn : list Z => (fun y => y - d) <$> cn) <$> cn_states self;
       len_seg := len_seg self; is_chr_prefixed := is_chr_prefixed self;
       ploidy := ploidy self |}.
Proof.
  intros Hwf chrom. specialize (Hwf chrom). unfold wf_chrom in *. simpl.
  rewrite lookup_fmap.
  destruct (len_seg self !! chrom).
  - destruct Hwf as (L & lo & Hs & He & Hc & Hp).
    exists ((fun g => mkSeg (seg_start g) (seg_end g) (seg_cn g - d)) <$> L), lo.
    rewrite Hs, He, Hc. simpl. rewrite <- !list_fmap_compose.
    repeat split; try done.
    clear -Hp. revert lo Hp. induction L as [|g L IH]; intros lo Hp; [done|].
    destruct Hp as (H1 & H2 & H3). simpl. repeat split; try done. by apply IH.
  - destruct Hwf as (Hs & He & Hc). by rewrite Hc.
Qed.

(** What a call that normalises does to the sample. *)
Lemma adjust_ploidy_effect (self self' : SampleCNVs)
    (arm_coords arm_coords' : odict Chromosome.t) (sample_name : string) (redo : bool) :
  wf_sample self -> ploidy self = None \/ redo = true ->
  adjust_ploidy self arm_coords sample_name redo = (arm_coords', self', Ok tt) ->
  exists p,
    ploidy self' = Some p /\ 1 <= p /\ wf_sample self' /\
    (forall k x, cn_at self' k x = (fun v => v - (p - 2)) <$> cn_at self k x) /\
    forall name, adjust_ploidy self' arm_coords' name false = (arm_coords', self', Ok tt).
Proof.
  intros Hwf Hrun H. unfold adjust_ploidy in H.
  assert (bool_decide (is_Some (ploidy self)) && negb redo = false) as Hb.
  { destruct Hrun as [Hn| ->]; [|by rewrite andb_false_r]. by rewrite Hn. }
  rewrite Hb in H.
  destruct (ploidy_chromosomes self arm_coords ∅ 0) as [t [[cov g]|ex]]; [|done].
  destruct (g =? 0); [done|].
  destruct (Z.ltb_spec (round_div (map_fold (fun cn bases x => x + cn * bases) 0 cov) g) 1)
    as [|Hp]; [done|].
  set (p := round_div _ g) in *.
  injection H as <- <-. exists p.
  split; [done|]. split; [done|].
  assert (forall k x,
    cn_at {| starts := starts self; ends := ends self;
             cn_states := (fun cn : list Z => (fun y => y - (p - 2)) <$> cn) <$> cn_states self;
             len_seg := len_seg self; is_chr_prefixed := is_chr_prefixed self;
             ploidy := Some p |} k x
    = (fun v => v - (p - 2)) <$> cn_at self k x) as Hshift.
  { intros k x. unfold cn_at, rows_of. simpl. rewrite lookup_fmap.
    destruct (starts self !! k) as [ss|]; [|done].
    destruct (ends self !! k) as [es|]; [|done].
    destruct (cn_states self !! k) as [cs|]; [|done].
    simpl. apply zip3_shift. }
  destruct (Z.eqb_spec p 2) as [Hp2|Hp2]; simpl.
  - split; [|split]; [| |done].
    + intros chrom. apply (Hwf chrom).
    + intros k x. rewrite Hp2. replace (2 - 2) with 0 by lia.
      unfold cn_at. simpl.
      change (rows_of {| starts := starts self; ends := ends self;
                         cn_states := cn_states self; len_seg := len_seg self;
                         is_chr_prefixed := is_chr_prefixed self;
                         ploidy := Some 2 |} k) with (rows_of self k).
      destruct (List.find _ (rows_of self k)) as [[[? ?] v]|]; simpl; [|done].
      f_equal. lia.
  - split; [|split]; [| |done].
    + intros chrom.
      apply (shift_wf self (p - 2) Hwf chrom).
    + apply Hshift.
Qed.

End NormaliserFacts.

(** X8. A call of the normaliser that computes the ploidy and
    returns has cached a ploidy [p >= 1], has left every segment where it
    was and shifted the state of every position by [p - 2] (nothing moves
    when [p = 2]), and has kept the sample consolidated; calling it again
    without [redo] changes neither the sample nor the arm table. *)
Theorem normaliser_shifts_states (self self' : SampleCNVs)
    (arm_coords arm_coords' : odict Chromosome.t) (sample_name : string) (redo : bool) :
  wf_sample self -> ploidy self = None \/ redo = true ->
  adjust_ploidy self arm_coords sample_name redo = (arm_coords', self', Ok tt) ->
  exists p,
    ploidy self' = Some p /\ 1 <= p /\ wf_sample self' /\
    (forall k x, cn_at self' k x = (fun v => v - (p - 2)) <$> cn_at self k x) /\
    forall name, adjust_ploidy self' arm_coords' name false = (arm_coords', self', Ok tt).
Proof.
  intros Hwf Hrun Hcall.
  destruct (NormaliserFacts.adjust_ploidy_effect self self' arm_coords arm_coords'
              sample_name redo Hwf Hrun Hcall) as (p & Hp & Hge & Hwf' & Hcn & Hagain).
  exists p. by repeat split.
Qed.

Lemma normaliser_shifts_states_witness :
  wf_sample tetraploid_1 /\ (ploidy tetraploid_1 = None \/ false = true) /\
  (adjust_ploidy tetraploid_1 two_arms_table "T1" false).2 = Ok tt /\
  exists p,
    ploidy (adjust_ploidy tetraploid_1 two_arms_table "T1" false).1.2 = Some p /\
    1 <= p /\
    forall k x,
      cn_at (adjust_ploidy tetraploid_1 two_arms_table "T1" false).1.2 k x
      = (fun v => v - (p - 2)) <$> cn_at tetraploid_1 k x.
Proof.
  assert (wf_sample tetraploid_1) as Hwf.
  { destruct (AddFacts.add_wf init "1" 0 2000 4 AddFacts.init_wf) as (s & Hs & H);
      [lia|].
    assert (add init "1" 0 2000 4 = Ok tetraploid_1) as Hb by (vm_compute; reflexivity).
    rewrite Hb in Hs. by injection Hs as <-. }
  assert (adjust_ploidy tetraploid_1 two_arms_table "T1" false
          = ((adjust_ploidy tetraploid_1 two_arms_table "T1" false).1.1,
             (adjust_ploidy tetraploid_1 two_arms_table "T1" false).1.2, Ok tt))
    as Hcall by (vm_compute; reflexivity).
  refine (conj Hwf (conj (or_introl eq_refl) (conj _ _))).
  { vm_compute; reflexivity. }
  destruct (normaliser_shifts_states tetraploid_1 _ two_arms_table _ "T1" false
              Hwf (or_introl eq_refl) Hcall) as (p & Hp & Hge & _ & Hcn & _).
  exists p. exact (conj Hp (conj Hge Hcn)).
Defined.
Module GenePassFacts.

Lemma focal_event_type_strongest cn :
  cn <> 2 -> focal_event_type cn = Returns (strongest cn).
Proof.
  intros Hcn. unfold focal_event_type, strongest. rewrite !Z.gtb_ltb.
  destruct (Z.ltb_spec 3 cn); [done|].
  destruct (Z.ltb_spec 2 cn); [done|].
  destruct (Z.ltb_spec cn 1); [done|].
  destruct (Z.ltb_spec cn 2); [done|lia].
Qed.

Lemma get_overlap_genes_filter chrom start end_ cn gene_coords :
  cn <> 2 -> gene_coords <> [] ->
  get_overlap_genes chrom start end_ cn gene_coords
  = Ok (filter (fun it => disruptedb start end_ cn it.2 = true)
          (genes_scanned chrom gene_coords)).*1.
Proof.
  intros Hcn Hne. unfold get_overlap_genes, genes_scanned.
  destruct gene_coords as [|[first_key genes] rest]; [done|].
  cbn [mbind result_bind].
  destruct (odict_get _ _) as [genes_on_chrom|]; simpl; [|done].
  by rewrite GeneFacts.overlap_genes_loop_filter.
Qed.

Lemma elem_of_gene_lines sample event_type subset_ids olap_genes s g l :
  (s, g, l) ∈ gene_lines sample event_type subset_ids olap_genes <->
  s = sample /\ l = event_type /\ g ∈ olap_genes /\ in_subset subset_ids g.
Proof.
  induction olap_genes as [|gene rest IH]; simpl.
  - rewrite elem_of_nil. split; [done|]. intros (_ & _ & H & _).
    by apply elem_of_nil in H.
  - destruct subset_ids as [ids|]; simpl.
    + case_bool_decide as Hin; simpl; rewrite !elem_of_cons, IH.
      * split.
        -- intros [[= -> -> ->]|(-> & -> & ? & ?)]; auto.
        -- intros (-> & -> & [->|?] & ?); auto.
      * split.
        -- intros (-> & -> & ? & ?); auto.
        -- intros (-> & -> & [->|?] & ?); auto. done.
    + rewrite !elem_of_cons, IH. split.
      * intros [[= -> -> ->]|(-> & -> & ? & ?)]; auto.
      * intros (-> & -> & [->|?] & ?); auto.
Qed.

Lemma focal_segments_lines sample chrom gene_coords subset_ids thresh rows :
  gene_coords <> [] ->
  exists lines,
    focal_segments sample chrom rows gene_coords subset_ids thresh = Returns lines /\
    forall s g l,
      (s, g, l) ∈ lines <->
      s = sample /\ in_subset subset_ids g /\
      exists row gene,
        row ∈ rows /\ focal thresh row /\ l = strongest row.2 /\
        (g, gene) ∈ genes_scanned chrom gene_coords /\
        disrupted row.1.1 row.1.2 row.2 gene.
Proof.
  intros Hne. induction rows as [|[[start end_] cn] rows IH].
  - exists []. split; [done|]. intros s g l. rewrite elem_of_nil.
    split; [done|]. intros (_ & _ & row & gene & H & _). by apply elem_of_nil in H.
  - destruct IH as (rest & Hrest & Hlines). cbn [focal_segments].
    rewrite Hrest.
    destruct (Z.eqb_spec cn 2) as [->|Hcn]; cbn [mbind outcome_bind].
    { exists rest. split; [done|]. intros s g l. rewrite Hlines.
      split; intros (-> & Hsub & row & gene & Hrow & Hf & H); (split; [done|]);
        (split; [done|]); exists row, gene.
      - split; [apply elem_of_cons; by right|done].
      - apply elem_of_cons in Hrow as [->|Hrow]; [|done].
        destruct Hf as [Hf _]. done. }
    destruct (Z.ltb_spec (end_ - start) thresh) as [Hlt|Hge];
      cbn [mbind outcome_bind].
    2:{ exists rest. split; [done|]. intros s g l. rewrite Hlines.
        split; intros (-> & Hsub & row & gene & Hrow & Hf & H); (split; [done|]);
          (split; [done|]); exists row, gene.
        - split; [apply elem_of_cons; by right|done].
        - apply elem_of_cons in Hrow as [->|Hrow]; [|done].
          destruct Hf as [_ Hf]. simpl in Hf. lia. }
    rewrite focal_event_type_strongest by done. cbn [mbind outcome_bind].
    rewrite get_overlap_genes_filter by done. cbn [uncaught mbind outcome_bind].
    eexists. split; [done|]. intros s g l.
    rewrite elem_of_app, elem_of_gene_lines, Hlines. split.
    + intros [(-> & -> & Hg & Hsub)|(-> & Hsub & row & gene & Hrow & H)].
      * split; [done|]. split; [done|].
        apply list_elem_of_fmap in Hg as ([g' gene] & -> & Hg).
        apply list_elem_of_filter in Hg as [Hd Hg]. simpl in Hd.
        apply GeneFacts.disruptedb_spec in Hd.
        exists (start, end_, cn), gene. simpl.
        split; [apply elem_of_cons; by left|].
        split; [by split|]. by split.
      * split; [done|]. split; [done|]. exists row, gene.
        split; [apply elem_of_cons; by right|done].
    + intros (-> & Hsub & row & gene & Hrow & Hf & -> & Hg & Hd).
      apply elem_of_cons in Hrow as [->|Hrow].
      * left. simpl in *. split; [done|]. split; [done|]. split; [|done].
        apply list_elem_of_fmap. exists (g, gene). split; [done|].
        apply list_elem_of_filter. split; [|done].
        by apply GeneFacts.disruptedb_spec.
      * right. split; [done|]. split; [done|]. by exists row, gene.
Qed.

Lemma focal_chroms_lines sample cnvs gene_coords subset_ids thresh keys :
  gene_coords <> [] -> wf_sample cnvs ->
  Forall (fun k => is_Some (cn_states cnvs !! k)) keys ->
  exists lines,
    focal_chroms sample cnvs keys gene_coords subset_ids thresh = Returns lines /\
    forall s g l,
      (s, g, l) ∈ lines <->
      s = sample /\ in_subset subset_ids g /\
      exists chrom row gene,
        chrom ∈ keys /\ row ∈ rows_of cnvs chrom /\ focal thresh row /\
        l = strongest row.2 /\
        (g, gene) ∈ genes_scanned chrom gene_coords /\
        disrupted row.1.1 row.1.2 row.2 gene.
Proof.
  intros Hne Hwf Hkeys. induction keys as [|chrom keys IH].
  - exists []. split; [done|]. intros s g l. rewrite elem_of_nil.
    split; [done|]. intros (_ & _ & chrom & row & gene & H & _).
    by apply elem_of_nil in H.
  - apply Forall_cons in Hkeys as [[cs Hcs] Hkeys].
    destruct (IH Hkeys) as (rest & Hrest & Hlines). cbn [focal_chroms].
    pose proof (Hwf chrom) as Hk. unfold wf_chrom in Hk.
    destruct (len_seg cnvs !! chrom);
      [|destruct Hk as (_ & _ & Hk); congruence].
    destruct Hk as (L & lo & Hs & He & Hc & _).
    unfold getitem. rewrite Hs, He, Hc. cbn [uncaught mbind outcome_bind].
    destruct (focal_segments_lines sample chrom gene_coords subset_ids thresh
                (zip3 (seg_start <$> L) (seg_end <$> L) (seg_cn <$> L)) Hne)
      as (written & -> & Hwritten).
    cbn [mbind outcome_bind]. rewrite Hrest. cbn [mbind outcome_bind].
    eexists. split; [done|]. intros s g l.
    assert (rows_of cnvs chrom
            = zip3 (seg_start <$> L) (seg_end <$> L) (seg_cn <$> L)) as Hrows.
    { unfold rows_of. by rewrite Hs, He, Hc. }
    rewrite elem_of_app, Hwritten, Hlines. split.
    + intros [(-> & Hsub & row & gene & Hrow & H)
             |(-> & Hsub & chrom' & row & gene & Hin & H)].
      * split; [done|]. split; [done|]. exists chrom, row, gene.
        split; [apply elem_of_cons; by left|]. by rewrite Hrows.
      * split; [done|]. split; [done|]. exists chrom', row, gene.
        split; [apply elem_of_cons; by right|done].
    + intros (-> & Hsub & chrom' & row & gene & Hin & Hrow & H).
      apply elem_of_cons in Hin as [->|Hin].
      * left. split; [done|]. split; [done|]. exists row, gene.
        rewrite Hrows in Hrow. by split.
      * right. split; [done|]. split; [done|]. by exists chrom', row, gene.
Qed.

End GenePassFacts.

(** X9. On a gene table that is not empty and samples that are
    consolidated, the gene pass of [generate_cnv_files] completes, in
    whatever order the dictionaries yield their keys: its test for an
    invalid copy-number state never fires and the annotator is never
    called on a neutral segment.  The lines it writes are exactly the
    triples (sample, gene, label) for which the sample stores a segment
    that is not neutral and is shorter than the focal threshold, whose
    label is the strongest tier of its state (AMP above 3, GAIN above 2,
    HOMDEL below 1, HETLOSS below 2), and which disrupts the gene by the
    policy of the annotator, the gene lying in the subset when one is
    given. *)
Theorem gene_pass_lines (keys_of : SampleCNVs -> list string)
    (sample_cnvs : odict SampleCNVs) (gene_coords : odict (odict Gene.t))
    (subset_ids : option (gset string)) (focal_cn_thresh : Z) :
  gene_coords <> [] ->
  Forall (fun sc : string * SampleCNVs =>
            wf_sample sc.2 /\
            Forall (fun k => is_Some (cn_states sc.2 !! k)) (keys_of sc.2))
    sample_cnvs ->
  exists lines,
    gene_pass keys_of sample_cnvs gene_coords subset_ids focal_cn_thresh
    = Returns lines /\
    forall s g l,
      (s, g, l) ∈ lines <->
      in_subset subset_ids g /\
      exists cnvs chrom row gene,
        (s, cnvs) ∈ sample_cnvs /\ chrom ∈ keys_of cnvs /\
        row ∈ rows_of cnvs chrom /\ focal focal_cn_thresh row /\
        l = strongest row.2 /\
        (g, gene) ∈ genes_scanned chrom gene_coords /\
        disrupted row.1.1 row.1.2 row.2 gene.
Proof.
  intros Hne Hall. induction sample_cnvs as [|[sample cnvs] rest IH].
  - exists []. split; [done|]. intros s g l. rewrite elem_of_nil.
    split; [done|]. intros (_ & cnvs & chrom & row & gene & H & _).
    by apply elem_of_nil in H.
  - apply Forall_cons in Hall as [[Hwf Hkeys] Hall]. simpl in Hwf, Hkeys.
    destruct (IH Hall) as (later & Hlater & Hlines). cbn [gene_pass].
    destruct (GenePassFacts.focal_chroms_lines sample cnvs gene_coords subset_ids
                focal_cn_thresh (keys_of cnvs) Hne Hwf Hkeys)
      as (written & -> & Hwritten).
    cbn [mbind outcome_bind]. rewrite Hlater. cbn [mbind outcome_bind].
    eexists. split; [done|]. intros s g l.
    rewrite elem_of_app, Hwritten, Hlines. split.
    + intros [(-> & Hsub & chrom & row & gene & H)
             |(Hsub & cnvs' & chrom & row & gene & Hin & H)].
      * split; [done|]. exists cnvs, chrom, row, gene.
        split; [apply elem_of_cons; by left|done].
      * split; [done|]. exists cnvs', chrom, row, gene.
        split; [apply elem_of_cons; by right|done].
    + intros (Hsub & cnvs' & chrom & row & gene & Hin & H).
      apply elem_of_cons in Hin as [[= -> ->]|Hin].
      * left. split; [done|]. split; [done|]. by exists chrom, row, gene.
      * right. split; [done|]. by exists cnvs', chrom, row, gene.
Qed.

Lemma gene_pass_lines_witness :
  one_gene <> [] /\
  Forall (fun sc : string * SampleCNVs =>
            wf_sample sc.2 /\
            Forall (fun k => is_Some (cn_states sc.2 !! k)) ["1"%string])
    [("T1"%string, amplified_1)] /\
  exists lines,
    gene_pass (fun _ => ["1"%string]) [("T1"%string, amplified_1)] one_gene None
      default_focal_cn_thresh = Returns lines /\
    forall s g l,
      (s, g, l) ∈ lines <->
      in_subset None g /\
      exists cnvs chrom row gene,
        (s, cnvs) ∈ [("T1"%string, amplified_1)] /\ chrom ∈ ["1"%string] /\
        row ∈ rows_of cnvs chrom /\ focal default_focal_cn_thresh row /\
        l = strongest row.2 /\
        (g, gene) ∈ genes_scanned chrom one_gene /\
        disrupted row.1.1 row.1.2 row.2 gene.
Proof.
  assert (one_gene <> []) as Hne by discriminate.
  assert (wf_sample amplified_1) as Hwf.
  { destruct (AddFacts.add_wf init "1" 1000 1850 5 AddFacts.init_wf) as (s & Hs & H);
      [lia|].
    assert (add init "1" 1000 1850 5 = Ok amplified_1) as Hb by (vm_compute; reflexivity).
    rewrite Hb in Hs. by injection Hs as <-. }
  assert (Forall (fun sc : string * SampleCNVs =>
            wf_sample sc.2 /\
            Forall (fun k => is_Some (cn_states sc.2 !! k)) ["1"%string])
            [("T1"%string, amplified_1)]) as Hall.
  { repeat constructor; [exact Hwf|]. by eexists. }
  refine (conj Hne (conj Hall _)).
  exact (gene_pass_lines (fun _ => ["1"%string]) [("T1"%string, amplified_1)]
           one_gene None default_focal_cn_thresh Hne Hall).
Defined.
(** ** The arm pass of the driver *)

Module DriverFacts.

Lemma fill_placeholder_idem c : fill_placeholder (fill_placeholder c) = fill_placeholder c.
Proof. by destruct c as [chrom [ps|] pe [qs|] qe ql pl]. Qed.

Lemma fill_table_idem (t : odict Chromosome.t) :
  prod_map id fill_placeholder <$> (prod_map id fill_placeholder <$> t)
  = prod_map id fill_placeholder <$> t.
Proof.
  rewrite <- list_fmap_compose. apply list_fmap_ext. intros i [k c] _. simpl.
  unfold prod_map. simpl. by rewrite fill_placeholder_idem.
Qed.

Lemma adjust_all_nil sample_cnvs arm_coods arm_coods' r :
  adjust_all sample_cnvs arm_coods = (arm_coods', [], r) -> arm_coods' = arm_coods.
Proof.
  destruct sample_cnvs as [|[sample cnvs] rest]; cbn [adjust_all].
  - by intros [= <- _].
  - destruct (adjust_ploidy cnvs arm_coods sample false) as [[t1 cnvs1] [[]|ex]];
      [|done].
    by destruct (adjust_all rest t1) as [[t2 rest'] r'].
Qed.

(** The loop of normalisations: the table ends filled, the samples
    consolidated. *)
Lemma adjust_all_ok sample_cnvs : forall arm_coods arm_coods' sample_cnvs',
  Forall (fun sc : string * SampleCNVs => wf_sample sc.2 /\ ploidy sc.2 = None)
    sample_cnvs ->
  adjust_all sample_cnvs arm_coods = (arm_coods', sample_cnvs', Ok tt) ->
  (sample_cnvs' = [] \/ arm_coods' = prod_map id fill_placeholder <$> arm_coods) /\
  Forall (fun sc : string * SampleCNVs => wf_sample sc.2) sample_cnvs'.
Proof.
  induction sample_cnvs as [|[sample cnvs] rest IH]; intros t t' s' Hall H;
    cbn [adjust_all] in H.
  - injection H as <- <-. split; [by left|constructor].
  - apply Forall_cons in Hall as [[Hwf Hnone] Hall]. simpl in Hwf, Hnone.
    destruct (adjust_ploidy cnvs t sample false) as [[t1 cnvs1] [[]|ex]] eqn:Hadj;
      [|done].
    destruct (adjust_all rest t1) as [[t2 rest'] r] eqn:Hrest.
    injection H as <- <- ->.
    pose proof (ArmPassFacts.adjust_ploidy_fills _ _ _ _ _ _ (or_introl Hnone) Hadj)
      as ->.
    destruct (NormaliserFacts.adjust_ploidy_effect _ _ _ _ _ _ Hwf (or_introl Hnone) Hadj)
      as (p & _ & _ & Hwf1 & _).
    destruct (IH _ _ _ Hall Hrest) as [Ht Hwfs].
    split; [|by constructor]. right.
    destruct Ht as [->| ->].
    + by apply adjust_all_nil in Hrest as ->.
    + apply fill_table_idem.
Qed.

Lemma arm_chroms_raise cnvs arm_coods f :
  wf_sample cnvs -> Forall (fun kc : string * Chromosome.t => windows_known kc.2) arm_coods ->
  arm_chroms cnvs arm_coods = Raises f -> f = Escaped ZeroDivisionError.
Proof.
  intros Hwf Hall. induction arm_coods as [|[chrom c] rest IH]; [done|].
  apply Forall_cons in Hall as [Hc Hall]. cbn [arm_chroms].
  destruct (sex_chromosome chrom); [by apply IH|].
  destruct (overlap_chrom cnvs c default_threshold) as [events|ex] eqn:Hev;
    cbn [uncaught mbind outcome_bind].
  - destruct (arm_chroms cnvs rest); [done|].
    cbn [mbind outcome_bind]. intros [= <-]. by apply IH.
  - intros [= <-]. f_equal.
    by eapply ArmPassFacts.overlap_chrom_raise.
Qed.

Lemma arm_chroms_returns cnvs arm_coods :
  wf_sample cnvs ->
  Forall (fun kc : string * Chromosome.t =>
            windows_known kc.2 /\
            (sex_chromosome kc.1 = false ->
             0 < Chromosome.p_length kc.2 /\ 0 < Chromosome.q_length kc.2))
    arm_coods ->
  exists written,
    arm_chroms cnvs arm_coods = Returns written /\
    length written = length (filter (fun kc => sex_chromosome kc.1 = false) arm_coods).
Proof.
  intros Hwf Hall. induction arm_coods as [|[chrom c] rest IH]; [by exists []|].
  apply Forall_cons in Hall as [[Hc Hlen] Hall]. cbn [arm_chroms].
  destruct (IH Hall) as (later & Hlater & Hn). simpl in Hlen.
  rewrite filter_cons. simpl.
  destruct (sex_chromosome chrom) eqn:Hsex.
  - rewrite decide_False by done. by exists later.
  - rewrite decide_True by done. destruct (Hlen eq_refl) as [Hp Hq].
    destruct (ArmPassFacts.overlap_chrom_returns cnvs c default_threshold Hwf Hc Hp Hq)
      as [events ->].
    cbn [uncaught mbind outcome_bind]. rewrite Hlater. cbn [mbind outcome_bind].
    eexists. split; [done|]. simpl. by rewrite Hn.
Qed.

End DriverFacts.

(** X10. In [generate_cnv_files], once the loop of
    normalisations has returned for the consolidated samples of the file,
    the arm pass over the table of [load_chrom_arm] can fail in one way
    only, a division by an arm length of zero: the normaliser has set every
    arm the file left out, so no coordinate is missing when the classifier
    compares it.  When the arms of the chromosomes other than X and Y have
    positive lengths the pass completes, writing for each sample found
    among [sample_ids], in the order of the samples, one dictionary of events
    for each chromosome other than X and Y. *)
Theorem arm_pass_after_normalisation (int : string -> option Z)
    (arm_file : list string) (arm_coods arm_coods' : odict Chromosome.t)
    (sample_cnvs sample_cnvs' : odict SampleCNVs) (sample_ids : list string) :
  load_chrom_arm int arm_file = Returns arm_coods ->
  Forall (fun sc : string * SampleCNVs => wf_sample sc.2 /\ ploidy sc.2 = None)
    sample_cnvs ->
  adjust_all sample_cnvs arm_coods = (arm_coods', sample_cnvs', Ok tt) ->
  (forall f, arm_pass sample_cnvs' sample_ids arm_coods' = Raises f ->
             f = Escaped ZeroDivisionError) /\
  (Forall (fun kc : string * Chromosome.t =>
             sex_chromosome kc.1 = false ->
             0 < Chromosome.p_length kc.2 /\ 0 < Chromosome.q_length kc.2)
     arm_coods' ->
   exists written,
     arm_pass sample_cnvs' sample_ids arm_coods' = Returns written /\
     written.*1 = filter (fun s => s ∈ sample_ids) sample_cnvs'.*1 /\
     Forall (fun sw : string * list (gmap string event) =>
               length sw.2
               = length (filter (fun kc : string * Chromosome.t =>
                                   sex_chromosome kc.1 = false) arm_coods'))
       written).
Proof.
  intros Hload Hall Hadj.
  apply ArmFacts.load_arm_lines_ok in Hload as [Hok _]; [|constructor..].
  destruct (DriverFacts.adjust_all_ok _ _ _ _ Hall Hadj) as [Htable Hwf].
  assert (sample_cnvs' = [] \/
          Forall (fun kc : string * Chromosome.t => windows_known kc.2) arm_coods')
    as [->|Hknown].
  { destruct Htable as [?| ->]; [by left|right].
    apply Forall_fmap. eapply Forall_impl; [exact Hok|].
    intros [k c] (_ & Hp & _). simpl. by apply ArmPassFacts.fill_known. }
  { split; [done|]. intros _. exists []. by repeat split. }
  clear Hadj Htable Hall Hok. split.
  - intros f. induction sample_cnvs' as [|[sample cnvs] rest IH]; [done|].
    apply Forall_cons in Hwf as [Hwf1 Hwf]. cbn [arm_pass].
    case_bool_decide; [|by apply IH].
    destruct (arm_chroms cnvs arm_coods') as [written|f'] eqn:Hchroms;
      cbn [mbind outcome_bind].
    + destruct (arm_pass rest sample_ids arm_coods'); [done|].
      cbn [mbind outcome_bind]. intros [= <-]. by apply IH.
    + intros [= <-]. by eapply DriverFacts.arm_chroms_raise.
  - intros Hlen.
    assert (Forall (fun kc : string * Chromosome.t =>
              windows_known kc.2 /\
              (sex_chromosome kc.1 = false ->
               0 < Chromosome.p_length kc.2 /\ 0 < Chromosome.q_length kc.2))
              arm_coods') as Hboth.
    { apply Forall_forall. intros kc Hkc. split.
      - by apply (proj1 (Forall_forall _ _) Hknown).
      - by apply (proj1 (Forall_forall _ _) Hlen). }
    induction sample_cnvs' as [|[sample cnvs] rest IH]; [by exists []|].
    apply Forall_cons in Hwf as [Hwf1 Hwf]. cbn [arm_pass].
    destruct (IH Hwf) as (later & Hlater & Hnames & Hlens).
    rewrite fmap_cons, filter_cons. simpl.
    case_bool_decide as Hin.
    + rewrite decide_True by done.
      destruct (DriverFacts.arm_chroms_returns cnvs arm_coods' Hwf1 Hboth)
        as (written & -> & Hn).
      cbn [mbind outcome_bind]. rewrite Hlater. cbn [mbind outcome_bind].
      eexists. split; [done|]. rewrite fmap_cons. simpl.
      split; [by rewrite Hnames|]. by constructor.
    + rewrite decide_False by done. by exists later.
Qed.

Lemma arm_pass_after_normalisation_witness :
  load_chrom_arm decimal arm_file_13 = Returns acrocentric /\
  Forall (fun sc : string * SampleCNVs => wf_sample sc.2 /\ ploidy sc.2 = None)
    [("T1"%string, neutral_13)] /\
  (adjust_all [("T1"%string, neutral_13)] acrocentric).2 = Ok tt /\
  forall f,
    arm_pass (adjust_all [("T1"%string, neutral_13)] acrocentric).1.2 ["T1"%string]
      (adjust_all [("T1"%string, neutral_13)] acrocentric).1.1 = Raises f ->
    f = Escaped ZeroDivisionError.
Proof.
  assert (load_chrom_arm decimal arm_file_13 = Returns acrocentric) as Hload
    by (vm_compute; reflexivity).
  assert (wf_sample neutral_13) as Hwf.
  { destruct (AddFacts.add_wf init "chr13" 17900000 115169878 2 AddFacts.init_wf)
      as (s & Hs & H); [lia|].
    assert (add init "chr13" 17900000 115169878 2 = Ok neutral_13) as Hb
      by (vm_compute; reflexivity).
    rewrite Hb in Hs. by injection Hs as <-. }
  assert (Forall (fun sc : string * SampleCNVs => wf_sample sc.2 /\ ploidy sc.2 = None)
            [("T1"%string, neutral_13)]) as Hall by (by repeat constructor).
  assert (adjust_all [("T1"%string, neutral_13)] acrocentric
          = ((adjust_all [("T1"%string, neutral_13)] acrocentric).1.1,
             (adjust_all [("T1"%string, neutral_13)] acrocentric).1.2, Ok tt))
    as Hadj by (vm_compute; reflexivity).
  refine (conj Hload (conj Hall (conj _ _))).
  { vm_compute; reflexivity. }
  exact (proj1 (arm_pass_after_normalisation decimal arm_file_13 acrocentric _
                  [("T1"%string, neutral_13)] _ ["T1"%string] Hload Hall Hadj)).
Defined.
(** ** The gene table of [load_gene_coords_bed] *)

Module BedFacts.

Lemma odict_get_set_ne {V} (d : odict V) k k' v :
  k <> k' -> odict_get (odict_set d k v) k' = odict_get d k'.
Proof.
  intros Hne. induction d as [|[k0 v0] d IH]; simpl.
  - destruct (String.eqb_spec k k'); done.
  - destruct (String.eqb_spec k0 k) as [->|H0]; simpl.
    + destruct (String.eqb_spec k k'); done.
    + destruct (String.eqb_spec k0 k'); [done|]. apply IH.
Qed.

Lemma odict_get_set_eq {V} (d : odict V) k v : odict_get (odict_set d k v) k = Some v.
Proof. apply ArmFacts.odict_get_set. Qed.

Lemma odict_set_nonempty {V} (d : odict V) k v : odict_set d k v <> [].
Proof. destruct d as [|[k0 v0] d]; simpl; [done|]. by destruct (String.eqb k0 k). Qed.

Lemma elem_of_odict_set {V} (d : odict V) k v k' v' :
  (k', v') ∈ odict_set d k v -> (k' = k /\ v' = v) \/ (k', v') ∈ d.
Proof.
  induction d as [|[k0 v0] d IH]; simpl.
  - intros H%list_elem_of_singleton. injection H as -> ->. by left.
  - destruct (String.eqb_spec k0 k) as [->|Hne];
      rewrite !elem_of_cons; intros [H|H]; auto.
    + injection H as -> ->. by left.
    + destruct (IH H); auto.
Qed.

Section Loader.
Variable int : string -> option Z.
Variable isdigit : string -> bool.
Variable gene_ids : gmap string string.
Variable alt_gene_ids : option (gmap string string).

Local Abbreviation store := store_gene.
Local Abbreviation read := (read_bed_line int isdigit gene_ids alt_gene_ids).

(** What [store_gene] does to the gene found at a place. *)
Lemma store_gene_at t chrom start end_ id t' :
  Forall genes_ok t ->
  store t chrom start end_ id = Returns t' ->
  exists g,
    gene_at t' chrom id = Some g /\
    match gene_at t chrom id with
    | Some g0 =>
        Gene.start g = Z.min start (Gene.start g0) /\
        Gene.end_ g = Z.max end_ (Gene.end_ g0)
    | None => Gene.start g = start /\ Gene.end_ g = end_
    end /\
    forall chrom' id',
      (chrom', id') <> (chrom, id) -> gene_at t' chrom' id' = gene_at t chrom' id'.
Proof.
  intros Hok. unfold store_gene, gene_at.
  destruct (odict_get t chrom) as [genes|] eqn:Hc; cbn [uncaught mbind outcome_bind option_bind].
  - rewrite Hc. cbn [uncaught mbind outcome_bind].
    destruct (odict_get genes id) as [g0|] eqn:Hg.
    + destruct (negb _); [done|]. intros [= <-].
      eexists. rewrite odict_get_set_eq. cbn [mbind option_bind].
      rewrite odict_get_set_eq. split; [done|]. split.
      * rewrite Z.gtb_ltb.
        destruct (Z.ltb_spec start (Gene.start g0)); simpl;
          destruct (Z.ltb_spec (Gene.end_ g0) end_); simpl; lia.
      * intros chrom' id' Hne.
        destruct (decide (chrom = chrom')) as [<-|Hcc].
        -- rewrite odict_get_set_eq, Hc. cbn [mbind option_bind].
           apply odict_get_set_ne. congruence.
        -- by rewrite odict_get_set_ne.
    + intros [= <-]. eexists. rewrite odict_get_set_eq. cbn [mbind option_bind].
      rewrite odict_get_set_eq. split; [done|]. split; [done|].
      intros chrom' id' Hne.
      destruct (decide (chrom = chrom')) as [<-|Hcc].
      * rewrite odict_get_set_eq, Hc. cbn [mbind option_bind].
        apply odict_get_set_ne. congruence.
      * by rewrite odict_get_set_ne.
  - rewrite odict_get_set_eq. cbn [uncaught mbind outcome_bind odict_get].
    intros [= <-]. eexists. rewrite odict_get_set_eq. cbn [mbind option_bind].
    simpl. rewrite String.eqb_refl. split; [done|]. split; [done|].
    intros chrom' id' Hne.
    destruct (decide (chrom = chrom')) as [<-|Hcc].
    + rewrite odict_get_set_eq, Hc. cbn [mbind option_bind]. simpl.
      destruct (String.eqb_spec id id'); [congruence|done].
    + rewrite !odict_get_set_ne by done. done.
Qed.

Lemma store_gene_ok t chrom start end_ id t' :
  Forall genes_ok t -> NoDup t.*1 ->
  store t chrom start end_ id = Returns t' ->
  Forall genes_ok t' /\ NoDup t'.*1.
Proof.
  intros Hok Hnd. unfold store_gene.
  set (t1 := match odict_get t chrom with
             | Some _ => t
             | None => odict_set t chrom []
             end).
  assert (NoDup t1.*1) as Hnd1.
  { subst t1. destruct (odict_get t chrom); [done|]. by apply ArmFacts.odict_set_NoDup. }
  assert (forall genes, odict_set t1 chrom genes = odict_set t chrom genes) as Hset.
  { intros genes. subst t1. destruct (odict_get t chrom); [done|].
    apply ArmFacts.odict_set_set. }
  assert (forall genes, odict_get t1 chrom = Some genes ->
            NoDup genes.*1 /\
            Forall (fun ig : string * Gene.t =>
                      Gene.name ig.2 = ig.1 /\ Gene.chrom ig.2 = chrom) genes)
    as Hget.
  { subst t1. intros genes. destruct (odict_get t chrom) as [genes0|] eqn:Hc.
    - rewrite Hc. intros [= <-]. apply ArmFacts.odict_get_elem in Hc.
      apply (proj1 (Forall_forall _ _) Hok) in Hc. by destruct Hc as (_ & ? & ?).
    - rewrite odict_get_set_eq. intros [= <-]. split; constructor. }
  destruct (odict_get t1 chrom) as [genes|]; [|done].
  cbn [uncaught mbind outcome_bind].
  destruct (Hget genes eq_refl) as [Hgn Hgs].
  assert (forall g, Gene.name g = id -> Gene.chrom g = chrom ->
            Forall genes_ok (odict_set t chrom (odict_set genes id g)) /\
            NoDup (odict_set t chrom (odict_set genes id g)).*1) as Hfin.
  { intros g Hn Hc. split; [|by apply ArmFacts.odict_set_NoDup].
    apply ArmFacts.odict_set_Forall; [done|].
    split; [apply odict_set_nonempty|]. split; [by apply ArmFacts.odict_set_NoDup|].
    by apply ArmFacts.odict_set_Forall. }
  destruct (odict_get genes id) as [g0|] eqn:Hg.
  - apply ArmFacts.odict_get_elem in Hg.
    apply (proj1 (Forall_forall _ _) Hgs) in Hg. simpl in Hg. destruct Hg as [Hn Hc].
    destruct (negb _); [done|]. intros [= <-]. rewrite Hset.
    apply Hfin; destruct (start <? Gene.start g0); simpl;
      destruct (end_ >? _); simpl; done.
  - intros [= <-]. rewrite Hset. by apply Hfin.
Qed.

(** The test for a gene found on two chromosomes never fires. *)
Lemma store_gene_returns t chrom start end_ id :
  Forall genes_ok t -> exists t', store t chrom start end_ id = Returns t'.
Proof.
  intros Hok. unfold store_gene.
  destruct (odict_get t chrom) as [genes|] eqn:Hc.
  - rewrite Hc. cbn [uncaught mbind outcome_bind].
    destruct (odict_get genes id) as [g0|] eqn:Hg; [|eauto].
    apply ArmFacts.odict_get_elem in Hc, Hg.
    apply (proj1 (Forall_forall _ _) Hok) in Hc. destruct Hc as (_ & _ & Hgs).
    apply (proj1 (Forall_forall _ _) Hgs) in Hg. simpl in Hg. destruct Hg as [_ ->].
    rewrite String.eqb_refl. simpl. eauto.
  - rewrite odict_get_set_eq. cbn [uncaught mbind outcome_bind odict_get]. eauto.
Qed.

Lemma store_gene_nonempty t chrom start end_ id t' :
  store t chrom start end_ id = Returns t' -> t' <> [].
Proof.
  unfold store_gene.
  set (t1 := match odict_get t chrom with
             | Some _ => t
             | None => odict_set t chrom []
             end).
  destruct (odict_get t1 chrom) as [genes|]; [|done].
  cbn [uncaught mbind outcome_bind].
  destruct (odict_get genes id) as [g0|].
  - destruct (negb _); [done|]. intros [= <-]. apply odict_set_nonempty.
  - intros [= <-]. apply odict_set_nonempty.
Qed.

(** The line number is used in the messages only. *)
Lemma read_bed_line_index i j line entry :
  read i line = Returns entry -> read j line = Returns entry.
Proof.
  unfold read_bed_line. destruct (Str.is_empty _); [done|].
  destruct (Str.split _ _) as [|chrom [|start [|end_ [|gene cols]]]]; try done.
  destruct (negb (isdigit start)); [done|].
  by destruct (negb (isdigit end_)).
Qed.

Local Abbreviation yield := (yields int isdigit gene_ids alt_gene_ids).

Lemma grown_refl t : grown yield t [] t.
Proof.
  split; [|split].
  - intros chrom id g Hg. exists g. split; [done|]. lia.
  - intros line chrom s e id H. by apply elem_of_nil in H.
  - intros chrom id g' Hg'. split; left; by exists g'.
Qed.

Lemma grown_skip t line lines t' :
  (forall chrom s e id, ~ yield line chrom s e id) ->
  grown yield t lines t' -> grown yield t (line :: lines) t'.
Proof.
  intros Hno (G1 & G2 & G3). split; [done|]. split.
  - intros l c s e d Hin Hy. apply elem_of_cons in Hin as [->|Hin].
    + by destruct (Hno c s e d).
    + by eapply G2.
  - intros c d g' Hg'. destruct (G3 c d g' Hg') as [Hs He]. split.
    + destruct Hs as [?|(l & e & Hin & Hy)]; [by left|].
      right. exists l, e. split; [apply elem_of_cons; by right|done].
    + destruct He as [?|(l & s0 & Hin & Hy)]; [by left|].
      right. exists l, s0. split; [apply elem_of_cons; by right|done].
Qed.

Lemma grown_store t line lines t1 t' chrom start end_ id :
  Forall genes_ok t ->
  yield line chrom start end_ id ->
  store t chrom start end_ id = Returns t1 ->
  grown yield t1 lines t' -> grown yield t (line :: lines) t'.
Proof.
  intros Hok Hy Hstore (G1 & G2 & G3).
  destruct (store_gene_at _ _ _ _ _ _ Hok Hstore) as (g1 & Hg1 & Hhull & Hother).
  destruct (G1 _ _ _ Hg1) as (g1' & Hg1' & Hs1 & He1).
  split; [|split].
  - intros c d g Hg.
    destruct (decide ((c, d) = (chrom, id))) as [[= -> ->]|Hne].
    + rewrite Hg in Hhull. exists g1'. split; [done|]. lia.
    + rewrite <- Hother in Hg by done. by apply G1.
  - intros l c s e d Hin Hy'. apply elem_of_cons in Hin as [->|Hin]; [|by eapply G2].
    unfold yields in Hy, Hy'. rewrite Hy in Hy'. injection Hy' as <- <- <- <-.
    exists g1'. split; [done|]. destruct (gene_at t chrom id); lia.
  - intros c d g' Hg'. destruct (G3 c d g' Hg') as [Hs He].
    assert (line ∈ line :: lines) as Hhere by (apply elem_of_cons; by left).
    destruct (decide ((c, d) = (chrom, id))) as [[= -> ->]|Hne].
    + split.
      * destruct Hs as [(g & Hg & Hs)|(l & e & Hin & Hy')].
        -- rewrite Hg1 in Hg. injection Hg as <-.
           destruct (gene_at t chrom id) as [g0|].
           ++ destruct (Z.min_spec start (Gene.start g0)) as [[_ Hm]|[_ Hm]].
              ** right. exists line, end_. split; [done|].
                 replace (Gene.start g') with start by lia. done.
              ** left. exists g0. split; [done|]. lia.
           ++ right. exists line, end_. split; [done|].
              replace (Gene.start g') with start by lia. done.
        -- right. exists l, e. split; [apply elem_of_cons; by right|done].
      * destruct He as [(g & Hg & He)|(l & s0 & Hin & Hy')].
        -- rewrite Hg1 in Hg. injection Hg as <-.
           destruct (gene_at t chrom id) as [g0|].
           ++ destruct (Z.max_spec end_ (Gene.end_ g0)) as [[_ Hm]|[_ Hm]].
              ** left. exists g0. split; [done|]. lia.
              ** right. exists line, start. split; [done|].
                 replace (Gene.end_ g') with end_ by lia. done.
           ++ right. exists line, start. split; [done|].
              replace (Gene.end_ g') with end_ by lia. done.
        -- right. exists l, s0. split; [apply elem_of_cons; by right|done].
    + rewrite <- (Hother c d) by done. split.
      * destruct Hs as [?|(l & e & Hin & Hy')]; [by left|].
        right. exists l, e. split; [apply elem_of_cons; by right|done].
      * destruct He as [?|(l & s0 & Hin & Hy')]; [by left|].
        right. exists l, s0. split; [apply elem_of_cons; by right|done].
Qed.

(** The loop: the table stays well formed and grows by the entries read. *)
Lemma load_bed_lines_spec lines : forall i t sk t' sk',
  Forall genes_ok t -> NoDup t.*1 ->
  load_bed_lines int isdigit gene_ids alt_gene_ids lines i t sk = Returns (t', sk') ->
  Forall genes_ok t' /\ NoDup t'.*1 /\ grown yield t lines t'.
Proof.
  induction lines as [|line lines IH]; intros i t sk t' sk' Hok Hnd H;
    cbn [load_bed_lines] in H; cbv zeta in H.
  - injection H as <- <-. split; [done|]. split; [done|]. apply grown_refl.
  - destruct (read (S i) line) as [entry|] eqn:Hread; [|done].
    cbn [mbind outcome_bind] in H.
    apply (read_bed_line_index _ 0) in Hread.
    destruct entry as [|gene|chrom start end_ id].
    + destruct (IH _ _ _ _ _ Hok Hnd H) as (I1 & I2 & I3).
      split; [done|]. split; [done|]. apply grown_skip; [|done].
      intros c s e d Hy. unfold yields in Hy. congruence.
    + destruct (IH _ _ _ _ _ Hok Hnd H) as (I1 & I2 & I3).
      split; [done|]. split; [done|]. apply grown_skip; [|done].
      intros c s e d Hy. unfold yields in Hy. congruence.
    + destruct (store t chrom start end_ id) as [t1|] eqn:Hstore; [|done].
      cbn [mbind outcome_bind] in H.
      destruct (store_gene_ok _ _ _ _ _ _ Hok Hnd Hstore) as [Hok1 Hnd1].
      destruct (IH _ _ _ _ _ Hok1 Hnd1 H) as (I1 & I2 & I3).
      split; [done|]. split; [done|]. by eapply grown_store.
Qed.

(** Nothing but the conversions and the shape of a line can stop the
    loop: the test for a gene on two chromosomes never fires. *)
Lemma load_bed_lines_raise lines : forall i t sk f,
  Forall genes_ok t -> NoDup t.*1 ->
  load_bed_lines int isdigit gene_ids alt_gene_ids lines i t sk = Raises f ->
  f <> GeneOnTwoChromosomes.
Proof.
  induction lines as [|line lines IH]; intros i t sk f Hok Hnd H;
    cbn [load_bed_lines] in H; cbv zeta in H; [done|].
  destruct (read (S i) line) as [entry|f'] eqn:Hread; cbn [mbind outcome_bind] in H.
  - destruct entry as [|gene|chrom start end_ id]; [by eapply IH..|].
    destruct (store_gene_returns t chrom start end_ id Hok) as [t1 Hstore].
    rewrite Hstore in H. cbn [mbind outcome_bind] in H.
    destruct (store_gene_ok _ _ _ _ _ _ Hok Hnd Hstore) as [Hok1 Hnd1].
    by eapply IH.
  - injection H as <-. intros ->. clear -Hread.
    unfold read_bed_line in Hread. destruct (Str.is_empty _); [done|].
    destruct (Str.split _ _) as [|chrom [|start [|end_ [|gene cols]]]]; try done.
    destruct (negb (isdigit start)); [done|].
    destruct (negb (isdigit end_)); [done|].
    destruct (int start); [|done]. destruct (int end_); [|done].
    destruct (negb (isdigit gene)); [|done].
    destruct (gene_ids !! gene); [done|].
    by destruct (default ∅ alt_gene_ids !! gene).
Qed.

End Loader.

End BedFacts.

(** X11. When [load_gene_coords_bed] returns, whatever strings
    [int] and [isdigit] accept, the table is not empty, so that the
    annotator finds a first key in it; no chromosome occurs twice in it,
    no Entrez id twice on a chromosome, no chromosome is left without
    gene, and every gene carries the id and the chromosome it is stored
    under.  Its test for a gene found on two chromosomes never fires,
    whatever the file. *)
Theorem load_gene_coords_bed_table (int : string -> option Z)
    (isdigit : string -> bool) (gene_ids : gmap string string)
    (alt_gene_ids : option (gmap string string)) (bed_file : list string) :
  load_gene_coords_bed int isdigit gene_ids alt_gene_ids bed_file
  <> Raises GeneOnTwoChromosomes /\
  forall gene_coords,
    load_gene_coords_bed int isdigit gene_ids alt_gene_ids bed_file
    = Returns gene_coords ->
    gene_coords <> [] /\ NoDup gene_coords.*1 /\ Forall genes_ok gene_coords.
Proof.
  unfold load_gene_coords_bed.
  destruct (load_bed_lines int isdigit gene_ids alt_gene_ids bed_file 0 [] [])
    as [[t sk]|f] eqn:Hloop; cbn [mbind outcome_bind].
  - apply BedFacts.load_bed_lines_spec in Hloop as (Hok & Hnd & _);
      [|constructor..].
    case_bool_decide as Hempty.
    + split; [by destruct sk|]. intros gene_coords H. by destruct sk.
    + split; [done|]. by intros gene_coords [= <-].
  - split; [|done]. intros [= ->].
    by eapply BedFacts.load_bed_lines_raise in Hloop; [|constructor..].
Qed.

Lemma load_gene_coords_bed_table_witness :
  load_gene_coords_bed decimal all_digits ids_tp53 None bed_file_tp53
  = Returns one_gene /\
  one_gene <> [] /\ NoDup one_gene.*1 /\ Forall genes_ok one_gene.
Proof.
  assert (load_gene_coords_bed decimal all_digits ids_tp53 None bed_file_tp53
          = Returns one_gene) as H by (vm_compute; reflexivity).
  split; [exact H|].
  exact (proj2 (load_gene_coords_bed_table decimal all_digits ids_tp53 None
                  bed_file_tp53) one_gene H).
Defined.

(** X12. The interval [load_gene_coords_bed] stores for a gene is the
    hull of the BED entries read for it on that chromosome: every entry of
    the file that yields the gene lies within the stored interval, and the
    stored start and the stored end are those of entries of the file for
    that gene. *)
Theorem gene_interval_is_hull (int : string -> option Z)
    (isdigit : string -> bool) (gene_ids : gmap string string)
    (alt_gene_ids : option (gmap string string)) (bed_file : list string)
    (gene_coords : odict (odict Gene.t)) :
  load_gene_coords_bed int isdigit gene_ids alt_gene_ids bed_file
  = Returns gene_coords ->
  (forall line chrom s e id,
     line ∈ bed_file -> yields int isdigit gene_ids alt_gene_ids line chrom s e id ->
     exists g, gene_at gene_coords chrom id = Some g /\
       Gene.start g <= s /\ e <= Gene.end_ g) /\
  (forall chrom id g,
     gene_at gene_coords chrom id = Some g ->
     (exists line e, line ∈ bed_file /\
        yields int isdigit gene_ids alt_gene_ids line chrom (Gene.start g) e id) /\
     (exists line s, line ∈ bed_file /\
        yields int isdigit gene_ids alt_gene_ids line chrom s (Gene.end_ g) id)).
Proof.
  unfold load_gene_coords_bed. intros H.
  destruct (load_bed_lines int isdigit gene_ids alt_gene_ids bed_file 0 [] [])
    as [[t sk]|f] eqn:Hloop; [|done].
  cbn [mbind outcome_bind] in H.
  apply BedFacts.load_bed_lines_spec in Hloop as (_ & _ & G1 & G2 & G3);
    [|constructor..].
  case_bool_decide; [by destruct sk|]. injection H as <-.
  split; [exact G2|].
  intros chrom id g Hg. destruct (G3 chrom id g Hg) as [Hs He]. split.
  - by destruct Hs as [(g0 & Hg0 & _)|?].
  - by destruct He as [(g0 & Hg0 & _)|?].
Qed.

Lemma gene_interval_is_hull_witness :
  load_gene_coords_bed decimal all_digits ids_tp53 None bed_file_tp53
  = Returns one_gene /\
  line_of ["chr1"; "1400"; "2000"; "TP53"]%string ∈ bed_file_tp53 /\
  yields decimal all_digits ids_tp53 None
    (line_of ["chr1"; "1400"; "2000"; "TP53"]%string) "1" 1400 2000 "7157" /\
  exists g, gene_at one_gene "1" "7157" = Some g /\
    Gene.start g <= 1400 /\ 2000 <= Gene.end_ g.
Proof.
  assert (load_gene_coords_bed decimal all_digits ids_tp53 None bed_file_tp53
          = Returns one_gene) as H by (vm_compute; reflexivity).
  assert (line_of ["chr1"; "1400"; "2000"; "TP53"]%string ∈ bed_file_tp53) as Hin.
  { apply elem_of_cons. right. apply elem_of_cons. by left. }
  assert (yields decimal all_digits ids_tp53 None
            (line_of ["chr1"; "1400"; "2000"; "TP53"]%string) "1" 1400 2000 "7157")
    as Hy by (vm_compute; reflexivity).
  refine (conj H (conj Hin (conj Hy _))).
  exact (proj1 (gene_interval_is_hull decimal all_digits ids_tp53 None bed_file_tp53
                  one_gene H) _ _ _ _ _ Hin Hy).
Defined.
(** ** The dictionaries of [load_entrez_ids] *)

Module EntrezFacts.

Lemma size_img_le (m : gmap string string) :
  (size (map_img m : gset string) <= size m)%nat.
Proof.
  induction m as [|k v m Hk _ IH] using map_first_key_ind.
  - by rewrite map_img_empty_L, !size_empty.
  - rewrite map_img_insert_notin_L by done.
    rewrite map_size_insert_None by done.
    destruct (decide (v ∈ (map_img m : gset string))).
    + rewrite (subseteq_union_1_L {[v]}) by (by apply singleton_subseteq_l). lia.
    + rewrite size_union by (by apply disjoint_singleton_l).
      rewrite size_singleton. lia.
Qed.

Lemma size_img_inj (m : gmap string string) :
  size m = size (map_img m : gset string) ->
  forall k1 k2 v, m !! k1 = Some v -> m !! k2 = Some v -> k1 = k2.
Proof.
  induction m as [|k v m Hk _ IH] using map_first_key_ind; intros Hsize k1 k2 v' H1 H2.
  - by rewrite lookup_empty in H1.
  - rewrite map_img_insert_notin_L in Hsize by done.
    rewrite map_size_insert_None in Hsize by done.
    pose proof (size_img_le m) as Hle.
    destruct (decide (v ∈ (map_img m : gset string))) as [Hin|Hnin].
    { rewrite (subseteq_union_1_L {[v]}) in Hsize
        by (by apply singleton_subseteq_l). lia. }
    rewrite size_union, size_singleton in Hsize by (by apply disjoint_singleton_l).
    assert (forall k0, m !! k0 = Some v -> False) as Hfresh.
    { intros k0 H0. apply Hnin. apply elem_of_map_img. by exists k0. }
    destruct (decide (k = k1)) as [<-|Hn1], (decide (k = k2)) as [<-|Hn2]; try done.
    + rewrite lookup_insert_eq in H1. injection H1 as <-.
      rewrite lookup_insert_ne in H2 by done. by destruct (Hfresh k2).
    + rewrite lookup_insert_eq in H2. injection H2 as <-.
      rewrite lookup_insert_ne in H1 by done. by destruct (Hfresh k1).
    + rewrite lookup_insert_ne in H1, H2 by done. eapply IH; [lia|done..].
Qed.

Section Loader.
Variable isdigit : string -> bool.
Variable hugo_column entrez_column : string.
Variable status_column prev_name_column : option string.

Local Abbreviation header :=
  (entrez_header hugo_column entrez_column status_column prev_name_column).
Local Abbreviation one_line := (entrez_line isdigit).
Local Abbreviation all_lines :=
  (entrez_lines isdigit hugo_column entrez_column status_column prev_name_column).

(** The header sets column numbers only. *)
Lemma entrez_header_maps cols : forall j st,
  hugo_name_to_id (header cols j st) = hugo_name_to_id st /\
  alt_hugo_name_to_id (header cols j st) = alt_hugo_name_to_id st.
Proof.
  induction cols as [|col cols IH]; intros j st; [done|].
  cbn [entrez_header]. cbv zeta.
  match goal with
  | |- context [entrez_header _ _ _ _ cols (S j) ?s] =>
      destruct (IH (S j) s) as [-> ->]
  end.
  cbv zeta.
  by destruct (String.eqb col hugo_column), (String.eqb col entrez_column),
    (bool_decide (status_column = Some col)),
    (bool_decide (prev_name_column = Some col)).
Qed.

(** A header without the column of the previous symbols leaves its number
    unset. *)
Lemma entrez_header_prev cols : forall j st,
  prev_name_col_num st = None ->
  (forall col, col ∈ cols -> prev_name_column <> Some col) ->
  prev_name_col_num (header cols j st) = None.
Proof.
  induction cols as [|col cols IH]; intros j st Hst Hcols; [done|].
  cbn [entrez_header]. cbv zeta. apply IH.
  - rewrite bool_decide_eq_false_2
      by (apply Hcols; apply elem_of_cons; by left).
    by destruct (String.eqb col hugo_column), (String.eqb col entrez_column),
      (bool_decide (status_column = Some col)).
  - intros c Hc. apply Hcols. apply elem_of_cons. by right.
Qed.

Lemma add_previous_ids names id alt : forall n id',
  add_previous names id alt !! n = Some id' -> id' = id \/ alt !! n = Some id'.
Proof.
  revert alt. induction names as [|name names IH]; intros alt n id' H; [by right|].
  cbn [add_previous] in H. apply IH in H as [?|H]; [by left|].
  destruct (alt !! name) eqn:Hn; [by right|].
  destruct (decide (name = n)) as [->|Hne].
  - rewrite lookup_insert_eq in H. left. congruence.
  - rewrite lookup_insert_ne in H by done. by right.
Qed.

Lemma entrez_line_ok i cols st st' :
  ids_ok isdigit st -> one_line i cols st = Returns st' ->
  ids_ok isdigit st' /\
  hugo_col_num st' = hugo_col_num st /\ entrez_col_num st' = entrez_col_num st /\
  status_col_num st' = status_col_num st /\
  prev_name_col_num st' = prev_name_col_num st /\
  (prev_name_col_num st = None -> st' = st).
Proof.
  intros Hok H. pose proof Hok as [Hd Ha]. unfold entrez_line in H.
  destruct (match status_col_num st with
            | Some k => _
            | None => Returns false
            end) as [[]|]; cbn [mbind outcome_bind] in H; [by injection H as <-| |done].
  destruct (hugo_col_num st) as [h|] eqn:Hh; [|done].
  destruct (entrez_col_num st) as [e|] eqn:He; [|done].
  destruct (cols !! h) as [hugo_name|]; [|done].
  destruct (cols !! e) as [entrez_id|]; [|done].
  destruct (isdigit entrez_id) eqn:Hdigit; simpl in H.
  2:{ destruct (String.eqb entrez_id ""); [by injection H as <-|done]. }
  destruct (hugo_name_to_id st !! hugo_name) eqn:Hfree; [done|].
  destruct (prev_name_col_num st) as [k|]; cbn [column] in H; [|done].
  destruct (Py.index cols k) as [previous|]; cbn [uncaught mbind outcome_bind] in H;
    [|done].
  injection H as <-. cbn [hugo_name_to_id alt_hugo_name_to_id hugo_col_num
    entrez_col_num status_col_num prev_name_col_num].
  split; [|done]. split.
  - intros n id Hn. cbn [hugo_name_to_id] in Hn.
    destruct (decide (hugo_name = n)) as [->|Hne].
    + rewrite lookup_insert_eq in Hn. congruence.
    + rewrite lookup_insert_ne in Hn by done. by eapply Hd.
  - intros n id Hn. cbn [hugo_name_to_id alt_hugo_name_to_id] in *.
    assert (id = entrez_id \/ alt_hugo_name_to_id st !! n = Some id) as [->|Hold].
    { destruct (Str.split "," previous) as [|first rest]; [by right|].
      destruct (String.eqb first ""); [by right|].
      by apply add_previous_ids in Hn. }
    + exists hugo_name. by rewrite lookup_insert_eq.
    + destruct (Ha n id Hold) as [n' Hn'].
      exists n'. rewrite lookup_insert_ne; [done|]. congruence.
Qed.

Lemma entrez_lines_ok lines : forall i st st',
  ids_ok isdigit st -> all_lines lines i st = Returns st' -> ids_ok isdigit st'.
Proof.
  induction lines as [|line lines IH]; intros i st st' Hok H;
    cbn [entrez_lines] in H; cbv zeta in H.
  - by injection H as <-.
  - destruct (_ <? 2)%nat; [done|].
    destruct (_ || _).
    + set (st1 := header _ 0 st) in *.
      assert (ids_ok isdigit st1) as Hok1.
      { destruct Hok as [Hd Ha]. subst st1.
        destruct (entrez_header_maps (Str.split "009" (Str.strip_line_ending line)) 0 st)
          as [E1 E2].
        split; intros n id; rewrite ?E1, ?E2; [apply Hd|apply Ha]. }
      destruct (hugo_col_num st1); [|done].
      destruct (entrez_col_num st1); [|done]. by eapply IH.
    + destruct (one_line (S i) _ st) as [st1|] eqn:Hline; [|done].
      cbn [mbind outcome_bind] in H.
      apply entrez_line_ok in Hline as [Hok1 _]; [|done]. by eapply IH.
Qed.

(** Without the column of the previous symbols no line stores a gene. *)
Lemma entrez_lines_unchanged lines : forall i st st',
  ids_ok isdigit st ->
  is_Some (hugo_col_num st) -> is_Some (entrez_col_num st) ->
  prev_name_col_num st = None ->
  all_lines lines i st = Returns st' -> st' = st.
Proof.
  induction lines as [|line lines IH]; intros i st st' Hok [h Hh] [e He] Hprev H;
    cbn [entrez_lines] in H; cbv zeta in H.
  - by injection H as <-.
  - destruct (_ <? 2)%nat; [done|].
    rewrite Hh, He in H. simpl in H.
    destruct (one_line (S i) _ st) as [st1|] eqn:Hline; [|done].
    cbn [mbind outcome_bind] in H.
    apply entrez_line_ok in Hline as (_ & _ & _ & _ & _ & Hsame); [|done].
    rewrite (Hsame Hprev) in H. by eapply IH.
Qed.

(** Where a gene of the table comes from. *)
Lemma entrez_line_source i cols st st' n id :
  one_line i cols st = Returns st' -> hugo_name_to_id st' !! n = Some id ->
  hugo_name_to_id st !! n = Some id \/
  ((exists h, hugo_col_num st = Some h /\ cols !! h = Some n) /\
   (exists e, entrez_col_num st = Some e /\ cols !! e = Some id) /\
   (forall k, status_col_num st = Some k -> cols !! k = Some "Approved"%string)).
Proof.
  intros H Hn. unfold entrez_line in H.
  assert (forall k, status_col_num st = Some k ->
            match status_col_num st with
            | Some k => status ← uncaught (Py.index cols k);
                        Returns (negb (String.eqb status "Approved"))
            | None => Returns false
            end = Returns false -> cols !! k = Some "Approved"%string) as Hstatus.
  { intros k -> E. unfold Py.index in E.
    destruct (cols !! k) as [status|]; [|done]. cbn in E.
    destruct (String.eqb_spec status "Approved"); [by subst|done]. }
  destruct (match status_col_num st with
            | Some k => _
            | None => Returns false
            end) as [[]|]; cbn [mbind outcome_bind] in H;
    [injection H as <-; by left| |done].
  destruct (hugo_col_num st) as [h|] eqn:Hh; [|done].
  destruct (entrez_col_num st) as [e|] eqn:He; [|done].
  destruct (cols !! h) as [hugo_name|] eqn:Hch; [|done].
  destruct (cols !! e) as [entrez_id|] eqn:Hce; [|done].
  destruct (isdigit entrez_id) eqn:Hdigit; simpl in H.
  2:{ destruct (String.eqb entrez_id ""); [injection H as <-; by left|done]. }
  destruct (hugo_name_to_id st !! hugo_name) eqn:Hfree; [done|].
  destruct (column cols (prev_name_col_num st)) as [previous|]; [|done].
  cbn [mbind outcome_bind] in H. injection H as <-.
  cbn [hugo_name_to_id] in Hn.
  destruct (decide (hugo_name = n)) as [->|Hne].
  - rewrite lookup_insert_eq in Hn. injection Hn as ->. right.
    split; [by exists h|]. split; [by exists e|]. intros k Hk. by apply Hstatus.
  - rewrite lookup_insert_ne in Hn by done. by left.
Qed.

Lemma entrez_lines_source lines : forall i st st' n id,
  ids_ok isdigit st ->
  is_Some (hugo_col_num st) -> is_Some (entrez_col_num st) ->
  all_lines lines i st = Returns st' -> hugo_name_to_id st' !! n = Some id ->
  hugo_name_to_id st !! n = Some id \/
  exists line, line ∈ lines /\ approved_line st line n id.
Proof.
  induction lines as [|line lines IH]; intros i st st' n id Hok [h Hh] [e He] H Hn;
    cbn [entrez_lines] in H; cbv zeta in H.
  - injection H as <-. by left.
  - destruct (_ <? 2)%nat; [done|].
    rewrite Hh, He in H. simpl in H.
    destruct (one_line (S i) _ st) as [st1|] eqn:Hline; [|done].
    cbn [mbind outcome_bind] in H.
    destruct (entrez_line_ok _ _ _ _ Hok Hline) as (Hok1 & E1 & E2 & E3 & _).
    destruct (IH (S i) st1 st' n id Hok1) as [Hold|(l & Hl & Happ)]; try done.
    + by rewrite E1, Hh.
    + by rewrite E2, He.
    + destruct (entrez_line_source _ _ _ _ _ _ Hline Hold) as [?|Hnew]; [by left|].
      right. exists line. split; [apply elem_of_cons; by left|]. exact Hnew.
    + right. exists l. split; [apply elem_of_cons; by right|].
      unfold approved_line in *. by rewrite <- E1, <- E2, <- E3.
Qed.

(** The loop, from the first line of a file. *)
Lemma entrez_lines_first first rest st' :
  all_lines (first :: rest) 0 entrez_init = Returns st' ->
  let st := header_of hugo_column entrez_column status_column prev_name_column first in
  is_Some (hugo_col_num st) /\ is_Some (entrez_col_num st) /\
  hugo_name_to_id st = ∅ /\ alt_hugo_name_to_id st = ∅ /\
  all_lines rest 1 st = Returns st'.
Proof.
  intros H. unfold header_of. cbv zeta.
  cbn [entrez_lines] in H. cbv zeta in H.
  destruct (_ <? 2)%nat; [done|]. simpl in H. fold (tab_columns first) in H.
  destruct (entrez_header_maps (tab_columns first) 0 entrez_init) as [E1 E2].
  set (st := header (tab_columns first) 0 entrez_init) in *.
  destruct (hugo_col_num st); [|done]. destruct (entrez_col_num st); [|done].
  done.
Qed.

End Loader.

End EntrezFacts.

(** X13. When [load_entrez_ids] returns, whatever strings [isdigit]
    accepts, no two gene names of the first dictionary share an Entrez id,
    every id of it is one that [isdigit] accepts, and every id given to a
    previous symbol in the second dictionary is the id of a gene of the
    first. *)
Theorem load_entrez_ids_one_to_one (isdigit : string -> bool)
    (hugo_column entrez_column : string)
    (status_column prev_name_column : option string)
    (entrez_file : list string) (hugo alt : gmap string string) :
  load_entrez_ids isdigit hugo_column entrez_column status_column
    prev_name_column entrez_file = Returns (hugo, alt) ->
  one_to_one hugo /\
  (forall name id, hugo !! name = Some id -> isdigit id = true) /\
  (forall name id, alt !! name = Some id -> exists gene, hugo !! gene = Some id).
Proof.
  unfold load_entrez_ids. intros H.
  destruct (entrez_lines _ _ _ _ _ entrez_file 0 entrez_init) as [st|] eqn:Hloop;
    [|done].
  cbn [mbind outcome_bind] in H. case_bool_decide as Hsize; [|done].
  injection H as <- <-.
  apply EntrezFacts.entrez_lines_ok in Hloop as [Hd Ha]; [|by split].
  split; [|done].
  intros n1 n2 id H1 H2. by eapply EntrezFacts.size_img_inj.
Qed.

Lemma load_entrez_ids_one_to_one_witness :
  exists hugo alt : gmap string string,
    hugo !! "TP53"%string = Some "7157"%string /\
    alt !! "LFS1"%string = Some "7157"%string /\
    one_to_one hugo /\
    (forall name id, hugo !! name = Some id -> all_digits id = true) /\
    (forall name id, alt !! name = Some id -> exists gene, hugo !! gene = Some id).
Proof.
  exists {[ "TP53"%string := "7157"%string ]},
    {[ "P53"%string := "7157"%string; "LFS1"%string := "7157"%string ]}.
  split; [by vm_compute|]. split; [by vm_compute|].
  apply (load_entrez_ids_one_to_one all_digits "Approved symbol"
           "NCBI Gene ID(supplied by NCBI)" (Some "Status"%string)
           (Some "Previous symbols"%string) entrez_file_3).
  by vm_compute.
Defined.

(** X14. Every gene of the dictionary that [load_entrez_ids] returns
    was read from a line below the header: the line has the name of the
    gene in the column of the symbols and its id in the column of the ids,
    and, where the header has a column for the status, the status of the
    line is [Approved].  A withdrawn gene is never returned. *)
Theorem load_entrez_ids_approved (isdigit : string -> bool)
    (hugo_column entrez_column : string)
    (status_column prev_name_column : option string)
    (first : string) (rest : list string) (hugo alt : gmap string string)
    (name id : string) :
  load_entrez_ids isdigit hugo_column entrez_column status_column
    prev_name_column (first :: rest) = Returns (hugo, alt) ->
  hugo !! name = Some id ->
  exists line,
    line ∈ rest /\
    approved_line
      (header_of hugo_column entrez_column status_column prev_name_column first)
      line name id.
Proof.
  unfold load_entrez_ids. intros H Hn.
  destruct (entrez_lines _ _ _ _ _ (first :: rest) 0 entrez_init) as [st|] eqn:Hloop;
    [|done].
  cbn [mbind outcome_bind] in H. case_bool_decide as Hsize; [|done].
  injection H as <- <-.
  apply EntrezFacts.entrez_lines_first in Hloop as (Hh & He & E1 & E2 & Hloop).
  eapply EntrezFacts.entrez_lines_source in Hloop as [Hold|Hnew]; [| |split|..];
    try done.
  - by rewrite E1 in Hold.
  - intros n i. by rewrite E1.
  - intros n i. by rewrite E2.
Qed.

Lemma load_entrez_ids_approved_witness :
  exists line,
    line ∈ [line_of ["TP53"; "7157"; "Approved"; "P53, LFS1"]%string;
            line_of ["OLD1"; "11"; "Entry Withdrawn"; ""]%string;
            line_of ["NOID"; ""; "Approved"; ""]%string] /\
    approved_line
      (header_of "Approved symbol" "NCBI Gene ID(supplied by NCBI)"
         (Some "Status"%string) (Some "Previous symbols"%string)
         (line_of ["Approved symbol"; "NCBI Gene ID(supplied by NCBI)"; "Status";
                   "Previous symbols"]%string))
      line "TP53" "7157".
Proof.
  apply (load_entrez_ids_approved all_digits "Approved symbol"
           "NCBI Gene ID(supplied by NCBI)" (Some "Status"%string)
           (Some "Previous symbols"%string) _ _
           {[ "TP53"%string := "7157"%string ]}
           {[ "P53"%string := "7157"%string; "LFS1"%string := "7157"%string ]}).
  - by vm_compute.
  - by vm_compute.
Defined.

(** X15. The column of the previous symbols is not optional: when
    the header of the file has no column of that name, or no name is given
    for it, [load_entrez_ids] returns no gene at all.  Either it raises, as
    it does at the first line that would give a gene its id, or both
    dictionaries are empty. *)
Theorem previous_symbols_required (isdigit : string -> bool)
    (hugo_column entrez_column : string)
    (status_column prev_name_column : option string)
    (first : string) (rest : list string) (hugo alt : gmap string string) :
  (forall col, col ∈ tab_columns first -> prev_name_column <> Some col) ->
  load_entrez_ids isdigit hugo_column entrez_column status_column
    prev_name_column (first :: rest) = Returns (hugo, alt) ->
  hugo = ∅ /\ alt = ∅.
Proof.
  unfold load_entrez_ids. intros Hcols H.
  destruct (entrez_lines _ _ _ _ _ (first :: rest) 0 entrez_init) as [st|] eqn:Hloop;
    [|done].
  cbn [mbind outcome_bind] in H. case_bool_decide as Hsize; [|done].
  injection H as <- <-.
  apply EntrezFacts.entrez_lines_first in Hloop as (Hh & He & E1 & E2 & Hloop).
  apply EntrezFacts.entrez_lines_unchanged in Hloop as ->; try done.
  - split; intros n i; rewrite ?E1, ?E2; done.
  - by apply EntrezFacts.entrez_header_prev.
Qed.

Lemma previous_symbols_required_witness :
  (∅ : gmap string string) = ∅ /\ (∅ : gmap string string) = ∅.
Proof.
  apply (previous_symbols_required all_digits "Approved symbol"
           "NCBI Gene ID(supplied by NCBI)" (Some "Status"%string)
           (Some "Previous symbols"%string)
           (line_of ["Approved symbol"; "NCBI Gene ID(supplied by NCBI)";
                     "Status"]%string)
           [line_of ["NOID"; ""; "Approved"]%string]).
  - intros col Hcol%list_elem_of_In [= <-]. vm_compute in Hcol.
    intuition discriminate.
  - by vm_compute.
Defined.

(** ** The normaliser on a sample without coverage *)

Module CoverageFacts.

Lemma round_div_0 g : g <> 0 -> round_div 0 g = 0.
Proof.
  intros Hg. unfold round_div.
  destruct (Z.ltb_spec g 0); cbv beta iota; change (- 0) with 0;
    rewrite Z.div_0_l, Z.mod_0_l by lia; change (2 * 0) with 0.
  - destruct (Z.ltb_spec 0 (- g)); [done|lia].
  - destruct (Z.ltb_spec 0 g); [done|lia].
Qed.

(** Where the sample stores no chromosome of the table, the loop over the
    table counts no base. *)
Lemma ploidy_chromosomes_uncovered self arm_coords : forall cov g,
  (forall kc, kc ∈ arm_coords ->
     starts self !! sample_chrom_name self (Chromosome.chrom kc.2) = None) ->
  (ploidy_chromosomes self arm_coords cov g).2
  = Ok (cov, g + genome_length arm_coords).
Proof.
  induction arm_coords as [|[key c] rest IH]; intros cov g Hun;
    cbn [ploidy_chromosomes genome_length foldr snd]; cbv zeta.
  - f_equal. f_equal. lia.
  - assert (Chromosome.chrom (fill_placeholder c) = Chromosome.chrom c) as ->.
    { unfold fill_placeholder.
      by destruct (Chromosome.p_start c), (Chromosome.q_start c). }
    pose proof (Hun (key, c)) as Hc. cbn [snd] in Hc.
    rewrite Hc by (apply elem_of_cons; by left).
    match goal with
    | |- context [ploidy_chromosomes self rest cov ?g1] =>
        pose proof (IH cov g1) as Hg';
        destruct (ploidy_chromosomes self rest cov g1) as [rest' r]
    end.
    cbn [snd] in *. rewrite Hg'.
    + f_equal. f_equal. unfold genome_length. lia.
    + intros kc Hkc. apply Hun. apply elem_of_cons. by right.
Qed.

End CoverageFacts.

(** X16. The normaliser needs a segment on a chromosome of the arm
    table.  For a sample that stores no chromosome of the table (one
    without segment, or one whose chromosomes the table does not list), a
    call that is not skipped never returns: it raises [ZeroDivisionError]
    where the arm lengths of the table add up to zero, as on an empty
    table, and otherwise the [TypeError] of a ploidy below 1.  The sample
    is left as it was. *)
Theorem normaliser_needs_coverage (self : SampleCNVs)
    (arm_coords : odict Chromosome.t) (sample_name : string) (redo : bool) :
  ploidy self = None \/ redo = true ->
  (forall kc, kc ∈ arm_coords ->
     starts self !! sample_chrom_name self (Chromosome.chrom kc.2) = None) ->
  let '(_, self', r) := adjust_ploidy self arm_coords sample_name redo in
  self' = self /\
  r = Raise (if genome_length arm_coords =? 0 then ZeroDivisionError
             else InvalidPloidy).
Proof.
  intros Hrun Hun. unfold adjust_ploidy.
  assert (bool_decide (is_Some (ploidy self)) && negb redo = false) as ->.
  { destruct Hrun as [-> | ->]; [done|]. apply andb_false_r. }
  pose proof (CoverageFacts.ploidy_chromosomes_uncovered self arm_coords ∅ 0 Hun)
    as Hloop.
  destruct (ploidy_chromosomes self arm_coords ∅ 0) as [arm_coords' r].
  cbn [snd] in Hloop. subst r. rewrite map_fold_empty, Z.add_0_l.
  destruct (Z.eqb_spec (genome_length arm_coords) 0) as [|Hg]; [done|].
  by rewrite CoverageFacts.round_div_0.
Qed.

Lemma normaliser_needs_coverage_witness :
  let '(_, self', r) := adjust_ploidy init genome100 "S1" false in
  self' = init /\ r = Raise InvalidPloidy.
Proof.
  apply (normaliser_needs_coverage init genome100 "S1" false).
  - by left.
  - intros kc Hkc. reflexivity.
Defined.

(** ** The gene list of [load_subset_ids] *)

Module SubsetFacts.

Lemma gene_list_snoc linesep acc entrez_id :
  gene_list linesep (acc ++ [entrez_id])
  = (if negb (bool_decide (acc = [])) then gene_list linesep acc
     else gene_list linesep acc ++ [(quoted_entrez_id ++ linesep)%string])
    ++ [entrez_id; linesep].
Proof.
  unfold gene_list. rewrite bind_app.
  destruct acc as [|a acc]; [done|].
  rewrite bool_decide_eq_false_2 by done. cbn [negb app].
  change ([entrez_id] ≫= (fun id => [id; linesep])) with [entrez_id; linesep].
  done.
Qed.

Section Loader.
Variable isdigit : string -> bool.
Variable linesep : string.
Variable gene_ids : gmap string string.
Variable alt_gene_ids : option (gmap string string).

Local Abbreviation loop := (subset_lines isdigit linesep gene_ids alt_gene_ids).

Lemma subset_lines_spec lines : forall acc o' ids,
  loop lines acc (negb (bool_decide (acc = []))) (gene_list linesep acc)
  = (o', Returns ids) ->
  exists l, ids = acc ++ l /\ o' = gene_list linesep ids /\
    Forall (subset_source isdigit gene_ids alt_gene_ids lines) l.
Proof.
  induction lines as [|line lines IH]; intros acc o' ids H;
    cbn [subset_lines] in H; cbv zeta in H.
  - injection H as <- <-. exists []. by rewrite app_nil_r.
  - assert (forall entrez_id,
        subset_source isdigit gene_ids alt_gene_ids [line] entrez_id ->
        loop lines (acc ++ [entrez_id]) true
          ((if negb (bool_decide (acc = [])) then gene_list linesep acc
            else gene_list linesep acc ++ [(quoted_entrez_id ++ linesep)%string])
           ++ [entrez_id; linesep]) = (o', Returns ids) ->
        exists l, ids = acc ++ l /\ o' = gene_list linesep ids /\
          Forall (subset_source isdigit gene_ids alt_gene_ids (line :: lines)) l)
      as Hstore.
    { intros entrez_id Hsrc Hrest.
      destruct (IH (acc ++ [entrez_id]) o' ids) as (l & -> & -> & Hl).
      - rewrite bool_decide_eq_false_2 by (by destruct acc).
        by rewrite gene_list_snoc.
      - exists (entrez_id :: l). rewrite <- app_assoc. split; [done|]. split; [done|].
        constructor.
        + destruct Hsrc as (ln & Hin%list_elem_of_singleton & Hln). subst ln.
          exists line. split; [apply elem_of_cons; by left|done].
        + eapply Forall_impl; [exact Hl|]. intros id (ln & Hin & Hln).
          exists ln. split; [apply elem_of_cons; by right|done]. }
    assert (loop lines acc (negb (bool_decide (acc = []))) (gene_list linesep acc)
            = (o', Returns ids) ->
            exists l, ids = acc ++ l /\ o' = gene_list linesep ids /\
              Forall (subset_source isdigit gene_ids alt_gene_ids (line :: lines)) l)
      as Hskip.
    { intros Hrest. destruct (IH acc o' ids Hrest) as (l & -> & -> & Hl).
      exists l. split; [done|]. split; [done|].
      eapply Forall_impl; [exact Hl|]. intros id (ln & Hin & Hsrc).
      exists ln. split; [apply elem_of_cons; by right|done]. }
    destruct (isdigit (Str.strip_line_ending line)) eqn:Hdigit.
    { apply (Hstore (Str.strip_line_ending line)); [|exact H]. exists line.
      split; [apply list_elem_of_singleton; done|]. left. done. }
    destruct (gene_ids !! Str.strip_line_ending line) as [entrez_id|] eqn:Hgene.
    { apply (Hstore entrez_id); [|exact H]. exists line.
      split; [by apply list_elem_of_singleton|]. right. left. done. }
    destruct alt_gene_ids as [alt|] eqn:Halt; [|done].
    destruct (alt !! Str.strip_line_ending line) as [entrez_id|] eqn:Hprev.
    + apply (Hstore entrez_id); [|exact H]. exists line.
      split; [by apply list_elem_of_singleton|]. right. right.
      split; [done|]. split; [done|]. by exists alt.
    + by apply Hskip.
Qed.

End Loader.

(** Without the second dictionary the loop skips no line. *)
Lemma subset_lines_strict isdigit linesep gene_ids lines : forall acc hw o,
  (subset_lines isdigit linesep gene_ids None lines acc hw o).2
  = Raises NoneMembership /\ Exists (unknown_name isdigit gene_ids) lines \/
  (exists ids, (subset_lines isdigit linesep gene_ids None lines acc hw o).2
               = Returns ids) /\
  Forall (fun line => ~ unknown_name isdigit gene_ids line) lines.
Proof.
  induction lines as [|line lines IH]; intros acc hw o;
    cbn [subset_lines]; cbv zeta.
  - right. split; [by eexists|constructor].
  - destruct (isdigit (Str.strip_line_ending line)) eqn:Hdigit.
    { match goal with
      | |- context [subset_lines _ _ _ _ lines ?a ?h ?w] =>
          destruct (IH a h w) as [[Hr He]|[Hr Ha]]
      end.
      - left. split; [done|]. by apply Exists_cons_tl.
      - right. split; [done|]. constructor; [|done]. intros [? _]. congruence. }
    destruct (gene_ids !! Str.strip_line_ending line) as [entrez_id|] eqn:Hgene.
    { match goal with
      | |- context [subset_lines _ _ _ _ lines ?a ?h ?w] =>
          destruct (IH a h w) as [[Hr He]|[Hr Ha]]
      end.
      - left. split; [done|]. by apply Exists_cons_tl.
      - right. split; [done|]. constructor; [|done]. intros [_ ?]. congruence. }
    left. split; [done|]. apply Exists_cons_hd. by split.
Qed.

End SubsetFacts.

(** X17. The gene list that [load_subset_ids] writes and the set it
    returns agree: when the call returns, the file holds the header and,
    line by line, ids whose set is the set returned, and holds nothing at
    all, not even the header, when no id was found.  Every id comes from a
    line of [id_file]: a line that [isdigit] accepts is taken as an id
    without being looked up, and any other line is a name, looked up in
    [gene_ids] first and in [alt_gene_ids] next. *)
Theorem gene_list_matches_subset (isdigit : string -> bool) (linesep : string)
    (gene_ids : gmap string string) (alt_gene_ids : option (gmap string string))
    (id_file : list string) (o : writes) (subset_ids : gset string) :
  load_subset_ids isdigit linesep gene_ids id_file alt_gene_ids
  = (o, Returns subset_ids) ->
  exists l,
    o = gene_list linesep l /\ subset_ids = list_to_set l /\
    Forall (subset_source isdigit gene_ids alt_gene_ids id_file) l.
Proof.
  unfold load_subset_ids. intros H.
  destruct (subset_lines isdigit linesep gene_ids alt_gene_ids id_file [] false [])
    as [o' r] eqn:Hloop.
  destruct r as [ids|]; [|done]. cbn in H. injection H as <- <-.
  apply (SubsetFacts.subset_lines_spec isdigit linesep gene_ids alt_gene_ids
           id_file []) in Hloop as (l & -> & -> & Hl).
  by exists l.
Qed.

Lemma gene_list_matches_subset_witness :
  exists l,
    [(quoted_entrez_id ++ "010")%string; "604"; "010"; "7157"; "010"; "7157"; "010"]%string
    = gene_list "010" l /\
    ({[ "604"; "7157" ]} : gset string) = list_to_set l /\
    Forall (subset_source all_digits ids_tp53
              (Some {[ "LFS1"%string := "7157"%string ]}) id_file_3) l.
Proof.
  apply (gene_list_matches_subset all_digits "010" ids_tp53
           (Some {[ "LFS1"%string := "7157"%string ]}) id_file_3).
  by vm_compute.
Defined.

(** X18. With [alt_gene_ids] left at its default [None],
    [load_subset_ids] skips no line: it raises the [TypeError] of a
    membership test in [None] as soon as a line is neither accepted by
    [isdigit] nor a name of [gene_ids], and returns exactly when there is
    no such line. *)
Theorem load_subset_ids_without_alternatives (isdigit : string -> bool)
    (linesep : string) (gene_ids : gmap string string) (id_file : list string) :
  let r := (load_subset_ids isdigit linesep gene_ids id_file None).2 in
  (Exists (unknown_name isdigit gene_ids) id_file -> r = Raises NoneMembership) /\
  (Forall (fun line => ~ unknown_name isdigit gene_ids line) id_file ->
   exists subset_ids, r = Returns subset_ids).
Proof.
  unfold load_subset_ids.
  pose proof (SubsetFacts.subset_lines_strict isdigit linesep gene_ids id_file
                [] false []) as Hloop.
  destruct (subset_lines isdigit linesep gene_ids None id_file [] false [])
    as [o r]. cbn [snd] in *.
  destruct Hloop as [[-> He]|[[ids ->] Ha]]; cbn.
  - split; [done|]. intros Hall. exfalso.
    apply Exists_exists in He as (line & Hin & Hun).
    by eapply Forall_forall in Hall.
  - split; [|by eexists]. intros He. exfalso.
    apply Exists_exists in He as (line & Hin & Hun).
    by eapply Forall_forall in Ha.
Qed.

Lemma load_subset_ids_without_alternatives_witness :
  (load_subset_ids all_digits "010" ids_tp53 id_file_3 None).2
  = Raises NoneMembership.
Proof.
  apply (load_subset_ids_without_alternatives all_digits "010" ids_tp53 id_file_3).
  apply Exists_cons_tl, Exists_cons_tl, Exists_cons_hd. by vm_compute.
Defined.

(** ** The mutation file of [generate_mut_flat] *)

Module MafFacts.

(** *** The sorted set of the samples *)

Lemma elem_of_sorted_add x l y : y ∈ sorted_add x l <-> y = x \/ y ∈ l.
Proof.
  induction l as [|z l IH]; simpl.
  - rewrite list_elem_of_singleton. rewrite elem_of_nil. tauto.
  - destruct (String.compare x z) eqn:E.
    + apply String.compare_eq_iff in E as ->. rewrite elem_of_cons. tauto.
    + rewrite !elem_of_cons. tauto.
    + rewrite !elem_of_cons, IH. tauto.
Qed.

Lemma str_lt_trans a b c : str_lt a b -> str_lt b c -> str_lt a c.
Proof.
  unfold str_lt. intros H1 H2.
  apply OrderedTypeEx.String_as_OT.cmp_lt.
  eapply OrderedTypeEx.String_as_OT.lt_trans;
    by apply OrderedTypeEx.String_as_OT.cmp_lt.
Qed.

Lemma sorted_add_sorted x l :
  Sorted.StronglySorted str_lt l -> Sorted.StronglySorted str_lt (sorted_add x l).
Proof.
  induction 1 as [|z l Hl IH Hz]; simpl.
  - repeat constructor.
  - destruct (String.compare x z) eqn:E.
    + by constructor.
    + constructor; [by constructor|]. constructor; [done|].
      eapply Forall_impl; [exact Hz|]. intros w Hw. by eapply str_lt_trans.
    + constructor; [done|]. apply Forall_forall. intros w Hw.
      apply elem_of_sorted_add in Hw as [->|Hw].
      * unfold str_lt. rewrite String.compare_antisym, E. done.
      * by eapply Forall_forall in Hz.
Qed.

(** *** The header and the attributes *)

Lemma maf_header_cols_other key cols : forall j hc,
  key ∉ cols -> maf_header_cols cols j hc !! key = hc !! key.
Proof.
  induction cols as [|col cols IH]; intros j hc Hkey; [done|].
  cbn [maf_header_cols]. rewrite IH.
  - assert (col <> key) as Hne by (intros ->; apply Hkey, elem_of_cons; by left).
    repeat case_bool_decide; by rewrite ?lookup_insert_ne.
  - intros Hin. apply Hkey, elem_of_cons. by right.
Qed.

Lemma attributes_lookup hc cols ma key :
  attributes hc cols = Some ma ->
  ma !! key = (hc !! key) ≫= (fun y => cols !! y) /\
  (is_Some (hc !! key) -> is_Some (ma !! key)).
Proof.
  unfold attributes. case_bool_decide as Hall; [|done]. intros [= <-].
  rewrite lookup_omap. split; [done|]. intros [y Hy]. rewrite Hy. simpl.
  by apply (Hall key y).
Qed.

Lemma getitem_elem (ma : gmap string string) hc cols key v :
  attributes hc cols = Some ma ->
  uncaught (getitem ma key) = Returns v -> v ∈ cols.
Proof.
  intros Hma H. unfold getitem in H.
  destruct (ma !! key) as [w|] eqn:E; [|done]. injection H as ->.
  destruct (attributes_lookup hc cols ma key Hma) as [Hk _].
  rewrite E in Hk. destruct (hc !! key) as [y|]; [|done]. simpl in Hk.
  by eapply list_elem_of_lookup_2.
Qed.

(** *** The body of the loop *)

Section Loop.
Variable linesep : string.
Variable gene_ids alt_gene_ids : gmap string string.
Variable subset_ids : option (gset string).
Variable in_maf : list string.

Local Abbreviation inv := (maf_inv linesep gene_ids alt_gene_ids subset_ids in_maf).
Local Abbreviation row_of samples :=
  (mut_row linesep gene_ids alt_gene_ids subset_ids
     (fun sample_name : string => sample_name ∈ (samples : list string))).

(** What the first part of the body finds on a line of mutation. *)
Lemma maf_variant_spec i cols st sample_name entrez_id type position :
  maf_variant gene_ids alt_gene_ids i cols st
  = Returns (Some (sample_name, entrez_id, type, position)) ->
  sample_named sample_name /\ sample_name ∈ cols /\
  type ∈ ["TRUNC"; "MUTATION"; "Synon"; "L265P"]%string /\
  (exists hugo_name,
     gene_ids !! hugo_name = Some entrez_id \/
     (gene_ids !! hugo_name = None /\ alt_gene_ids !! hugo_name = Some entrez_id)) /\
  (is_Some (header_cols st !! "Start_Position"%string) -> is_Some position) /\
  (header_cols st !! "Start_Position"%string = None -> position = None).
Proof.
  unfold maf_variant. intros H.
  destruct (attributes (header_cols st) cols) as [ma|] eqn:Hma; [|done].
  cbn [mbind outcome_bind] in H.
  destruct (match ma !! "NCBI_Build"%string with Some _ => _ | None => _ end);
    [done|].
  destruct (uncaught (getitem ma "Tumor_Sample_Barcode")) as [sample|] eqn:Hs;
    [|done].
  cbn [mbind outcome_bind] in H.
  destruct (String.eqb_spec sample "") as [|Hn1]; [done|].
  destruct (String.eqb_spec sample ".") as [|Hn2]; [done|].
  cbn [orb] in H.
  destruct (uncaught (getitem ma "Hugo_Symbol")) as [hugo_name|] eqn:Hh; [|done].
  cbn [mbind outcome_bind] in H.
  destruct (String.eqb hugo_name "Unknown"); [done|].
  destruct (match gene_ids !! hugo_name with Some _ => _ | None => _ end)
    as [id|] eqn:Hid; [|done].
  destruct (uncaught (getitem ma "Variant_Classification")) as [vc|]; [|done].
  cbn [mbind outcome_bind] in H.
  destruct (variant_type vc) as [ty|] eqn:Hty; [|done].
  assert (ty ∈ ["TRUNC"; "MUTATION"; "Synon"]%string) as Hin.
  { unfold variant_type in Hty.
    repeat case_bool_decide; try done; injection Hty as <-; repeat constructor. }
  assert (forall ty' : string,
            ty' = ty \/ ty' = "L265P"%string ->
            ty' ∈ ["TRUNC"; "MUTATION"; "Synon"; "L265P"]%string) as Hty'.
  { intros ty' [->| ->]; [|repeat constructor].
    change (ty ∈ ["TRUNC"; "MUTATION"; "Synon"]%string ++ ["L265P"%string]).
    apply elem_of_app. by left. }
  destruct (attributes_lookup _ _ _ "Start_Position"%string Hma) as [Hp1 Hp2].
  assert (forall ty', ty' = ty \/ ty' = "L265P"%string ->
            Returns (Some (sample, id, ty', ma !! "Start_Position"%string))
            = Returns (Some (sample_name, entrez_id, type, position)) ->
            sample_named sample_name /\ sample_name ∈ cols /\
            type ∈ ["TRUNC"; "MUTATION"; "Synon"; "L265P"]%string /\
            (exists hugo_name,
               gene_ids !! hugo_name = Some entrez_id \/
               (gene_ids !! hugo_name = None /\
                alt_gene_ids !! hugo_name = Some entrez_id)) /\
            (is_Some (header_cols st !! "Start_Position"%string) -> is_Some position) /\
            (header_cols st !! "Start_Position"%string = None -> position = None))
    as Hend.
  { intros ty' Hty'' [= <- <- <- <-].
    split; [done|]. split; [by eapply getitem_elem|]. split; [by apply Hty'|].
    split.
    - exists hugo_name. destruct (gene_ids !! hugo_name); [left|right]; by simplify_eq.
    - split; [done|]. intros E. by rewrite Hp1, E. }
  destruct (_ && _).
  - destruct (uncaught (getitem ma "Start_Position")) as [start|]; [|done].
    cbn [mbind outcome_bind] in H.
    destruct (String.eqb start "38182641").
    + destruct (uncaught (getitem ma "Tumor_Seq_Allele2")) as [allele|]; [|done].
      cbn [mbind outcome_bind] in H.
      destruct (String.eqb allele "C");
        [apply (Hend "L265P"%string)|apply (Hend ty)]; auto.
    + apply (Hend ty); auto.
  - apply (Hend ty); auto.
Qed.

Lemma row_of_mono (samples samples' : list string) row :
  (forall s, s ∈ samples -> s ∈ samples') ->
  row_of samples row -> row_of samples' row.
Proof.
  intros Hsub (s & id & ty & p & -> & Hs & Hrest).
  exists s, id, ty, p. split; [done|]. split; [by apply Hsub|done].
Qed.

Lemma flat_file_mono (P Q : string -> Prop) o :
  (forall row, P row -> Q row) -> flat_file linesep P o -> flat_file linesep Q o.
Proof.
  intros HPQ [->|(row & rows & -> & Hrows)]; [by left|].
  right. exists row, rows. split; [done|]. by eapply Forall_impl.
Qed.

(** A header line. *)
Lemma maf_header_inv line st o st' :
  line ∈ in_maf -> header_cols st = ∅ -> inv st o ->
  maf_header (tab_columns line) st = Returns st' -> inv st' o.
Proof.
  intros Hline Hempty (Hcols & Hwritten & Hfile & Hsorted & Hsamples & Hstart) H.
  unfold maf_header in H. cbv zeta in H.
  destruct (missing_column _ _); [done|]. injection H as <-.
  rewrite Hempty, lookup_empty in Hcols, Hwritten.
  rewrite bool_decide_eq_false_2 in Hcols by (by intros [? ?]).
  unfold maf_inv.
  cbn [header_cols out_header_cols out_header_written sample_list].
  rewrite Hempty. split.
  { rewrite Hcols. by case_bool_decide. }
  split.
  { destruct (out_header_written st); [|done]. by destruct Hwritten as [_ [? ?]]. }
  split; [done|]. split; [done|]. split; [done|].
  intros Hsome. exists line. split; [done|].
  destruct (decide ("Start_Position"%string ∈ tab_columns line)) as [|Hnot]; [done|].
  rewrite (maf_header_cols_other _ _ 0 ∅ Hnot), lookup_empty in Hsome.
  by destruct Hsome.
Qed.

(** The end of the body, for a variant found on a line. *)
Lemma maf_write_inv line st o sample_name entrez_id type position o' r :
  line ∈ in_maf -> inv st o ->
  sample_named sample_name -> sample_name ∈ tab_columns line ->
  type ∈ ["TRUNC"; "MUTATION"; "Synon"; "L265P"]%string ->
  (exists hugo_name,
     gene_ids !! hugo_name = Some entrez_id \/
     (gene_ids !! hugo_name = None /\ alt_gene_ids !! hugo_name = Some entrez_id)) ->
  (is_Some (header_cols st !! "Start_Position"%string) -> is_Some position) ->
  (header_cols st !! "Start_Position"%string = None -> position = None) ->
  maf_write linesep subset_ids (sample_name, entrez_id, type, position) st o
  = (o', r) ->
  match r with
  | Returns st' => inv st' o'
  | Raises f =>
      f = NoneConcat /\ o = [] /\ o' = [tab_join flat_header; linesep]
  end.
Proof.
  intros Hline (Hcols & Hwritten & Hfile & Hsorted & Hsamples & Hstart)
    Hnamed Hsample Htype Hid Hpos1 Hpos2 H.
  unfold maf_write in H.
  set (st1 := if bool_decide (sample_name ∈ sample_list st) then st else _) in H.
  assert (header_cols st1 = header_cols st /\
          out_header_cols st1 = out_header_cols st /\
          out_header_written st1 = out_header_written st) as (E1 & E2 & E3).
  { subst st1. by case_bool_decide. }
  assert (sample_name ∈ sample_list st1 /\
          (forall s, s ∈ sample_list st -> s ∈ sample_list st1) /\
          (forall s, s ∈ sample_list st1 -> s = sample_name \/ s ∈ sample_list st) /\
          Sorted.StronglySorted str_lt (sample_list st1)) as (Hin & Hmono & Hback & Hsorted1).
  { subst st1. case_bool_decide; [by auto|].
    cbn [sample_list]. repeat split.
    - apply elem_of_sorted_add. by left.
    - intros s Hs. apply elem_of_sorted_add. by right.
    - intros s Hs. by apply elem_of_sorted_add in Hs.
    - by apply sorted_add_sorted. }
  assert (inv st1 o) as Hinv1.
  { unfold maf_inv. rewrite E1, E2, E3. split; [done|]. split; [done|].
    split; [eapply flat_file_mono; [|exact Hfile]; intros row;
            by apply row_of_mono|].
    split; [done|]. split; [|done].
    intros s [->|Hs]%Hback; [|by apply Hsamples].
    split; [done|]. by exists line. }
  clearbody st1.
  destruct (match subset_ids with Some _ => _ | None => false end) eqn:Hskip.
  { injection H as <- <-. exact Hinv1. }
  assert (forall ids, subset_ids = Some ids -> entrez_id ∈ ids) as Hsubset.
  { intros ids ->. apply negb_false_iff in Hskip. by apply bool_decide_eq_true in Hskip. }
  assert (forall p, row_of (sample_list st1)
            (tab_join [sample_name; entrez_id; type; (p ++ linesep)%string])) as Hrow.
  { intros p. by exists sample_name, entrez_id, type, p. }
  assert (flat_file linesep (row_of (sample_list st1)) o) as Hfile1.
  { eapply flat_file_mono; [|exact Hfile]. intros row. by apply row_of_mono. }
  rewrite E3 in H. destruct (out_header_written st) eqn:Hw.
  - destruct Hwritten as [Hne Hsome].
    destruct (Hpos1 Hsome) as [p ->]. injection H as <- <-.
    unfold maf_inv. rewrite E1, E2, E3.
    split; [done|]. split; [split; [by destruct o|done]|].
    split; [|by destruct Hinv1 as (_ & _ & _ & ? & ? & ?)].
    destruct Hfile1 as [->|(row & rows & -> & Hrows)]; [done|].
    right. exists row, (rows ++ [tab_join [sample_name; entrez_id; type; (p ++ linesep)%string]]).
    split; [done|]. rewrite app_comm_cons. apply Forall_app. split; [done|].
    by constructor.
  - subst o. destruct position as [p|].
    + injection H as <- <-.
      assert (is_Some (header_cols st !! "Start_Position"%string)) as Hsome.
      { destruct (header_cols st !! "Start_Position"%string) eqn:E; [done|].
        by specialize (Hpos2 eq_refl). }
      unfold maf_inv.
      cbn [header_cols out_header_cols out_header_written sample_list].
      rewrite E1, E2. split; [done|]. split; [done|].
      split; [|by destruct Hinv1 as (_ & _ & _ & ? & ? & ?); rewrite <- E1].
      right. eexists _, []. rewrite Hcols, bool_decide_eq_true_2 by done.
      split; [reflexivity|]. by constructor.
    + injection H as <- <-. split; [done|]. split; [done|].
      rewrite E2, Hcols. rewrite bool_decide_eq_false_2; [done|].
      intros Hsome. by destruct (Hpos1 Hsome).
Qed.

(** One turn of the loop. *)
Lemma maf_line_inv i line st o o' r :
  line ∈ in_maf -> inv st o ->
  maf_line linesep gene_ids alt_gene_ids subset_ids i line st o = (o', r) ->
  match r with
  | Returns st' => inv st' o'
  | Raises f =>
      o' = o \/ (f = NoneConcat /\ o = [] /\ o' = [tab_join flat_header; linesep])
  end.
Proof.
  intros Hline Hinv H. unfold maf_line in H.
  destruct line as [|first rest] eqn:Eline; [injection H as <- <-; by left|].
  rewrite <- Eline in *. clear Eline.
  destruct (Ascii.eqb first "#"); [by injection H as <- <-|].
  cbv zeta in H. fold (tab_columns line) in H.
  destruct (Str.is_empty _); [by injection H as <- <-|].
  case_bool_decide as Hempty.
  - injection H as <- <-.
    destruct (maf_header (tab_columns line) st) as [st'|] eqn:Hh; [|by left].
    by eapply maf_header_inv.
  - destruct (maf_variant gene_ids alt_gene_ids i (tab_columns line) st)
      as [[[[[sample_name entrez_id] type] position]|]|] eqn:Hv.
    + apply maf_variant_spec in Hv as (? & ? & ? & ? & ? & ?).
      eapply maf_write_inv in H; try done.
      destruct r; [done|]. by right.
    + by injection H as <- <-.
    + injection H as <- <-. by left.
Qed.

(** The loop. *)
Lemma maf_lines_inv lines : forall i st o o' r,
  (forall line, line ∈ lines -> line ∈ in_maf) -> inv st o ->
  maf_lines linesep gene_ids alt_gene_ids subset_ids lines i st o = (o', r) ->
  match r with
  | Returns st' => inv st' o'
  | Raises f =>
      exists st0 o0, inv st0 o0 /\
        (o' = o0 \/
         (f = NoneConcat /\ o0 = [] /\ o' = [tab_join flat_header; linesep]))
  end.
Proof.
  induction lines as [|line lines IH]; intros i st o o' r Hsub Hinv H;
    cbn [maf_lines] in H; cbv zeta in H.
  - by injection H as <- <-.
  - destruct (maf_line linesep gene_ids alt_gene_ids subset_ids (S i) line st o)
      as [o1 [st1|f]] eqn:Hline.
    + apply maf_line_inv in Hline; [|apply Hsub, elem_of_cons; by left|done].
      eapply IH; [|exact Hline|exact H].
      intros l Hl. apply Hsub, elem_of_cons. by right.
    + injection H as <- <-.
      apply maf_line_inv in Hline; [|apply Hsub, elem_of_cons; by left|done].
      by exists st, o.
Qed.

Lemma maf_init_inv : inv maf_init [].
Proof.
  unfold maf_inv. cbn. rewrite lookup_empty.
  rewrite bool_decide_eq_false_2 by (by intros [? ?]).
  split; [done|]. split; [done|]. split; [by left|]. split; [constructor|].
  split; [by intros s Hs%elem_of_nil|]. by intros [? ?].
Qed.

End Loop.

End MafFacts.

(** X19. The column [Start_Position] is not optional: for a MAF file
    none of whose lines has a column of that name, [generate_mut_flat]
    writes no mutation at all.  Either nothing is written, and so whenever
    the call returns, or the header of three columns is written and the
    call raises the [TypeError] of [None + os.linesep], at the first
    variant it would write. *)
Theorem start_position_required (linesep : string)
    (gene_ids : gmap string string) (in_maf : list string)
    (alt_gene_ids : option (gmap string string))
    (subset_ids : option (gset string)) :
  (forall line, line ∈ in_maf -> "Start_Position"%string ∉ tab_columns line) ->
  let '(o, r) := generate_mut_flat linesep gene_ids in_maf alt_gene_ids subset_ids in
  o = [] \/ (o = [tab_join flat_header; linesep] /\ r = Raises NoneConcat).
Proof.
  intros Hnone. unfold generate_mut_flat. cbv zeta.
  destruct (maf_lines linesep gene_ids (default ∅ alt_gene_ids) subset_ids in_maf 0
              maf_init []) as [o r] eqn:Hloop.
  apply (MafFacts.maf_lines_inv linesep gene_ids (default ∅ alt_gene_ids)
           subset_ids in_maf) in Hloop; [|done|apply MafFacts.maf_init_inv].
  assert (forall st w,
            maf_inv linesep gene_ids (default ∅ alt_gene_ids) subset_ids in_maf st w ->
            w = []) as Hempty.
  { intros st w (_ & Hwritten & _ & _ & _ & Hstart).
    destruct (out_header_written st); [|done].
    destruct Hwritten as [_ Hsome]. destruct (Hstart Hsome) as (line & Hin & Hcol).
    by destruct (Hnone line Hin). }
  destruct r as [st|f]; cbn [mbind outcome_bind].
  - left. by eapply Hempty.
  - destruct Hloop as (st0 & o0 & Hinv & [->|(-> & _ & ->)]).
    + left. by eapply Hempty.
    + by right.
Qed.

Lemma start_position_required_witness :
  let '(o, r) := generate_mut_flat "010" ids_tp53 maf_file_unlocated None None in
  o = [] \/ (o = [tab_join flat_header; "010"%string] /\ r = Raises NoneConcat).
Proof.
  apply (start_position_required "010" ids_tp53 maf_file_unlocated None None).
  intros line Hline%list_elem_of_In Hcol%list_elem_of_In.
  vm_compute in Hline.
  destruct Hline as [<-|[<-|[<-|[]]]]; vm_compute in Hcol; intuition discriminate.
Defined.

(** X20. What [generate_mut_flat] writes, whether it returns or raises,
    is a mutation file: nothing, or the header with its column [Location]
    followed by one line at least, every line being a sample that is named
    (and, when the call returns, that is in the list returned), the Entrez
    id that [gene_ids], or else [alt_gene_ids], gives to a gene, within
    [subset_ids] where there is one, one of the four types and a position
    with the line ending.  The one exception is the header of three columns
    alone, left by the [TypeError] of a file without positions. *)
Theorem mut_flat_rows (linesep : string) (gene_ids : gmap string string)
    (in_maf : list string) (alt_gene_ids : option (gmap string string))
    (subset_ids : option (gset string)) :
  let '(o, r) := generate_mut_flat linesep gene_ids in_maf alt_gene_ids subset_ids in
  (o = [tab_join flat_header; linesep] /\ r = Raises NoneConcat) \/
  flat_file linesep
    (mut_row linesep gene_ids (default ∅ alt_gene_ids) subset_ids
       (fun sample_name =>
          sample_named sample_name /\
          forall samples, r = Returns samples -> sample_name ∈ samples)) o.
Proof.
  unfold generate_mut_flat. cbv zeta.
  destruct (maf_lines linesep gene_ids (default ∅ alt_gene_ids) subset_ids in_maf 0
              maf_init []) as [o r] eqn:Hloop.
  apply (MafFacts.maf_lines_inv linesep gene_ids (default ∅ alt_gene_ids)
           subset_ids in_maf) in Hloop; [|done|apply MafFacts.maf_init_inv].
  destruct r as [st|f]; cbn [mbind outcome_bind].
  - right. destruct Hloop as (_ & _ & Hfile & _ & Hsamples & _).
    eapply MafFacts.flat_file_mono; [|exact Hfile].
    intros row (s & id & ty & p & -> & Hs & Hrest).
    exists s, id, ty, p. split; [done|]. split; [|done].
    split; [by apply Hsamples|]. by intros samples [= <-].
  - destruct Hloop as (st0 & o0 & Hinv & [->|(-> & _ & ->)]); [|by left].
    right. destruct Hinv as (_ & _ & Hfile & _ & Hsamples & _).
    eapply MafFacts.flat_file_mono; [|exact Hfile].
    intros row (s & id & ty & p & -> & Hs & Hrest).
    exists s, id, ty, p. split; [done|]. split; [|done].
    split; [by apply Hsamples|done].
Qed.

(** X21. The list of samples that [generate_mut_flat] returns is in
    the strict order of [str], so that no sample occurs twice in it; none
    of its samples is the empty string or a dot, and each is a field of a
    line of the MAF file. *)
Theorem mut_flat_samples (linesep : string) (gene_ids : gmap string string)
    (in_maf : list string) (alt_gene_ids : option (gmap string string))
    (subset_ids : option (gset string)) (o : writes) (samples : list string) :
  generate_mut_flat linesep gene_ids in_maf alt_gene_ids subset_ids
  = (o, Returns samples) ->
  Sorted.StronglySorted str_lt samples /\
  forall sample_name, sample_name ∈ samples ->
    sample_named sample_name /\
    exists line, line ∈ in_maf /\ sample_name ∈ tab_columns line.
Proof.
  unfold generate_mut_flat. cbv zeta. intros H.
  destruct (maf_lines linesep gene_ids (default ∅ alt_gene_ids) subset_ids in_maf 0
              maf_init []) as [o' r] eqn:Hloop.
  destruct r as [st|f]; [|done]. cbn [mbind outcome_bind] in H.
  injection H as <- <-.
  apply (MafFacts.maf_lines_inv linesep gene_ids (default ∅ alt_gene_ids)
           subset_ids in_maf) in Hloop; [|done|apply MafFacts.maf_init_inv].
  by destruct Hloop as (_ & _ & _ & Hsorted & Hsamples & _).
Qed.

Lemma mut_flat_samples_witness :
  Sorted.StronglySorted str_lt ["S1"; "S2"]%string /\
  forall sample_name, sample_name ∈ ["S1"; "S2"]%string ->
    sample_named sample_name /\
    exists line, line ∈ maf_file_2 /\ sample_name ∈ tab_columns line.
Proof.
  apply (mut_flat_samples "010" ids_tp53 maf_file_2 None None
           [tab_join flat_header_located; "010";
            tab_join ["S2"; "7157"; "MUTATION"; "7577120" ++ "010"];
            tab_join ["S1"; "7157"; "TRUNC"; "7578406" ++ "010"]]%string).
  by vm_compute.
Defined.


(** ** Worked examples *)

(** The ["chr"] prefix is stripped on the way in: both calls reach the
    same chromosome. *)
Example merge_across_prefix :
  (self ← add_all init [("chr1"%string, 100, 200, 2); ("1"%string, 150, 250, 2)];
   Ok (columns self "1"))
  = Ok (Some [100], Some [250], Some [2]).
Proof. by vm_compute. Qed.

(** A segment inside a stored segment of the same state changes nothing. *)
Example covered_insert_idempotent :
  (self ← add_all init [("1"%string, 100, 300, 1); ("1"%string, 150, 200, 1)];
   Ok (columns self "1"))
  = Ok (Some [100], Some [300], Some [1]).
Proof. by vm_compute. Qed.

(** Within the loss family the lower state wins and splits the other. *)
Example extremity_split :
  (self ← add_all init [("1"%string, 100, 300, 1); ("1"%string, 150, 200, 0)];
   Ok (columns self "1"))
  = Ok (Some [100; 150; 200], Some [150; 200; 300], Some [1; 0; 1]).
Proof. by vm_compute. Qed.

(** A neutral segment is a member of the gain family too: a gain that
    covers it removes it. *)
Example neutral_segment_absorbed :
  (self ← add_all init [("1"%string, 150, 200, 2); ("1"%string, 100, 300, 3)];
   Ok (columns self "1"))
  = Ok (Some [100], Some [300], Some [3]).
Proof. by vm_compute. Qed.

(** An amplification over 850 of the 1000 bases of an arm is flagged,
    one over 750 is not. *)
Example arm_amp_flagged :
  (self ← add init "1" 1000 1850 5;
   events ← overlap_chrom self two_arms default_threshold;
   Ok (map_to_list events))
  = Ok [("1q"%string, AMP)].
Proof. by vm_compute. Qed.

Example arm_amp_not_flagged :
  (self ← add init "1" 1000 1750 5;
   events ← overlap_chrom self two_arms default_threshold;
   Ok (map_to_list events))
  = Ok [].
Proof. by vm_compute. Qed.

(** A loss over part of a gene reports it, a gain over part of it does
    not, a gain over all of it does, and a neutral segment over it is
    rejected. *)
Example loss_partial_reported :
  get_overlap_genes "1" 1500 3000 1 one_gene = Ok ["7157"%string].
Proof. reflexivity. Qed.

Example gain_partial_dropped :
  get_overlap_genes "1" 1500 3000 3 one_gene = Ok [].
Proof. reflexivity. Qed.

Example gain_full_reported :
  get_overlap_genes "chr1" 500 3000 3 one_gene = Ok ["7157"%string].
Proof. reflexivity. Qed.

Example neutral_over_gene_rejected :
  get_overlap_genes "1" 1500 3000 2 one_gene = Raise InvalidCNState.
Proof. reflexivity. Qed.

(** The sample [neutral_13] is what [add] builds, its normalisation
    succeeds with ploidy 2, and the p arm of chromosome 13 then holds the
    placeholder. *)
Example neutral_13_built :
  add init "chr13" 17900000 115169878 2 = Ok neutral_13.
Proof. by vm_compute. Qed.

Example placeholder_written :
  let '(w, out) := run (Normalize "T1" false) (mkCore acrocentric [] neutral_13) in
  (out, ploidy (profile w),
   (fun kc => (Chromosome.p_start kc.2, Chromosome.p_end kc.2,
               Chromosome.p_length kc.2)) <$> arm_table w)
  = (Done, Some 2, [(Some (-100000), Some (-100000), 1)]).
Proof. by vm_compute. Qed.
